(** * IPsec mode rollout and verification engine

    A shallow embedding of test/extended/networking's IPsec suite
    (configureIPsecMode, getIPsecMode, the ensureIPsec... convergence waits,
    pingAndCheckNodeTraffic, checkTraffic and the suite's teardown) and the
    properties its specification states about them.

    The cluster is an explicit [World] that the engine reads and writes
    through a small state monad; what the cluster answers is given by an
    environment [Env] of responses, one per call the engine issues. *)

From Stdlib Require Import String List Bool Arith ZArith Lia.
Import ListNotations.
Local Open Scope string_scope.
Local Open Scope list_scope.

(* ================================================================== *)
(** * Go values *)

(** The classes of error the engine tells apart.  [apierrors.IsNotFound] and
    [apierrors.IsConflict] look at the status reason of an API error,
    [context.DeadlineExceeded] is the poller's own error. *)
Inductive ErrKind : Type :=
| ConnReset
| NotFound
| Conflict
| DeadlineExceeded
| Other.

(** A non-nil Go [error]: what [Error()] prints and the class it belongs to.
    A nil error is [None] of [option error]. *)
Record error : Type := mkError { errKind : ErrKind; Error : string }.

Definition ErrKind_eqb (a b : ErrKind) : bool :=
  match a, b with
  | ConnReset, ConnReset | NotFound, NotFound | Conflict, Conflict
  | DeadlineExceeded, DeadlineExceeded | Other, Other => true
  | _, _ => false
  end.

Definition IsNotFound (e : error) : bool := ErrKind_eqb (errKind e) NotFound.
Definition IsConflict (e : error) : bool := ErrKind_eqb (errKind e) Conflict.

(** Modelled from the spec: isConnResetErr lives in the package's utility file,
    which is not part of these sources; it recognises the designated class of
    connection-reset errors. *)
Definition isConnResetErr (e : error) : bool := ErrKind_eqb (errKind e) ConnReset.

(** [fmt.Errorf] without [%w]: a fresh error that carries only its text. *)
Definition Errorf (msg : string) : error := mkError Other msg.

(** [%v] of an error value: its text, or [<nil>]. *)
Definition fmtV (err : option error) : string :=
  match err with
  | Some e => Error e
  | None => "<nil>"
  end.

Definition context_DeadlineExceeded : error :=
  mkError DeadlineExceeded "context deadline exceeded".

(** [time.Duration], counted in seconds. *)
Definition Minute : nat := 60.

(* ================================================================== *)
(** * The operator API types the engine touches *)

Definition IPsecMode : Type := string.
Definition IPsecModeDisabled : IPsecMode := "Disabled".
Definition IPsecModeExternal : IPsecMode := "External".
Definition IPsecModeFull : IPsecMode := "Full".

Record IPsecConfig : Type := { Mode : IPsecMode }.

(** networks.operator.openshift.io/cluster, cut down to
    [Spec.DefaultNetwork.OVNKubernetesConfig.IPsecConfig] (a pointer, so it may
    be nil) and the resource version optimistic concurrency compares, kept
    as a counter the server bumps at every write.  The suite runs in the
    OVN-Kubernetes context only, where OVNKubernetesConfig itself is set. *)
Record Network : Type := {
  resourceVersion : nat;
  ipsecConfig : option IPsecConfig
}.

Definition withIPsecConfig (n : Network) (c : IPsecConfig) : Network :=
  {| resourceVersion := resourceVersion n; ipsecConfig := Some c |}.

(** Status of the ovn-ipsec-host daemonset; the two counts are int32. *)
Record DaemonSet : Type := {
  DesiredNumberScheduled : Z;
  NumberReady : Z
}.

Record Pod : Type := {
  podName : string;
  podNamespace : string;
  PodIP : string
}.

(* ================================================================== *)
(** * Constants of the suite *)

Definition tcpdumpESPFilter (src dst : string) : string :=
  "esp and src " ++ src ++ " and dst " ++ dst.
Definition tcpdumpGeneveFilter (src dst : string) : string :=
  "udp port 6081 and src " ++ src ++ " and dst " ++ dst.
Definition ipsecRolloutWaitDuration : nat := 20 * Minute.
Definition ipsecRolloutWaitInterval : nat := 1 * Minute.
Definition nsCertMachineConfigName : string := "99-worker-north-south-ipsec-config".
Definition leftNodeIPsecConfigYaml : string := "ipsec-left-node.yaml".
Definition rightNodeIPsecConfigYaml : string := "ipsec-right-node.yaml".

(* ================================================================== *)
(** * The cluster as the engine sees it *)

(** The three concurrent tasks of one ping-and-capture trial. *)
Inductive Task : Type := CaptureSrc | CaptureDst | Ping.

Definition Task_eqb (a b : Task) : bool :=
  match a, b with
  | CaptureSrc, CaptureSrc | CaptureDst, CaptureDst | Ping, Ping => true
  | _, _ => false
  end.

(** The order in which the three tasks of a trial finish. *)
Inductive Order : Type :=
| SrcDstPing | SrcPingDst | DstSrcPing | DstPingSrc | PingSrcDst | PingDstSrc.

Definition finishing (o : Order) : list Task :=
  match o with
  | SrcDstPing => [CaptureSrc; CaptureDst; Ping]
  | SrcPingDst => [CaptureSrc; Ping; CaptureDst]
  | DstSrcPing => [CaptureDst; CaptureSrc; Ping]
  | DstPingSrc => [CaptureDst; Ping; CaptureSrc]
  | PingSrcDst => [Ping; CaptureSrc; CaptureDst]
  | PingDstSrc => [Ping; CaptureDst; CaptureSrc]
  end.

(** [oc exec POD -n NAMESPACE -- ARGV]. *)
Record Command : Type := {
  execPod : string;
  execNamespace : string;
  argv : list string
}.

(** The outcome of a Ginkgo node.  A failed Gomega assertion ends the node it
    is in. *)
Inductive Failure : Type :=
| UnexpectedError (e : error)      (** Expect(err).NotTo(HaveOccurred()) *)
| ExpectedAnError                  (** Expect(err).To(HaveOccurred()) *)
| EventuallyTimedOut.              (** Eventually(...).Should(BeTrue()) *)

Inductive Verdict (A : Type) : Type :=
| Passed (a : A)
| Failed (f : Failure).
Arguments Passed {A} a.
Arguments Failed {A} f.

(** Everything the engine does to the cluster, with the answer it got, in the
    order it happened. *)
Inductive Event : Type :=
| NetworksGet (err : option error)
| NetworksUpdate (obj : Network) (err : option error)
| DaemonSetsGet (ds : option DaemonSet) (err : option error)
| ClusterOperatorsReady (ready : bool) (err : option error)
| MachineConfigPoolsReadyWithIPsec (ready : bool) (err : option error)
| WorkerMachineConfigPoolsReady (name : string) (exists_ : bool)
    (ready : bool) (err : option error)
| Sleep (d : nat)
| Go (t : Task) (c : Command)
| Done (t : Task) (err : option error)
| WaitPing (err : option error)
| WaitTcpDump (err : option error)
| TrialResult (ipsecTraffic : bool) (err : option error)
| SetupTestPods (res : Verdict (option error))
| CleanupTestPods (err : option error)
| OcDelete (file : string) (err : option error)
| UndeployNmstateHandler (err : option error)
| DeleteNSCertMachineConfig (err : option error).

(** What the cluster answers.  Every oracle is indexed by the number of
    events that precede the call, so no two calls need agree. *)
Record Env : Type := {
  networksGetErr : nat -> option error;
  networksUpdateErr : nat -> option error;
  (** a concurrent writer's new IPsecConfig, committed just before the call *)
  rivalWrite : nat -> option (option IPsecConfig);
  daemonSetsGetResp : nat -> option DaemonSet * option error;
  clusterOperatorsReadyResp : nat -> bool * option error;
  machineConfigPoolsReadyWithIPsecResp : nat -> bool * option error;
  workerMachineConfigPoolsReadyResp : nat -> bool * option error;
  execResp : nat -> Command -> option error;
  (** the order in which the tasks launched at this point finish *)
  completion : nat -> Order;
  setupTestPodsResp : nat -> Verdict (option error);
  cleanupTestPodsResp : nat -> option error;
  ocDeleteResp : nat -> string -> option error;
  undeployNmstateHandlerResp : nat -> option error;
  deleteNSCertMachineConfigResp : nat -> option error;
  (** framework.TestContext.DeleteNamespaceOnFailure *)
  DeleteNamespaceOnFailure : bool
}.

Record World : Type := {
  stored : Network;   (** the API server's copy of the network record *)
  now : nat;          (** seconds since the start of the run *)
  log : list Event    (** oldest first *)
}.

Definition seq (w : World) : nat := length (log w).

Definition logEvent (ev : Event) (w : World) : World :=
  {| stored := stored w; now := now w; log := log w ++ [ev] |}.

(** ** The state monad of client code *)

Definition Client (A : Type) : Type := World -> A * World.

Definition ret {A : Type} (a : A) : Client A := fun w => (a, w).

Definition bind {A B : Type} (c : Client A) (k : A -> Client B) : Client B :=
  fun w => let (a, w') := c w in k a w'.

Notation "x <- c ;; k" := (bind c (fun x => k))
  (at level 61, c at next level, right associativity).
Notation "' pat <- c ;; k" := (bind c (fun x => match x with pat => k end))
  (at level 61, pat pattern, c at next level, right associativity).
Notation "c ;;; k" := (bind c (fun _ => k))
  (at level 61, right associativity).

Definition emit (ev : Event) : Client unit := fun w => (tt, logEvent ev w).

Definition sleep (d : nat) : Client unit :=
  fun w => (tt, {| stored := stored w; now := now w + d; log := log w ++ [Sleep d] |}).

(* ================================================================== *)
(** * Libraries the engine calls *)

(** ** client-go: typed clients

    A typed client's Get allocates the result object before the request, so on
    an error the caller holds a non-nil, zero-valued object together with the
    error.  The daemonset oracle leaves both components free. *)

Definition zeroNetwork : Network := {| resourceVersion := 0; ipsecConfig := None |}.

Definition commitRival (env : Env) (w : World) : World :=
  match rivalWrite env (seq w) with
  | Some c =>
      {| stored := {| resourceVersion := S (resourceVersion (stored w));
                      ipsecConfig := c |};
         now := now w; log := log w |}
  | None => w
  end.

(** [Networks().Get(ctx, "cluster", ...)]. *)
Definition Networks_Get (env : Env) : Client (Network * option error) :=
  fun w0 =>
    let w := commitRival env w0 in
    match networksGetErr env (seq w) with
    | Some e => ((zeroNetwork, Some e), logEvent (NetworksGet (Some e)) w)
    | None => ((stored w, None), logEvent (NetworksGet None) w)
    end.

Definition errConflict : error :=
  mkError Conflict "the object has been modified; please apply your changes to the latest version and try again".

(** [Networks().Update(ctx, obj, ...)]: refused with a conflict when the object
    was read at an older resource version than the stored one. *)
Definition Networks_Update (env : Env) (obj : Network) : Client (option error) :=
  fun w0 =>
    let w := commitRival env w0 in
    match networksUpdateErr env (seq w) with
    | Some e => (Some e, logEvent (NetworksUpdate obj (Some e)) w)
    | None =>
        if Nat.eqb (resourceVersion obj) (resourceVersion (stored w)) then
          (None,
           logEvent (NetworksUpdate obj None)
             {| stored := {| resourceVersion := S (resourceVersion obj);
                             ipsecConfig := ipsecConfig obj |};
                now := now w; log := log w |})
        else (Some errConflict, logEvent (NetworksUpdate obj (Some errConflict)) w)
    end.

Definition DaemonSets_Get (env : Env) : Client (option DaemonSet * option error) :=
  fun w =>
    let r := daemonSetsGetResp env (seq w) in
    (r, logEvent (DaemonSetsGet (fst r) (snd r)) w).

(** ** client-go: retry.RetryOnConflict

    [fn] runs until it returns nil or an error that is not a conflict, at most
    [Steps] times; when the budget is spent the last conflict is returned. *)

Record Backoff : Type := { Steps : nat }.

Definition DefaultRetry : Backoff := {| Steps := 5 |}.

Fixpoint retryLoop (steps : nat) (lastErr : option error)
    (fn : Client (option error)) : Client (option error) :=
  match steps with
  | 0 => ret lastErr
  | S k =>
      err <- fn ;;
      match err with
      | None => ret None
      | Some e => if IsConflict e then retryLoop k (Some e) fn else ret (Some e)
      end
  end.

Definition RetryOnConflict (backoff : Backoff) (fn : Client (option error))
    : Client (option error) :=
  retryLoop (Steps backoff) None fn.

(* ================================================================== *)
(** * ModeStore *)

(** What configureIPsecMode hands to RetryOnConflict: one
    read-compare-write sequence. *)
Definition configureIPsecModeAttempt (env : Env) (ipsecMode : IPsecMode)
    : Client (option error) :=
  '(network, err) <- Networks_Get env ;;
  match err with
  | Some e => ret (Some e)
  | None =>
      match ipsecConfig network with
      | None =>
          Networks_Update env (withIPsecConfig network {| Mode := ipsecMode |})
      | Some c =>
          if negb (String.eqb (Mode c) ipsecMode) then
            Networks_Update env (withIPsecConfig network {| Mode := ipsecMode |})
          else
            (* No changes to existing mode, return without updating networks. *)
            ret None
      end
  end.

(** configureIPsecMode helps to rollout specified IPsec Mode on the cluster.
    If the cluster is already configured with specified mode, then this is
    almost like no-op for the cluster. *)
Definition configureIPsecMode (env : Env) (ipsecMode : IPsecMode)
    : Client (option error) :=
  RetryOnConflict DefaultRetry (configureIPsecModeAttempt env ipsecMode).

Definition getIPsecMode (env : Env) : Client (IPsecMode * option error) :=
  '(network, err) <- Networks_Get env ;;
  match err with
  | Some e => ret (IPsecModeDisabled, Some e)
  | None =>
      let mode :=
        match ipsecConfig network with
        | Some c =>
            if negb (String.eqb (Mode c) "") then Mode c
            else IPsecModeFull (* Backward compatibility with existing configs *)
        | None => IPsecModeDisabled
        end in
      ret (mode, None)
  end.

(* ================================================================== *)
(** * ReadinessPoller *)

(** ** apimachinery: wait.PollUntilContextTimeout

    The condition runs at once when [immediate] is set, then on every tick of
    the interval timer that falls before the deadline.  The result is the
    condition's error, nil once the condition holds, or the context's error
    when the deadline passes first.  The condition is taken to answer at the
    instant it is asked. *)
Fixpoint pollLoop (ticks interval rest : nat)
    (condition : Client (bool * option error)) : Client (option error) :=
  match ticks with
  | 0 => sleep rest ;;; ret (Some context_DeadlineExceeded)
  | S k =>
      sleep interval ;;;
      '(ok, err) <- condition ;;
      match err with
      | Some _ => ret err
      | None => if ok then ret None else pollLoop k interval rest condition
      end
  end.

Definition PollUntilContextTimeout (interval timeout : nat) (immediate : bool)
    (condition : Client (bool * option error)) : Client (option error) :=
  let ticks := (timeout - 1) / interval in
  let rest := timeout - ticks * interval in
  if immediate then
    '(ok, err) <- condition ;;
    match err with
    | Some _ => ret err
    | None => if ok then ret None else pollLoop ticks interval rest condition
    end
  else pollLoop ticks interval rest condition.

(* ================================================================== *)
(** * FleetConvergenceChecker *)

(** Modelled from the spec: areClusterOperatorsReady is in the package's
    utility file, not in these sources; it reports whether all cluster
    operators are healthy, available and not degraded.  Its answer is the
    environment's. *)
Definition areClusterOperatorsReady (env : Env) : Client (bool * option error) :=
  fun w =>
    let r := clusterOperatorsReadyResp env (seq w) in
    (r, logEvent (ClusterOperatorsReady (fst r) (snd r)) w).

(** Modelled from the spec: areMachineConfigPoolsReadyWithIPsec is in the
    package's utility file, not in these sources; it reports whether every
    relevant machine config pool has rolled out the IPsec extension.  Its
    answer is the environment's. *)
Definition areMachineConfigPoolsReadyWithIPsec (env : Env)
    : Client (bool * option error) :=
  fun w =>
    let r := machineConfigPoolsReadyWithIPsecResp env (seq w) in
    (r, logEvent (MachineConfigPoolsReadyWithIPsec (fst r) (snd r)) w).

(** Modelled from the spec: areWorkerMachineConfigPoolsReady is in the
    package's utility file, not in these sources; it is the pool-readiness
    predicate keyed by extension name and desired presence. *)
Definition areWorkerMachineConfigPoolsReady (env : Env) (name : string)
    (exists_ : bool) : Client (bool * option error) :=
  fun w =>
    let r := workerMachineConfigPoolsReadyResp env (seq w) in
    (r, logEvent (WorkerMachineConfigPoolsReady name exists_ (fst r) (snd r)) w).

(** [err != nil && !isConnResetErr(err)] *)
Definition fatal (err : option error) : bool :=
  match err with
  | Some e => negb (isConnResetErr e)
  | None => false
  end.

Definition getIPsecDaemonSet (env : Env) : Client (option DaemonSet * option error) :=
  '(ds, err) <- DaemonSets_Get env ;;
  match err with
  | Some e => if IsNotFound e then ret (None, None) else ret (ds, err)
  | None => ret (ds, err)
  end.

Definition isIPsecDaemonSetRunning (env : Env) : Client (bool * option error) :=
  '(ipsecDS, err) <- getIPsecDaemonSet env ;;
  match ipsecDS with
  | None => ret (false, err)
  | Some ds =>
      (* Be sure that it has ovn-ipsec-host pod running in each node. *)
      let ready := Z.eqb (DesiredNumberScheduled ds) (NumberReady ds) in
      ret (ready, None)
  end.

(** The condition polled by ensureIPsecMachineConfigRolloutComplete. *)
Definition machineConfigRolloutProbe (env : Env) : Client (bool * option error) :=
  '(done, err) <- areMachineConfigPoolsReadyWithIPsec env ;;
  if fatal err then ret (false, err)
  else if done then
    '(done, err) <- areClusterOperatorsReady env ;;
    if fatal err then ret (false, err) else ret (done, None)
  else ret (done, None).

(** ensureIPsecMachineConfigRolloutComplete ensures ipsec machine config
    extension is rolled out on all of master and worker nodes and cluster
    operators are coming back into ready state. *)
Definition ensureIPsecMachineConfigRolloutComplete (env : Env)
    : Client (option error) :=
  PollUntilContextTimeout ipsecRolloutWaitInterval ipsecRolloutWaitDuration true
    (machineConfigRolloutProbe env).

(** The condition polled by ensureIPsecEnabled. *)
Definition daemonSetRunningProbe (env : Env) : Client (bool * option error) :=
  '(done, err) <- isIPsecDaemonSetRunning env ;;
  if fatal err then ret (false, err)
  else if done then
    '(done, err) <- areClusterOperatorsReady env ;;
    if fatal err then ret (false, err) else ret (done, None)
  else ret (done, None).

(** ensureIPsecEnabled ensures IPsec is enabled by making sure the
    ovn-ipsec-host daemonset is completely ready on the cluster and cluster
    operators are coming back into ready state. *)
Definition ensureIPsecEnabled (env : Env) : Client (option error) :=
  err <- ensureIPsecMachineConfigRolloutComplete env ;;
  match err with
  | Some _ => ret err
  | None =>
      PollUntilContextTimeout ipsecRolloutWaitInterval ipsecRolloutWaitDuration
        true (daemonSetRunningProbe env)
  end.

(** The condition polled by ensureIPsecDisabled. *)
Definition daemonSetAbsentProbe (env : Env) : Client (bool * option error) :=
  '(ds, err) <- getIPsecDaemonSet env ;;
  if fatal err then ret (false, err)
  else
    match ds, err with
    | None, None =>
        '(done, err) <- areClusterOperatorsReady env ;;
        if fatal err then ret (false, err) else ret (done, None)
    | _, _ => ret (false, None)
    end.

(** ensureIPsecDisabled ensures IPsec is disabled by making sure the
    ovn-ipsec-host daemonset is completely removed from the cluster and cluster
    operators are coming back into ready state. *)
Definition ensureIPsecDisabled (env : Env) : Client (option error) :=
  PollUntilContextTimeout ipsecRolloutWaitInterval ipsecRolloutWaitDuration true
    (daemonSetAbsentProbe env).

(* ================================================================== *)
(** * Ginkgo nodes and Gomega assertions

    A failed assertion ends the node it is in: what follows it does not run. *)

Definition Node (A : Type) : Type := World -> Verdict A * World.

Definition pass {A : Type} (a : A) : Node A := fun w => (Passed a, w).

Definition failNode {A : Type} (f : Failure) : Node A := fun w => (Failed f, w).

Definition andThen {A B : Type} (n : Node A) (k : A -> Node B) : Node B :=
  fun w =>
    match n w with
    | (Passed a, w') => k a w'
    | (Failed f, w') => (Failed f, w')
    end.

Definition run {A : Type} (c : Client A) : Node A :=
  fun w => let (a, w') := c w in (Passed a, w').

Notation "x <~ n ;; k" := (andThen n (fun x => k))
  (at level 61, n at next level, right associativity).
Notation "' pat <~ n ;; k" := (andThen n (fun x => match x with pat => k end))
  (at level 61, pat pattern, n at next level, right associativity).
Notation "n >>> k" := (andThen n (fun _ => k))
  (at level 61, right associativity).

Definition ExpectNoError (err : option error) : Node unit :=
  match err with
  | None => pass tt
  | Some e => failNode (UnexpectedError e)
  end.

Definition waitForIPsecConfigToComplete (env : Env) (ipsecMode : IPsecMode)
    : Node unit :=
  if String.eqb ipsecMode IPsecModeDisabled then
    err <~ run (ensureIPsecDisabled env) ;; ExpectNoError err
  else if String.eqb ipsecMode IPsecModeExternal then
    err <~ run (ensureIPsecMachineConfigRolloutComplete env) ;; ExpectNoError err
  else if String.eqb ipsecMode IPsecModeFull then
    err <~ run (ensureIPsecEnabled env) ;; ExpectNoError err
  else pass tt.

(* ================================================================== *)
(** * TrafficOracle *)

(** Each node has two pods running, one is ping pod and another one is tcpdump
    pod; the pods are the ones setupTestPods launched. *)
Record testNodeConfig : Type := {
  pingPod : Pod;
  tcpdumpPod : Pod;
  hostInf : string;
  nodeName : string;
  nodeIP : string
}.

Record testConfig : Type := {
  ipsecMode : IPsecMode;
  srcNodeConfig : testNodeConfig;
  dstNodeConfig : testNodeConfig
}.

(** ** x/sync: errgroup.Group

    [Go] starts a task, [Wait] blocks until every task of the group has
    finished and returns the first error any of them returned. *)
Record Group : Type := {
  pending : list Task;
  errOnce : option error
}.

Definition isPending (t : Task) (g : Group) : bool := existsb (Task_eqb t) (pending g).

Definition finish (t : Task) (err : option error) (g : Group) : Group :=
  {| pending := filter (fun t' => negb (Task_eqb t t')) (pending g);
     errOnce := match errOnce g with
                | Some e => Some e
                | None => err
                end |}.

(** The two groups of one trial. *)
Record Groups : Type := {
  tcpDumpSync : Group;
  pingSync : Group
}.

Definition finishIn (t : Task) (err : option error) (gs : Groups) : Groups :=
  {| tcpDumpSync := if isPending t (tcpDumpSync gs)
                    then finish t err (tcpDumpSync gs) else tcpDumpSync gs;
     pingSync := if isPending t (pingSync gs)
                 then finish t err (pingSync gs) else pingSync gs |}.

Definition tcpdumpCommand (node : testNodeConfig) (filter : string) : Command :=
  {| execPod := podName (tcpdumpPod node);
     execNamespace := podNamespace (tcpdumpPod node);
     argv := ["timeout"; "10"; "tcpdump"; "-i"; hostInf node; "-c"; "1"; "-v";
              "--direction=out"; filter] |}.

Definition pingCommand (src dst : testNodeConfig) : Command :=
  {| execPod := podName (pingPod src);
     execNamespace := podNamespace (pingPod src);
     argv := ["ping"; "-c"; "3"; PodIP (pingPod dst)] |}.

Definition srcNodeTrafficFilter (src dst : testNodeConfig) (ipsecTraffic : bool)
    : string :=
  if ipsecTraffic
  then tcpdumpESPFilter (PodIP (tcpdumpPod src)) (PodIP (tcpdumpPod dst))
  else tcpdumpGeneveFilter (PodIP (tcpdumpPod src)) (PodIP (tcpdumpPod dst)).

Definition dstNodeTrafficFilter (src dst : testNodeConfig) (ipsecTraffic : bool)
    : string :=
  if ipsecTraffic
  then tcpdumpESPFilter (PodIP (tcpdumpPod dst)) (PodIP (tcpdumpPod src))
  else tcpdumpGeneveFilter (PodIP (tcpdumpPod dst)) (PodIP (tcpdumpPod src)).

(** The command a task runs: checkSrcNodeTraffic, checkDstNodeTraffic and
    pingTestFromPod. *)
Definition taskCommand (src dst : testNodeConfig) (ipsecTraffic : bool) (t : Task)
    : Command :=
  match t with
  | CaptureSrc => tcpdumpCommand src (srcNodeTrafficFilter src dst ipsecTraffic)
  | CaptureDst => tcpdumpCommand dst (dstNodeTrafficFilter src dst ipsecTraffic)
  | Ping => pingCommand src dst
  end.

(** What the function handed to [Go] returns, given the command's error. *)
Definition taskResult (t : Task) (err : option error) : option error :=
  match t, err with
  | CaptureSrc, Some e =>
      Some (Errorf ("error capturing traffic on the source node: " ++ Error e))
  | CaptureDst, Some e =>
      Some (Errorf ("error capturing traffic on the dst node: " ++ Error e))
  | _, _ => err
  end.

(** A task of the trial finishes: its command's answer is read and the task
    leaves its group. *)
Definition complete (env : Env) (cmd : Task -> Command) (t : Task) (gs : Groups)
    : Client Groups :=
  fun w =>
    if isPending t (tcpDumpSync gs) || isPending t (pingSync gs) then
      let err := taskResult t (execResp env (seq w) (cmd t)) in
      (finishIn t err gs, logEvent (Done t err) w)
    else (gs, w).

(** [Wait] on the group picked by [sel]: tasks go on completing, in the order
    of the schedule, until none of the group is pending. *)
Fixpoint Wait (env : Env) (cmd : Task -> Command) (sel : Groups -> Group)
    (sched : list Task) (gs : Groups)
    : Client (option error * (list Task * Groups)) :=
  match pending (sel gs) with
  | [] => ret (errOnce (sel gs), (sched, gs))
  | _ :: _ =>
      match sched with
      | [] => (* not reached: every task launched is in the schedule *)
          ret (errOnce (sel gs), (sched, gs))
      | t :: rest =>
          gs' <- complete env cmd t gs ;;
          Wait env cmd sel rest gs'
      end
  end.

Definition launched : Groups :=
  {| tcpDumpSync := {| pending := [CaptureSrc; CaptureDst]; errOnce := None |};
     pingSync := {| pending := [Ping]; errOnce := None |} |}.

(** The captures run under [timeout 10] and ping sends three packets, so all
    three tasks finish, in the order the environment gives. *)
Definition schedule (env : Env) (w : World) : list Task :=
  finishing (completion env (seq w)).

(** pingAndCheckNodeTraffic generates ping traffic from src pod to dst pod and at
    the same time captures its node traffic on both src and dst node. *)
Definition pingAndCheckNodeTraffic (env : Env) (src dst : testNodeConfig)
    (ipsecTraffic : bool) : Client (option error) :=
  fun w0 =>
    let cmd := taskCommand src dst ipsecTraffic in
    (emit (Go CaptureSrc (cmd CaptureSrc)) ;;;
     emit (Go CaptureDst (cmd CaptureDst)) ;;;
     emit (Go Ping (cmd Ping)) ;;;
     (* Wait for both ping and tcpdump capture complete and check the results. *)
     '(pingErr, (sched, gs)) <- Wait env cmd pingSync (schedule env w0) launched ;;
     emit (WaitPing pingErr) ;;;
     '(err, _) <- Wait env cmd tcpDumpSync sched gs ;;
     emit (WaitTcpDump err) ;;;
     let result :=
       match err, pingErr with
       | None, None => None
       | _, _ =>
           Some (Errorf ("failed to detect underlay traffic on node, node tcpdump err: "
                         ++ fmtV err ++ ", ping err: " ++ fmtV pingErr))
       end in
     emit (TrialResult ipsecTraffic result) ;;;
     ret result) w0.

(** Modelled from the spec: the helpers setupTestPods calls to find the
    capture image and to launch the four pods are not in these sources;
    setupTestPods either fails an assertion of its own or returns the first
    error of its two concurrent creations. *)
Definition setupTestPods (env : Env) (config : testConfig)
    : Node (option error) :=
  fun w =>
    let r := setupTestPodsResp env (seq w) in
    (r, logEvent (SetupTestPods r) w).

(** cleanupTestPods deletes the four pods and asserts on each deletion: the
    first deletion that fails ends the node. *)
Definition cleanupTestPods (env : Env) (config : testConfig) : Node unit :=
  fun w =>
    let err := cleanupTestPodsResp env (seq w) in
    ExpectNoError err (logEvent (CleanupTestPods err) w).

(** The deferred function of the two checks: it sees the value [err] holds
    when the check is left, whether by return or by a failed assertion. *)
Definition deferredCleanup (env : Env) (config : testConfig) (err : option error)
    : Node unit :=
  (* Don't cleanup test pods in error scenario. *)
  match err with
  | Some _ =>
      if negb (DeleteNamespaceOnFailure env) then pass tt
      else cleanupTestPods env config
  | None => cleanupTestPods env config
  end.

(** Runs [body], which leaves a verdict and the last value of [err], then the
    deferred function; a failure of the body is the one reported. *)
Definition withDeferred (deferred : option error -> Node unit)
    (body : World -> (Verdict unit * option error) * World) : Node unit :=
  fun w =>
    let '((v, err), w1) := body w in
    let (vd, w2) := deferred err w1 in
    match v with
    | Failed f => (Failed f, w2)
    | Passed _ => (vd, w2)
    end.

(** Two trials in a row: the first must succeed with [first] as its
    ipsecTraffic argument, the second, with the other signature, must fail. *)
Definition trialPair (env : Env) (config : testConfig) (first : bool)
    : World -> (Verdict unit * option error) * World :=
  fun w =>
    let (err, w1) :=
      pingAndCheckNodeTraffic env (srcNodeConfig config) (dstNodeConfig config)
        first w in
    match err with
    | Some e => ((Failed (UnexpectedError e), err), w1)
    | None =>
        let (err, w2) :=
          pingAndCheckNodeTraffic env (srcNodeConfig config) (dstNodeConfig config)
            (negb first) w1 in
        match err with
        | Some _ => ((Passed tt, err), w2)
        | None => ((Failed ExpectedAnError, err), w2)
        end
    end.

Definition checkForGeneveOnlyTraffic (env : Env) (config : testConfig) : Node unit :=
  err <~ setupTestPods env config ;;
  ExpectNoError err >>>
  withDeferred (deferredCleanup env config) (trialPair env config false).

Definition checkForESPOnlyTraffic (env : Env) (config : testConfig) : Node unit :=
  err <~ setupTestPods env config ;;
  ExpectNoError err >>>
  withDeferred (deferredCleanup env config) (trialPair env config true).

Definition checkTraffic (env : Env) (config : testConfig) (mode : IPsecMode)
    : Node unit :=
  if String.eqb mode IPsecModeFull then checkForESPOnlyTraffic env config
  else checkForGeneveOnlyTraffic env config.

(* ================================================================== *)
(** * RolloutCoordinator: the suite *)

(** ** Gomega: Eventually(f, timeout, interval).Should(BeTrue())

    [f] is polled at once and then on every interval that falls before the
    timeout; the assertion fails when the timeout passes first. *)
Fixpoint eventuallyLoop (ticks interval : nat) (f : Node bool) : Node unit :=
  match ticks with
  | 0 => failNode EventuallyTimedOut
  | S k =>
      run (sleep interval) >>>
      b <~ f ;;
      if b then pass tt else eventuallyLoop k interval f
  end.

Definition Eventually (f : Node bool) (timeout interval : nat) : Node unit :=
  b <~ f ;;
  if b then pass tt else eventuallyLoop ((timeout - 1) / interval) interval f.

(** [oc delete -f FILE]. *)
Definition ocDelete (env : Env) (file : string) : Client (option error) :=
  fun w =>
    let err := ocDeleteResp env (seq w) file in
    (err, logEvent (OcDelete file err) w).

(** Modelled from the spec: undeployNmstateHandler is in the package's utility
    file, not in these sources; it removes the policy-rendering handler. *)
Definition undeployNmstateHandler (env : Env) : Client (option error) :=
  fun w =>
    let err := undeployNmstateHandlerResp env (seq w) in
    (err, logEvent (UndeployNmstateHandler err) w).

(** Modelled from the spec: deleteNSCertMachineConfig is in the package's
    utility file, not in these sources; it deletes the machine config that
    carries the north-south certificates. *)
Definition deleteNSCertMachineConfig (env : Env) : Client (option error) :=
  fun w =>
    let err := deleteNSCertMachineConfigResp env (seq w) in
    (err, logEvent (DeleteNSCertMachineConfig err) w).

Definition emptyNode : testNodeConfig :=
  {| pingPod := {| podName := ""; podNamespace := ""; PodIP := "" |};
     tcpdumpPod := {| podName := ""; podNamespace := ""; PodIP := "" |};
     hostInf := ""; nodeName := ""; nodeIP := "" |}.

(** Set up the config object with existing IPsecConfig. *)
Definition BeforeAll (env : Env) : Node testConfig :=
  '(ipsecMode, err) <~ run (getIPsecMode env) ;;
  ExpectNoError err >>>
  pass {| ipsecMode := ipsecMode; srcNodeConfig := emptyNode;
          dstNodeConfig := emptyNode |}.

(** What the teardown polls after the removals: whether the worker pools
    have dropped the certificate machine config. *)
Definition workerPoolsSettled (env : Env) : Node bool :=
  '(ready, err) <~ run (areWorkerMachineConfigPoolsReady env
                          nsCertMachineConfigName false) ;;
  ExpectNoError err >>>
  pass ready.

(** Restore the cluster back into original state after running all the tests. *)
Definition AfterEach (env : Env) (config : testConfig) : Node unit :=
  (* restoring ipsec config into original state *)
  err <~ run (configureIPsecMode env (ipsecMode config)) ;;
  ExpectNoError err >>>
  waitForIPsecConfigToComplete env (ipsecMode config) >>>
  (* remove right node ipsec configuration *)
  err <~ run (ocDelete env rightNodeIPsecConfigYaml) ;;
  ExpectNoError err >>>
  (* remove left node ipsec configuration *)
  err <~ run (ocDelete env leftNodeIPsecConfigYaml) ;;
  ExpectNoError err >>>
  (* undeploy nmstate handler *)
  err <~ run (undeployNmstateHandler env) ;;
  ExpectNoError err >>>
  (* removing IPsec certs from worker nodes *)
  err <~ run (deleteNSCertMachineConfig env) ;;
  ExpectNoError err >>>
  Eventually (workerPoolsSettled env)
    ipsecRolloutWaitDuration ipsecRolloutWaitInterval.

(** The body of the table "check traffic between local pod to a remote pod",
    with entries Full, External and Disabled. *)
Definition checkTrafficEntry (env : Env) (config : testConfig) (mode : IPsecMode)
    : Node unit :=
  (* validate pod traffic before changing IPsec configuration *)
  checkTraffic env config (ipsecMode config) >>>
  (* configure IPsec in the mode and validate pod traffic *)
  err <~ run (configureIPsecMode env mode) ;;
  ExpectNoError err >>>
  waitForIPsecConfigToComplete env mode >>>
  checkTraffic env config mode.

(** ** Ginkgo: one spec of the container

    The body runs when the setup passed; the teardown runs in either case, and
    the first failure is the one reported. *)
Definition runSpec (setup body teardown : Node unit) : Node unit :=
  fun w =>
    let (v, w1) := (setup >>> body) w in
    let (vt, w2) := teardown w1 in
    match v with
    | Failed f => (Failed f, w2)
    | Passed _ => (vt, w2)
    end.

(* ================================================================== *)
(** * Vocabulary of the statements *)

(** The record a Get issued in [w] is answered with: the stored one, after
    the concurrent write pending at that point, if any. *)
Definition served (env : Env) (w : World) : Network := stored (commitRival env w).

(** No injected fault and no concurrent writer, at any call. *)
Definition quietStore (env : Env) : Prop :=
  forall n, networksGetErr env n = None /\ networksUpdateErr env n = None
            /\ rivalWrite env n = None.

Definition isUpdate (ev : Event) : bool :=
  match ev with
  | NetworksUpdate _ _ => true
  | _ => false
  end.

(** The number of underlying writes in a log. *)
Definition updates (l : list Event) : nat := length (filter isUpdate l).

(** The stored record literally holds mode [m]. *)
Definition holdsMode (n : Network) (m : IPsecMode) : bool :=
  match ipsecConfig n with
  | Some c => String.eqb (Mode c) m
  | None => false
  end.

(** ** Concrete clusters *)

Definition errForbidden : error := mkError Other "forbidden".
Definition errNotFound : error := mkError NotFound "daemonsets.apps ovn-ipsec-host not found".
Definition errConnReset : error := mkError ConnReset "read: connection reset by peer".
Definition errExit : error := mkError Other "exit status 124".

(** A cluster that answers every call of a kind the same way, with a store
    nobody else writes to. *)
Definition steady (ds : option DaemonSet * option error)
    (co mcp : bool * option error) (exec : Command -> option error)
    (order : Order) : Env :=
  {| networksGetErr := fun _ => None;
     networksUpdateErr := fun _ => None;
     rivalWrite := fun _ => None;
     daemonSetsGetResp := fun _ => ds;
     clusterOperatorsReadyResp := fun _ => co;
     machineConfigPoolsReadyWithIPsecResp := fun _ => mcp;
     workerMachineConfigPoolsReadyResp := fun _ => (true, None);
     execResp := fun _ => exec;
     completion := fun _ => order;
     setupTestPodsResp := fun _ => Passed None;
     cleanupTestPodsResp := fun _ => None;
     ocDeleteResp := fun _ _ => None;
     undeployNmstateHandlerResp := fun _ => None;
     deleteNSCertMachineConfigResp := fun _ => None;
     DeleteNamespaceOnFailure := false |}.

(** The daemonset is gone, the operators are healthy, the machine config
    pools have not rolled the IPsec extension out. *)
Definition calm : Env :=
  steady (Some {| DesiredNumberScheduled := 0%Z; NumberReady := 0%Z |}, Some errNotFound)
    (true, None) (false, None) (fun _ => None) SrcDstPing.

Definition world (n : Network) : World := {| stored := n; now := 0; log := [] |}.

Definition legacyRecord : Network :=
  {| resourceVersion := 7; ipsecConfig := Some {| Mode := "" |} |}.
Definition bareRecord : Network :=
  {| resourceVersion := 7; ipsecConfig := None |}.
Definition fullRecord : Network :=
  {| resourceVersion := 7; ipsecConfig := Some {| Mode := IPsecModeFull |} |}.

(** One read-compare-write sequence for mode [m], as it shows in the log,
    with what it returns. *)
Inductive Round (m : IPsecMode) : list Event -> option error -> Prop :=
| Round_read_failed (e : error) :
    Round m [NetworksGet (Some e)] (Some e)
| Round_noop :
    Round m [NetworksGet None] None
| Round_write (obj : Network) (r : option error) :
    ipsecConfig obj = Some {| Mode := m |} ->
    Round m [NetworksGet None; NetworksUpdate obj r] r.

(** A run of at most [budget] such sequences: every one but the last ended
    in a conflict, and the last one ends in a conflict only when the budget
    is spent.  The result is the one of the last sequence. *)
Inductive Rounds (m : IPsecMode) : nat -> list Event -> option error -> Prop :=
| Rounds_done (k : nat) (l : list Event) (r : option error) :
    Round m l r ->
    match r with Some e => IsConflict e = false | None => True end ->
    Rounds m (S k) l r
| Rounds_spent (l : list Event) (e : error) :
    Round m l (Some e) -> IsConflict e = true ->
    Rounds m 1 l (Some e)
| Rounds_again (k : nat) (l l' : list Event) (e : error) (r : option error) :
    Round m l (Some e) -> IsConflict e = true ->
    Rounds m (S k) l' r ->
    Rounds m (S (S k)) (l ++ l') r.

(** A computation that only appends to the log. *)
Definition extending {A : Type} (c : Client A) : Prop :=
  forall w, exists l, log (snd (c w)) = log w ++ l.

(** A computation that does not let time pass. *)
Definition instant {A : Type} (c : Client A) : Prop :=
  forall w, now (snd (c w)) = now w.

(** The three convergence waits, the function of each and the conditions it
    polls, in order. *)
Inductive ConvergenceWait : Type := EnabledWait | RolloutWait | DisabledWait.

Definition ensure (env : Env) (cw : ConvergenceWait) : Client (option error) :=
  match cw with
  | EnabledWait => ensureIPsecEnabled env
  | RolloutWait => ensureIPsecMachineConfigRolloutComplete env
  | DisabledWait => ensureIPsecDisabled env
  end.

Definition probesOf (env : Env) (cw : ConvergenceWait)
    : list (Client (bool * option error)) :=
  match cw with
  | EnabledWait => [machineConfigRolloutProbe env; daemonSetRunningProbe env]
  | RolloutWait => [machineConfigRolloutProbe env]
  | DisabledWait => [daemonSetAbsentProbe env]
  end.

Definition isMachineConfigCheck (ev : Event) : bool :=
  match ev with
  | MachineConfigPoolsReadyWithIPsec _ _ => true
  | _ => false
  end.

(** The daemonset is there with nothing ready yet, the pools have not rolled
    out, nothing fails: no wait ever converges. *)
Definition stuck : Env :=
  steady (Some {| DesiredNumberScheduled := 6%Z; NumberReady := 2%Z |}, None)
    (true, None) (false, None) (fun _ => None) SrcDstPing.

(** Everything has converged for Full mode, but the daemonset lookup fails
    with an error that is neither not-found nor a connection reset; the typed
    client hands back its zero-valued object with the error. *)
Definition lookupFails : Env :=
  steady (Some {| DesiredNumberScheduled := 0%Z; NumberReady := 0%Z |}, Some errForbidden)
    (true, None) (true, None) (fun _ => None) SrcDstPing.

(** A computation whose additions to the log all satisfy [P]. *)
Definition adding {A : Type} (P : Event -> bool) (c : Client A) : Prop :=
  forall w, exists l, log (snd (c w)) = log w ++ l /\ forallb P l = true.

Definition notMachineConfigCheck (ev : Event) : bool := negb (isMachineConfigCheck ev).

(** As [lookupFails], with a connection reset as the lookup's error. *)
Definition lookupResets : Env :=
  steady (Some {| DesiredNumberScheduled := 0%Z; NumberReady := 0%Z |}, Some errConnReset)
    (true, None) (true, None) (fun _ => None) SrcDstPing.

(** The pools have rolled out, the daemonset runs on every node, the
    operators are healthy. *)
Definition settled : Env :=
  steady (Some {| DesiredNumberScheduled := 3%Z; NumberReady := 3%Z |}, None)
    (true, None) (true, None) (fun _ => None) SrcDstPing.

(** The results with which task [t] shows as finished in a stretch of log. *)
Definition doneOf (t : Task) (l : list Event) : list (option error) :=
  flat_map (fun ev =>
              match ev with
              | Done t' err => if Task_eqb t t' then [err] else []
              | _ => []
              end) l.

(** The trials that returned in a stretch of log, with the signature asked
    for and the result. *)
Definition trials (l : list Event) : list (bool * option error) :=
  flat_map (fun ev =>
              match ev with
              | TrialResult ipsecTraffic err => [(ipsecTraffic, err)]
              | _ => []
              end) l.

Definition trialFailed : string :=
  "failed to detect underlay traffic on node, node tcpdump err: ".

(** What the text of a trial's error starts with when it blames the capture
    on the source node, the capture on the destination node, or neither
    capture. *)
Definition blamesSource : string :=
  trialFailed ++ "error capturing traffic on the source node: ".
Definition blamesDst : string :=
  trialFailed ++ "error capturing traffic on the dst node: ".
Definition blamesNoCapture : string :=
  trialFailed ++ "<nil>, ping err: ".

Definition node (name ip : string) : testNodeConfig :=
  {| pingPod := {| podName := "ping-" ++ name; podNamespace := "e2e-ipsec";
                   PodIP := "10.128.0." ++ ip |};
     tcpdumpPod := {| podName := "tcpdump-" ++ name; podNamespace := "e2e-ipsec";
                      PodIP := "192.168.0." ++ ip |};
     hostInf := "ens3"; nodeName := name; nodeIP := "192.168.0." ++ ip |}.

Definition pair (mode : IPsecMode) : testConfig :=
  {| ipsecMode := mode; srcNodeConfig := node "a" "1"; dstNodeConfig := node "b" "2" |}.

(** Whether a capture command filters on ESP. *)
Definition wantsESP (c : Command) : bool :=
  String.prefix "esp" (last (argv c) "").

Definition isTcpdump (c : Command) : bool :=
  match argv c with
  | "timeout" :: _ => true
  | _ => false
  end.

(** A wire that carries plain Geneve only: captures for ESP time out. *)
Definition geneveWire (c : Command) : option error :=
  if isTcpdump c && wantsESP c then Some errExit else None.

(** A wire that carries ESP only: captures for Geneve time out. *)
Definition espWire (c : Command) : option error :=
  if isTcpdump c && negb (wantsESP c) then Some errExit else None.

(** A wire on which every capture finds its packet. *)
Definition anyWire (c : Command) : option error := None.

Definition onWire (exec : Command -> option error) (order : Order) : Env :=
  steady (Some {| DesiredNumberScheduled := 3%Z; NumberReady := 3%Z |}, None)
    (true, None) (true, None) exec order.

(** A computation that leaves the stored network record alone. *)
Definition keepsStore {X : Type} (c : World -> X * World) : Prop :=
  forall w, stored (snd (c w)) = stored w.

(** A node that only appends to the log. *)
Definition extendingNode {A : Type} (n : Node A) : Prop :=
  forall w, exists l, log (snd (n w)) = log w ++ l.

(** The four removals of the teardown, all answered without error. *)
Definition removals : list Event :=
  [OcDelete rightNodeIPsecConfigYaml None;
   OcDelete leftNodeIPsecConfigYaml None;
   UndeployNmstateHandler None;
   DeleteNSCertMachineConfig None].

(** The error a helper check returned to the condition that called it. *)
Definition checkError (ev : Event) : option error :=
  match ev with
  | MachineConfigPoolsReadyWithIPsec _ err => err
  | ClusterOperatorsReady _ err => err
  | _ => None
  end.

(* ================================================================== *)
(** * Vocabulary of the further properties *)

Definition isRead (ev : Event) : bool :=
  match ev with
  | NetworksGet _ => true
  | _ => false
  end.

(** How many events of a stretch of log satisfy [P]. *)
Definition count (P : Event -> bool) (l : list Event) : nat := length (filter P l).

(** A store on which another writer lands a change before every call of the
    engine. *)
Definition contended : Env :=
  {| networksGetErr := fun _ => None;
     networksUpdateErr := fun _ => None;
     rivalWrite := fun _ => Some (Some {| Mode := IPsecModeDisabled |});
     daemonSetsGetResp := fun _ => (None, None);
     clusterOperatorsReadyResp := fun _ => (true, None);
     machineConfigPoolsReadyWithIPsecResp := fun _ => (true, None);
     workerMachineConfigPoolsReadyResp := fun _ => (true, None);
     execResp := fun _ _ => None;
     completion := fun _ => SrcDstPing;
     setupTestPodsResp := fun _ => Passed None;
     cleanupTestPodsResp := fun _ => None;
     ocDeleteResp := fun _ _ => None;
     undeployNmstateHandlerResp := fun _ => None;
     deleteNSCertMachineConfigResp := fun _ => None;
     DeleteNamespaceOnFailure := false |}.

Definition isDaemonSetLookup (ev : Event) : bool :=
  match ev with
  | DaemonSetsGet _ _ => true
  | _ => false
  end.

Definition isOperatorCheck (ev : Event) : bool :=
  match ev with
  | ClusterOperatorsReady _ _ => true
  | _ => false
  end.

(** The answer of a structural check after which a wait goes on to the
    operators: pools rolled out, a daemonset handed back with as many pods
    ready as desired, or a daemonset found absent. *)
Definition readyFor (cw : ConvergenceWait) (ev : Event) : bool :=
  match cw, ev with
  | EnabledWait, MachineConfigPoolsReadyWithIPsec true _ => true
  | RolloutWait, MachineConfigPoolsReadyWithIPsec true _ => true
  | EnabledWait, DaemonSetsGet (Some ds) err =>
      Z.eqb (DesiredNumberScheduled ds) (NumberReady ds)
      && match err with Some e => negb (IsNotFound e) | None => true end
  | DisabledWait, DaemonSetsGet ds err =>
      match err with
      | Some e => IsNotFound e
      | None => match ds with None => true | Some _ => false end
      end
  | _, _ => false
  end.

(** Every operator check of [l] comes right after an event that satisfies
    [ok]; [prev] is the event before [l]. *)
Fixpoint guarded (ok : Event -> bool) (prev : option Event) (l : list Event) : bool :=
  match l with
  | [] => true
  | ev :: l' =>
      (if isOperatorCheck ev
       then match prev with Some p => ok p | None => false end
       else true)
      && guarded ok (Some ev) l'
  end.

Definition isCleanup (ev : Event) : bool :=
  match ev with
  | CleanupTestPods _ => true
  | _ => false
  end.

(** The results of the trials in a stretch of log, in order. *)
Definition trialErrors (l : list Event) : list (option error) := map snd (trials l).

(** The events a convergence wait can log: sleeps and the three structural
    checks. *)
Definition isWaitEvent (ev : Event) : bool :=
  match ev with
  | Sleep _ | DaemonSetsGet _ _ | ClusterOperatorsReady _ _
  | MachineConfigPoolsReadyWithIPsec _ _ => true
  | _ => false
  end.

(** The events of reading and writing the network record. *)
Definition isStoreEvent (ev : Event) : bool :=
  match ev with
  | NetworksGet _ | NetworksUpdate _ _ => true
  | _ => false
  end.

(** The four removals of the teardown, in the order the teardown makes them,
    with the answer each got. *)
Definition removal (i : nat) (err : option error) : Event :=
  match i with
  | 0 => OcDelete rightNodeIPsecConfigYaml err
  | 1 => OcDelete leftNodeIPsecConfigYaml err
  | 2 => UndeployNmstateHandler err
  | _ => DeleteNSCertMachineConfig err
  end.

Definition isRemoval (ev : Event) : bool :=
  match ev with
  | OcDelete _ _ | UndeployNmstateHandler _ | DeleteNSCertMachineConfig _ => true
  | _ => false
  end.

Definition isWorkerPoolCheck (ev : Event) : bool :=
  match ev with
  | WorkerMachineConfigPoolsReady _ _ _ _ => true
  | _ => false
  end.

(** The events the final poll of the teardown can log. *)
Definition isSettleEvent (ev : Event) : bool :=
  match ev with
  | Sleep _ | WorkerMachineConfigPoolsReady _ _ _ _ => true
  | _ => false
  end.

(* ================================================================== *)
(** * RolloutCoordinator: choosing the two nodes *)

(** corev1.NodeAddress and the part of corev1.Node that BeforeEach reads:
    [Name] and [Status.Addresses]. *)
Record NodeAddress : Type := {
  Type_ : string;
  Address : string
}.

Record K8sNode : Type := {
  Name : string;
  Addresses : list NodeAddress
}.

Definition NodeInternalIP : string := "InternalIP".

(** Modelled from the spec: findAppropriateNodes and
    findBridgePhysicalInterface are in the package's utility file, not in
    these sources; the first hands back two different schedulable nodes or an
    error, the second the physical interface under a bridge of a node,
    together with an error. *)
Record Lookups : Type := {
  findAppropriateNodes : K8sNode * K8sNode + error;
  findBridgePhysicalInterface : string -> string -> string * option error
}.

(** The assertion at which BeforeEach stopped. *)
Inductive SetupFailure : Type :=
| ConfigIsNil                       (** Expect(config).NotTo(BeNil()) *)
| LookupFailed (e : error)          (** Expect(err).NotTo(HaveOccurred()) *)
| NodeIPIsEmpty.                    (** Expect(nodeIP).NotTo(BeEmpty()) *)

(** [for _, address := range addresses { if address.Type == NodeInternalIP
    { nodeIP = address.Address; break } }], as the value [nodeIP] holds after
    the loop. *)
Fixpoint rangeAddresses (addresses : list NodeAddress) (nodeIP : string) : string :=
  match addresses with
  | [] => nodeIP
  | address :: rest =>
      if String.eqb (Type_ address) NodeInternalIP then Address address
      else rangeAddresses rest nodeIP
  end.

Definition withNodeName (c : testNodeConfig) (name : string) : testNodeConfig :=
  {| pingPod := pingPod c; tcpdumpPod := tcpdumpPod c; hostInf := hostInf c;
     nodeName := name; nodeIP := nodeIP c |}.

Definition withHostInf (c : testNodeConfig) (inf : string) : testNodeConfig :=
  {| pingPod := pingPod c; tcpdumpPod := tcpdumpPod c; hostInf := inf;
     nodeName := nodeName c; nodeIP := nodeIP c |}.

Definition withNodeIP (c : testNodeConfig) (ip : string) : testNodeConfig :=
  {| pingPod := pingPod c; tcpdumpPod := tcpdumpPod c; hostInf := hostInf c;
     nodeName := nodeName c; nodeIP := ip |}.

Definition withSrc (config : testConfig) (c : testNodeConfig) : testConfig :=
  {| ipsecMode := ipsecMode config; srcNodeConfig := c;
     dstNodeConfig := dstNodeConfig config |}.

Definition withDst (config : testConfig) (c : testNodeConfig) : testConfig :=
  {| ipsecMode := ipsecMode config; srcNodeConfig := srcNodeConfig config;
     dstNodeConfig := c |}.

(** BeforeEach works on the config object BeforeAll made, which is nil when
    BeforeAll has not run; what it has assigned when an assertion stops it
    stays assigned.  The result is the failed assertion, if any, and the
    config object as it is left. *)
Definition BeforeEach (lk : Lookups) (config : option testConfig)
    : option SetupFailure * option testConfig :=
  match config with
  | None => (Some ConfigIsNil, None)
  | Some config =>
  (* Choosing 2 different nodes *)
  match findAppropriateNodes lk with
  | inr err => (Some (LookupFailed err), Some config)
  | inl (node1, node2) =>
  let config := withSrc config (withNodeName (srcNodeConfig config) (Name node1)) in
  let (inf, err) := findBridgePhysicalInterface lk (Name node1) "br-ex" in
  let config := withSrc config (withHostInf (srcNodeConfig config) inf) in
  match err with
  | Some e => (Some (LookupFailed e), Some config)
  | None =>
  let config :=
    withSrc config
      (withNodeIP (srcNodeConfig config)
         (rangeAddresses (Addresses node1) (nodeIP (srcNodeConfig config)))) in
  if String.eqb (nodeIP (srcNodeConfig config)) "" then
    (Some NodeIPIsEmpty, Some config)
  else
  let config := withDst config (withNodeName (dstNodeConfig config) (Name node2)) in
  let (inf, err) := findBridgePhysicalInterface lk (Name node2) "br-ex" in
  let config := withDst config (withHostInf (dstNodeConfig config) inf) in
  match err with
  | Some e => (Some (LookupFailed e), Some config)
  | None =>
  let config :=
    withDst config
      (withNodeIP (dstNodeConfig config)
         (rangeAddresses (Addresses node2) (nodeIP (dstNodeConfig config)))) in
  if String.eqb (nodeIP (dstNodeConfig config)) "" then
    (Some NodeIPIsEmpty, Some config)
  else (None, Some config)
  end end end end.

(** The internal addresses of a node, in the order the node lists them. *)
Definition internalIPs (n : K8sNode) : list string :=
  map Address (filter (fun a => String.eqb (Type_ a) NodeInternalIP) (Addresses n)).

(** A cluster of two nodes with interface [ens3] under every bridge. *)
Definition twoNodes (n1 n2 : K8sNode) : Lookups :=
  {| findAppropriateNodes := inl (n1, n2);
     findBridgePhysicalInterface := fun _ _ => ("ens3", None) |}.

Definition worker (name : string) (addrs : list NodeAddress) : K8sNode :=
  {| Name := name; Addresses := addrs |}.

(* ================================================================== *)
(** * The command line: openshift-tests *)

(** Where output can go: the two streams of the process and the handle
    mirrorToFile opens on OutFile. *)
Inductive Sink : Type := Stdout | Stderr | OutFileHandle.

(** An io.Writer, as the sinks it writes to in order; io.MultiWriter
    flattens the multi-writers it is given. *)
Definition Writer : Type := list Sink.

Definition MultiWriter (w1 w2 : Writer) : Writer := w1 ++ w2.

Record Console : Type := {
  stdout : string;
  stderr : string;
  outFile : option string;   (** the content of the file OutFile names, if it exists *)
  handleOpen : bool          (** whether the handle on that file is open *)
}.

(** One Write on a sink; the streams of the process take everything, the
    file handle appends while it is open and returns an error once closed. *)
Definition Sink_Write (s : Sink) (text : string) (c : Console) : bool * Console :=
  match s with
  | Stdout =>
      (true, {| stdout := (stdout c ++ text)%string; stderr := stderr c;
                outFile := outFile c; handleOpen := handleOpen c |})
  | Stderr =>
      (true, {| stdout := stdout c; stderr := (stderr c ++ text)%string;
                outFile := outFile c; handleOpen := handleOpen c |})
  | OutFileHandle =>
      if handleOpen c then
        (true, {| stdout := stdout c; stderr := stderr c;
                  outFile := Some (match outFile c with
                                   | Some old => (old ++ text)%string
                                   | None => text
                                   end);
                  handleOpen := true |})
      else (false, c)
  end.

(** A write on a multi-writer: each listed writer in turn; when one returns an
    error the write stops there and does not continue down the list. *)
Fixpoint MultiWriter_Write (w : Writer) (text : string) (c : Console) : Console :=
  match w with
  | [] => c
  | s :: rest =>
      let (ok, c') := Sink_Write s text c in
      if ok then MultiWriter_Write rest text c' else c'
  end.

(** The fields of testginkgo.Options that mirrorToFile works on. *)
Record Options : Type := {
  OutFile : string;
  Out : option Writer;
  ErrOut : option Writer
}.

Definition withOut (opt : Options) (w : Writer) : Options :=
  {| OutFile := OutFile opt; Out := Some w; ErrOut := ErrOut opt |}.

Definition withErrOut (opt : Options) (w : Writer) : Options :=
  {| OutFile := OutFile opt; Out := Out opt; ErrOut := Some w |}.

Definition withOutFile (opt : Options) (name : string) : Options :=
  {| OutFile := name; Out := Out opt; ErrOut := ErrOut opt |}.

(** What the operating system answers to os.OpenFile on OutFile and to Close
    on the handle. *)
Record OS : Type := {
  OpenFile_err : option error;
  Close_err : option error
}.

(** [os.OpenFile(name, os.O_CREATE|os.O_APPEND|os.O_WRONLY, 0640)], when it
    succeeds: the file is created empty when it does not exist, and what is
    there is kept. *)
Definition OpenFile (c : Console) : Console :=
  {| stdout := stdout c; stderr := stderr c;
     outFile := Some (match outFile c with Some old => old | None => "" end);
     handleOpen := true |}.

(** [f.Close()]: the handle is unusable for I/O afterwards, whatever Close
    returns. *)
Definition Close (c : Console) : Console :=
  {| stdout := stdout c; stderr := stderr c; outFile := outFile c;
     handleOpen := false |}.

Definition newline : string := String (Ascii.ascii_of_nat 10) EmptyString.

Definition writerOr (w : option Writer) (default : Writer) : Writer :=
  match w with
  | Some w => w
  | None => default
  end.

(** mirrorToFile ensures a copy of all output goes to the provided OutFile,
    including any error returned from fn.  The function returns fn() or any
    error encountered while attempting to open the file.  [opt] is shared
    with [fn] and with the caller, so it is handed to [fn] and returned as
    mirrorToFile leaves it. *)
Definition mirrorToFile (os : OS) (opt : Options)
    (fn : Options -> Console -> option error * Console) (c : Console)
    : (option error * Options) * Console :=
  let opt := match Out opt with None => withOut opt [Stdout] | Some _ => opt end in
  let opt := match ErrOut opt with None => withErrOut opt [Stderr] | Some _ => opt end in
  if Nat.eqb (String.length (OutFile opt)) 0 then
    let (err, c) := fn opt c in ((err, opt), c)
  else
    match OpenFile_err os with
    | Some err => ((Some err, opt), c)
    | None =>
        let c := OpenFile c in
        let opt := withOut opt (MultiWriter (writerOr (Out opt) []) [OutFileHandle]) in
        let opt := withErrOut opt (MultiWriter (writerOr (ErrOut opt) []) [OutFileHandle]) in
        let (exitErr, c) := fn opt c in
        let c := match exitErr with
                 | Some e => MultiWriter_Write [OutFileHandle] ("error: " ++ Error e)%string c
                 | None => c
                 end in
        let c' := Close c in
        let c := match Close_err os with
                 | Some _ =>
                     MultiWriter_Write (writerOr (ErrOut opt) [])
                       ("error: Unable to close output file" ++ newline)%string c'
                 | None => c'
                 end in
        ((exitErr, opt), c)
    end.

(** ** What a function handed to mirrorToFile can print *)

(** One piece of output: through opt.Out, through opt.ErrOut, or on the
    streams of the process directly. *)
Inductive Piece : Type :=
| ToOut (text : string)
| ToErrOut (text : string)
| ToStdout (text : string)
| ToStderr (text : string).

Definition put (opt : Options) (p : Piece) (c : Console) : Console :=
  match p with
  | ToOut text => MultiWriter_Write (writerOr (Out opt) []) text c
  | ToErrOut text => MultiWriter_Write (writerOr (ErrOut opt) []) text c
  | ToStdout text => MultiWriter_Write [Stdout] text c
  | ToStderr text => MultiWriter_Write [Stderr] text c
  end.

(** A function that prints [script] and returns [err]. *)
Definition scripted (script : list Piece) (err : option error)
    : Options -> Console -> option error * Console :=
  fun opt c => (err, fold_left (fun c p => put opt p c) script c).

(** What of a script goes through opt.Out and opt.ErrOut, in order. *)
Fixpoint throughOptions (script : list Piece) : string :=
  match script with
  | [] => ""
  | ToOut text :: rest | ToErrOut text :: rest => (text ++ throughOptions rest)%string
  | _ :: rest => throughOptions rest
  end.

(** A writer that does not write to the output file. *)
Definition noHandle (w : option Writer) : Prop :=
  match w with
  | Some w => ~ In OutFileHandle w
  | None => True
  end.

Definition fileContent (c : Console) : string :=
  match outFile c with
  | Some s => s
  | None => ""
  end.

Definition errorLine (err : option error) : string :=
  match err with
  | Some e => ("error: " ++ Error e)%string
  | None => ""
  end.

Definition terminal : Console :=
  {| stdout := ""; stderr := ""; outFile := Some ("earlier run" ++ newline)%string;
     handleOpen := false |}.

(** ** The images command *)

Record imagesOptions : Type := {
  Repository : string;
  Upstream : bool;
  Verify : bool
}.

(** reference.DockerImageReference of library-go; the command reads [Tag] and
    [ID] and hands the reference on. *)
Record DockerImageReference : Type := {
  Registry : string;
  Namespace : string;
  ImageName : string;
  Tag : string;
  ID : string
}.

(** Modelled from the spec: verifyImages and
    createImageMirrorForInternalImages are in other files of the command, not
    in these sources; the first checks the image mappings, the second renders
    the mirror list for a repository.  reference.Parse is library-go's parser
    of image references. *)
Record ImageTools : Type := {
  verifyImages : option error;
  reference_Parse : string -> DockerImageReference + error;
  createImageMirrorForInternalImages :
    string -> DockerImageReference -> bool -> list string + error
}.

Definition HasPrefix (s prefix : string) : bool := String.prefix prefix s.

Definition TrimPrefix (s prefix : string) : string :=
  if HasPrefix s prefix
  then String.substring (String.length prefix)
         (String.length s - String.length prefix) s
  else s.

(** [for _, validPrefix := range validPrefixes { if strings.HasPrefix(...)
    {...; break} }], as the values [repository] and [prefix] hold after the
    loop. *)
Fixpoint rangeValidPrefixes (validPrefixes : list string) (repository prefix : string)
    : string * string :=
  match validPrefixes with
  | [] => (repository, prefix)
  | validPrefix :: rest =>
      if HasPrefix repository validPrefix
      then (TrimPrefix repository validPrefix, validPrefix)
      else rangeValidPrefixes rest repository prefix
  end.

(** [for _, line := range lines { fmt.Fprintln(os.Stdout, line) }] *)
Definition printLines (lines : list string) (c : Console) : Console :=
  fold_left (fun c line => MultiWriter_Write [Stdout] (line ++ newline)%string c)
    lines c.

(** RunE of the images command. *)
Definition imagesRunE (tools : ImageTools) (opt : imagesOptions) (c : Console)
    : option error * Console :=
  if Verify opt then (verifyImages tools, c)
  else
    let '(repository, prefix) :=
      rangeValidPrefixes ["file://"; "s3://"] (Repository opt) "" in
    match reference_Parse tools repository with
    | inr err =>
        (Some (Errorf ("--to-repository is not valid: " ++ Error err)%string), c)
    | inl ref =>
        if Nat.ltb 0 (String.length (Tag ref)) || Nat.ltb 0 (String.length (ID ref))
        then (Some (Errorf "--to-repository may not include a tag or image digest"), c)
        else
          match verifyImages tools with
          | Some err => (Some err, c)
          | None =>
              match createImageMirrorForInternalImages tools prefix ref
                      (negb (Upstream opt)) with
              | inr err => (Some err, c)
              | inl lines => (None, printLines lines c)
              end
          end
    end.

(** The lines as they appear on a stream, each ended by a newline. *)
Fixpoint printed (lines : list string) : string :=
  match lines with
  | [] => ""
  | line :: rest => (line ++ newline ++ printed rest)%string
  end.

(** A parser that takes the whole text for the name of the image, and what
    follows an [@] sign for a digest. *)
Definition nameOnly (s : string) : DockerImageReference + error :=
  match String.index 0 "@" s with
  | Some n => inl {| Registry := ""; Namespace := "";
                     ImageName := String.substring 0 n s; Tag := "";
                     ID := String.substring (S n) (String.length s - S n) s |}
  | None => inl {| Registry := ""; Namespace := ""; ImageName := s;
                   Tag := ""; ID := "" |}
  end.

Definition mirrorTools : ImageTools :=
  {| verifyImages := None;
     reference_Parse := nameOnly;
     createImageMirrorForInternalImages :=
       fun prefix ref _ =>
         inl [("quay.io/openshift/community-e2e-images:a " ++ prefix
               ++ ImageName ref ++ ":a")%string] |}.

(* ================================================================== *)
(** * Properties *)

(** ** The monad and the log *)

Lemma seq_logEvent (ev : Event) (w : World) : seq (logEvent ev w) = S (seq w).
Proof. unfold seq, logEvent; simpl. rewrite length_app; simpl; lia. Qed.

Lemma seq_commitRival (env : Env) (w : World) : seq (commitRival env w) = seq w.
Proof. unfold commitRival; destruct (rivalWrite env (seq w)); reflexivity. Qed.

Lemma log_commitRival (env : Env) (w : World) : log (commitRival env w) = log w.
Proof. unfold commitRival; destruct (rivalWrite env (seq w)); reflexivity. Qed.

Lemma commitRival_quiet (env : Env) (w : World) :
  rivalWrite env (seq w) = None -> commitRival env w = w.
Proof. unfold commitRival; intros ->; reflexivity. Qed.

(** ** ModeStore *)

Lemma Networks_Get_ok (env : Env) (w : World) :
  networksGetErr env (seq w) = None ->
  Networks_Get env w
  = ((served env w, None), logEvent (NetworksGet None) (commitRival env w)).
Proof.
  intros H. unfold Networks_Get, served.
  rewrite seq_commitRival, H. reflexivity.
Qed.

Lemma Networks_Get_err (env : Env) (w : World) (e : error) :
  networksGetErr env (seq w) = Some e ->
  Networks_Get env w
  = ((zeroNetwork, Some e), logEvent (NetworksGet (Some e)) (commitRival env w)).
Proof.
  intros H. unfold Networks_Get.
  rewrite seq_commitRival, H. reflexivity.
Qed.

(** What getIPsecMode makes of the record it is served. *)
Lemma getIPsecMode_ok (env : Env) (w : World) :
  networksGetErr env (seq w) = None ->
  fst (getIPsecMode env w)
  = (match ipsecConfig (served env w) with
     | Some c => if String.eqb (Mode c) "" then IPsecModeFull else Mode c
     | None => IPsecModeDisabled
     end, None).
Proof.
  intros Hget. unfold getIPsecMode, bind.
  rewrite (Networks_Get_ok _ _ Hget). simpl.
  destruct (ipsecConfig (served env w)) as [c|]; [|reflexivity].
  destruct (String.eqb (Mode c) ""); reflexivity.
Qed.

(** C6, as the code has it: a missing IPsecConfig reads as Disabled, an
    IPsecConfig with an empty mode as the legacy default Full, and any
    non-empty stored mode is returned unchanged; a failed read gives Disabled
    together with the error. *)
Theorem getIPsecMode_reads (env : Env) (w : World) :
  (networksGetErr env (seq w) = None ->
     (ipsecConfig (served env w) = None ->
        fst (getIPsecMode env w) = (IPsecModeDisabled, None))
     /\ (forall c, ipsecConfig (served env w) = Some c -> Mode c = "" ->
           fst (getIPsecMode env w) = (IPsecModeFull, None))
     /\ (forall c, ipsecConfig (served env w) = Some c -> Mode c <> "" ->
           fst (getIPsecMode env w) = (Mode c, None)))
  /\ (forall e, networksGetErr env (seq w) = Some e ->
        fst (getIPsecMode env w) = (IPsecModeDisabled, Some e)).
Proof.
  split.
  - intros Hget. rewrite (getIPsecMode_ok _ _ Hget). repeat split.
    + intros ->. reflexivity.
    + intros c -> Hc. rewrite Hc. reflexivity.
    + intros c -> Hc. apply String.eqb_neq in Hc. rewrite Hc. reflexivity.
  - intros e Hget. unfold getIPsecMode, bind.
    rewrite (Networks_Get_err _ _ _ Hget). reflexivity.
Qed.

Lemma getIPsecMode_reads_witness :
  fst (getIPsecMode calm (world bareRecord)) = (IPsecModeDisabled, None)
  /\ fst (getIPsecMode calm (world legacyRecord)) = (IPsecModeFull, None)
  /\ fst (getIPsecMode calm (world fullRecord)) = (IPsecModeFull, None).
Proof.
  split; [| split].
  - apply (proj1 (getIPsecMode_reads calm (world bareRecord))); reflexivity.
  - apply (proj1 (proj2 (proj1 (getIPsecMode_reads calm (world legacyRecord)) eq_refl))
             {| Mode := "" |}); reflexivity.
  - apply (proj2 (proj2 (proj1 (getIPsecMode_reads calm (world fullRecord)) eq_refl))
             {| Mode := IPsecModeFull |}); [reflexivity | discriminate].
Defined.

(** C6 as stated fails: with the IPsecConfig missing entirely, getIPsecMode
    answers Disabled, not the legacy default Full. *)
Lemma getIPsecMode_missing_config_is_not_Full :
  fst (getIPsecMode calm (world bareRecord)) = (IPsecModeDisabled, None)
  /\ fst (fst (getIPsecMode calm (world bareRecord))) <> IPsecModeFull.
Proof. split; [reflexivity | discriminate]. Qed.

Lemma Networks_Update_logs (env : Env) (obj : Network) (w : World) :
  log (snd (Networks_Update env obj w))
  = log w ++ [NetworksUpdate obj (fst (Networks_Update env obj w))].
Proof.
  unfold Networks_Update.
  destruct (networksUpdateErr env (seq (commitRival env w))); simpl.
  - now rewrite log_commitRival.
  - destruct (Nat.eqb _ _); simpl; now rewrite log_commitRival.
Qed.

Lemma Networks_Update_quiet (env : Env) (obj : Network) (w : World) :
  rivalWrite env (seq w) = None ->
  networksUpdateErr env (seq w) = None ->
  resourceVersion obj = resourceVersion (stored w) ->
  Networks_Update env obj w
  = (None, {| stored := {| resourceVersion := S (resourceVersion obj);
                           ipsecConfig := ipsecConfig obj |};
              now := now w;
              log := log w ++ [NetworksUpdate obj None] |}).
Proof.
  intros Hr Hu Hv. unfold Networks_Update.
  rewrite (commitRival_quiet _ _ Hr), Hu, Hv, Nat.eqb_refl. reflexivity.
Qed.

(** What one attempt does once its read succeeded. *)
Lemma configureIPsecModeAttempt_ok (env : Env) (m : IPsecMode) (w : World) :
  networksGetErr env (seq w) = None ->
  configureIPsecModeAttempt env m w
  = if holdsMode (served env w) m
    then (None, logEvent (NetworksGet None) (commitRival env w))
    else Networks_Update env (withIPsecConfig (served env w) {| Mode := m |})
           (logEvent (NetworksGet None) (commitRival env w)).
Proof.
  intros Hget. unfold configureIPsecModeAttempt, bind.
  rewrite (Networks_Get_ok _ _ Hget). unfold holdsMode.
  destruct (ipsecConfig (served env w)) as [c|]; [|reflexivity].
  destruct (String.eqb (Mode c) m); reflexivity.
Qed.

Lemma configureIPsecModeAttempt_round (env : Env) (m : IPsecMode) (w : World) :
  exists l,
    log (snd (configureIPsecModeAttempt env m w)) = log w ++ l
    /\ Round m l (fst (configureIPsecModeAttempt env m w)).
Proof.
  destruct (networksGetErr env (seq w)) as [e|] eqn:Hget.
  - unfold configureIPsecModeAttempt, bind.
    rewrite (Networks_Get_err _ _ _ Hget). simpl.
    exists [NetworksGet (Some e)]. rewrite log_commitRival. split; [reflexivity|constructor].
  - rewrite (configureIPsecModeAttempt_ok _ _ _ Hget).
    destruct (holdsMode (served env w) m).
    + exists [NetworksGet None]. simpl. rewrite log_commitRival.
      split; [reflexivity|constructor].
    + rewrite Networks_Update_logs. simpl. rewrite log_commitRival.
      eexists. rewrite <- app_assoc. simpl. split; [reflexivity|].
      constructor. reflexivity.
Qed.

Lemma retryLoop_S (k : nat) (last : option error) (fn : Client (option error))
    (w : World) :
  retryLoop (S k) last fn w
  = match fn w with
    | (None, w') => (None, w')
    | (Some e, w') =>
        if IsConflict e then retryLoop k (Some e) fn w' else (Some e, w')
    end.
Proof.
  simpl. unfold bind. destruct (fn w) as [[e|] w']; [|reflexivity].
  destruct (IsConflict e); reflexivity.
Qed.

Lemma retryLoop_rounds (env : Env) (m : IPsecMode) (k : nat) :
  forall (last : option error) (w : World),
  exists l,
    log (snd (retryLoop (S k) last (configureIPsecModeAttempt env m) w)) = log w ++ l
    /\ Rounds m (S k) l
         (fst (retryLoop (S k) last (configureIPsecModeAttempt env m) w)).
Proof.
  induction k as [|k IH]; intros last w;
    destruct (configureIPsecModeAttempt_round env m w) as (l & Hl & Hr);
    rewrite retryLoop_S;
    destruct (configureIPsecModeAttempt env m w) as [[e|] w1] eqn:Ha;
    simpl in Hl, Hr.
  - destruct (IsConflict e) eqn:Hc; simpl; exists l; split; trivial.
    + now apply Rounds_spent.
    + now apply Rounds_done.
  - exists l; split; trivial. now apply Rounds_done.
  - destruct (IsConflict e) eqn:Hc.
    + destruct (IH (Some e) w1) as (l' & Hl' & Hr').
      exists (l ++ l'). rewrite Hl', Hl, app_assoc. split; trivial.
      eapply Rounds_again; eauto.
    + simpl. exists l; split; trivial. now apply Rounds_done.
  - exists l; split; trivial. now apply Rounds_done.
Qed.

Lemma configureIPsecMode_rounds (env : Env) (m : IPsecMode) (w : World) :
  exists l,
    log (snd (configureIPsecMode env m w)) = log w ++ l
    /\ Rounds m (Steps DefaultRetry) l (fst (configureIPsecMode env m w)).
Proof. exact (retryLoop_rounds env m 4 None w). Qed.

Lemma updates_app (l l' : list Event) : updates (l ++ l') = updates l + updates l'.
Proof. unfold updates. now rewrite filter_app, length_app. Qed.

(** On a store nobody else touches, one call either finds the mode in place
    and only reads, or writes it once. *)
Lemma configureIPsecMode_quiet (env : Env) (m : IPsecMode) (w : World) :
  quietStore env ->
  configureIPsecMode env m w
  = if holdsMode (stored w) m
    then (None, logEvent (NetworksGet None) w)
    else (None,
          {| stored := {| resourceVersion := S (resourceVersion (stored w));
                          ipsecConfig := Some {| Mode := m |} |};
             now := now w;
             log := (log w ++ [NetworksGet None])
                    ++ [NetworksUpdate (withIPsecConfig (stored w) {| Mode := m |}) None] |}).
Proof.
  intros Hq.
  destruct (Hq (seq w)) as (Hg & _ & Hr).
  destruct (Hq (S (seq w))) as (_ & Hu' & Hr').
  unfold configureIPsecMode, RetryOnConflict. cbn [Steps DefaultRetry retryLoop].
  unfold bind at 1.
  rewrite (configureIPsecModeAttempt_ok _ _ _ Hg).
  unfold served. rewrite (commitRival_quiet _ _ Hr).
  destruct (holdsMode (stored w) m); [reflexivity|].
  rewrite Networks_Update_quiet; try (rewrite seq_logEvent; assumption); reflexivity.
Qed.

Lemma holdsMode_written (rv : nat) (m : IPsecMode) :
  holdsMode {| resourceVersion := rv; ipsecConfig := Some {| Mode := m |} |} m = true.
Proof. unfold holdsMode; simpl. apply String.eqb_refl. Qed.

(** C5, as the code has it: a call that finds the desired mode stored only
    reads, so on a store nobody else touches two calls in a row with the same
    mode make at most one underlying write, exactly one when the stored mode
    differed before the first call and none when it was already in place; and
    whatever the store does, a call is a run of at most five
    read-compare-write sequences, each after a conflict of the one before. *)
Theorem configureIPsecMode_twice (env : Env) (m : IPsecMode) (w : World) :
  (quietStore env ->
     let r1 := configureIPsecMode env m w in
     let r2 := configureIPsecMode env m (snd r1) in
     fst r1 = None /\ fst r2 = None
     /\ updates (log (snd r1))
        = updates (log w) + (if holdsMode (stored w) m then 0 else 1)
     /\ updates (log (snd r2)) = updates (log (snd r1))
     /\ stored (snd r2) = stored (snd r1)
     /\ holdsMode (stored (snd r2)) m = true)
  /\ (exists l,
        log (snd (configureIPsecMode env m w)) = log w ++ l
        /\ Rounds m (Steps DefaultRetry) l (fst (configureIPsecMode env m w))).
Proof.
  split.
  - intros Hq. cbv zeta.
    assert (H1 : fst (configureIPsecMode env m w) = None
                 /\ updates (log (snd (configureIPsecMode env m w)))
                    = updates (log w) + (if holdsMode (stored w) m then 0 else 1)
                 /\ holdsMode (stored (snd (configureIPsecMode env m w))) m = true).
    { rewrite (configureIPsecMode_quiet _ _ _ Hq).
      destruct (holdsMode (stored w) m) eqn:Hh; simpl.
      - rewrite updates_app. unfold updates; simpl. repeat split; trivial.
      - rewrite !updates_app. unfold updates; simpl. repeat split; trivial; try lia.
        apply holdsMode_written. }
    destruct H1 as (Hr1 & Hu1 & Hh1).
    rewrite (configureIPsecMode_quiet env m (snd (configureIPsecMode env m w)) Hq).
    rewrite Hh1. simpl. rewrite updates_app.
    change (updates [NetworksGet None]) with 0.
    repeat split; trivial. lia.
  - apply configureIPsecMode_rounds.
Qed.

Lemma configureIPsecMode_twice_witness :
  let r1 := configureIPsecMode calm IPsecModeExternal (world fullRecord) in
  let r2 := configureIPsecMode calm IPsecModeExternal (snd r1) in
  updates (log (snd r1)) = 1 /\ updates (log (snd r2)) = 1.
Proof.
  assert (Hq : quietStore calm) by (intros n; repeat split).
  destruct (proj1 (configureIPsecMode_twice calm IPsecModeExternal (world fullRecord)) Hq)
    as (_ & _ & H1 & H2 & _).
  cbv zeta. rewrite H2, H1. split; reflexivity.
Defined.

(** C5 as stated fails: when the stored mode already is the desired one, two
    calls in a row make no underlying write at all, not exactly one. *)
Lemma configureIPsecMode_twice_in_place_writes_nothing :
  let r1 := configureIPsecMode calm IPsecModeFull (world fullRecord) in
  let r2 := configureIPsecMode calm IPsecModeFull (snd r1) in
  fst r1 = None /\ fst r2 = None /\ updates (log (snd r2)) = 0
  /\ updates (log (snd r2)) <> 1.
Proof. cbv zeta. repeat split; try reflexivity. discriminate. Qed.

(** C10: the no-op test of configureIPsecMode compares the desired mode with
    the stored string, not with what getIPsecMode makes of it: over an
    IPsecConfig whose mode is empty, which getIPsecMode reports as Full,
    configureIPsecMode(Full) sets the mode in the record it read and sends
    it in an Update; when that Update is not disturbed the store ends up
    holding Full. *)
Theorem configureIPsecMode_Full_over_empty_mode (env : Env) (w : World) :
  networksGetErr env (seq w) = None ->
  ipsecConfig (served env w) = Some {| Mode := "" |} ->
  fst (getIPsecMode env w) = (IPsecModeFull, None)
  /\ (exists r rest,
        log (snd (configureIPsecMode env IPsecModeFull w))
        = log w ++ NetworksGet None
            :: NetworksUpdate
                 {| resourceVersion := resourceVersion (served env w);
                    ipsecConfig := Some {| Mode := IPsecModeFull |} |} r
            :: rest)
  /\ (networksUpdateErr env (S (seq w)) = None ->
      rivalWrite env (S (seq w)) = None ->
      fst (configureIPsecMode env IPsecModeFull w) = None
      /\ stored (snd (configureIPsecMode env IPsecModeFull w))
         = {| resourceVersion := S (resourceVersion (served env w));
              ipsecConfig := Some {| Mode := IPsecModeFull |} |}).
Proof.
  intros Hget Hcfg.
  assert (Hh : holdsMode (served env w) IPsecModeFull = false)
    by (unfold holdsMode; rewrite Hcfg; reflexivity).
  split; [|split].
  - rewrite (getIPsecMode_ok _ _ Hget), Hcfg. reflexivity.
  - unfold configureIPsecMode, RetryOnConflict. cbn [Steps DefaultRetry].
    rewrite retryLoop_S, (configureIPsecModeAttempt_ok _ _ _ Hget), Hh.
    set (obj := withIPsecConfig (served env w) {| Mode := IPsecModeFull |}).
    set (w1 := logEvent (NetworksGet None) (commitRival env w)).
    pose proof (Networks_Update_logs env obj w1) as Hl.
    destruct (Networks_Update env obj w1) as [[e|] w2] eqn:Hu; simpl in Hl.
    + destruct (IsConflict e).
      * destruct (retryLoop_rounds env IPsecModeFull 3 (Some e) w2) as (l & Hl2 & _).
        exists (Some e), l. rewrite Hl2, Hl. unfold w1; simpl.
        rewrite log_commitRival, <- !app_assoc. reflexivity.
      * exists (Some e), []. simpl. rewrite Hl. unfold w1; simpl.
        rewrite log_commitRival, <- !app_assoc. reflexivity.
    + exists None, []. simpl. rewrite Hl. unfold w1; simpl.
      rewrite log_commitRival, <- !app_assoc. reflexivity.
  - intros Hu Hr.
    unfold configureIPsecMode, RetryOnConflict. cbn [Steps DefaultRetry].
    rewrite retryLoop_S, (configureIPsecModeAttempt_ok _ _ _ Hget), Hh.
    rewrite Networks_Update_quiet.
    + split; reflexivity.
    + now rewrite seq_logEvent, seq_commitRival.
    + now rewrite seq_logEvent, seq_commitRival.
    + reflexivity.
Qed.

Lemma configureIPsecMode_Full_over_empty_mode_witness :
  fst (getIPsecMode calm (world legacyRecord)) = (IPsecModeFull, None)
  /\ stored (snd (configureIPsecMode calm IPsecModeFull (world legacyRecord)))
     = {| resourceVersion := 8; ipsecConfig := Some {| Mode := IPsecModeFull |} |}.
Proof.
  destruct (configureIPsecMode_Full_over_empty_mode calm (world legacyRecord)
              eq_refl eq_refl) as (Hm & _ & Hw).
  split; [exact Hm|]. exact (proj2 (Hw eq_refl eq_refl)).
Defined.

(** ** ReadinessPoller *)

Lemma extending_ret {A : Type} (a : A) : extending (ret a).
Proof. intros w. exists []. simpl. now rewrite app_nil_r. Qed.

Lemma extending_bind {A B : Type} (c : Client A) (k : A -> Client B) :
  extending c -> (forall a, extending (k a)) -> extending (bind c k).
Proof.
  intros Hc Hk w. unfold bind.
  destruct (Hc w) as (l & Hl). destruct (c w) as [a w1]. simpl in Hl.
  destruct (Hk a w1) as (l' & Hl'). exists (l ++ l').
  now rewrite Hl', Hl, app_assoc.
Qed.

Lemma pollLoop_S (k interval rest : nat) (cond : Client (bool * option error))
    (w : World) :
  pollLoop (S k) interval rest cond w
  = match cond (snd (sleep interval w)) with
    | ((_, Some e), w') => (Some e, w')
    | ((true, None), w') => (None, w')
    | ((false, None), w') => pollLoop k interval rest cond w'
    end.
Proof.
  simpl. unfold bind. simpl.
  destruct (cond _) as [[[|] [e|]] w']; reflexivity.
Qed.

(** A poll that returns nil returns from a run of the condition that answered
    true without an error, and returns in the world that run left. *)
Lemma pollLoop_converged (k interval rest : nat)
    (cond : Client (bool * option error)) :
  extending cond ->
  forall w,
    fst (pollLoop k interval rest cond w) = None ->
    exists w1 pre,
      log w1 = log w ++ pre
      /\ cond w1 = ((true, None), snd (pollLoop k interval rest cond w)).
Proof.
  intros Hext. induction k as [|k IH]; intros w H.
  - discriminate H.
  - rewrite pollLoop_S in H |- *.
    destruct (Hext (snd (sleep interval w))) as (l & Hl).
    destruct (cond (snd (sleep interval w))) as [[[|] [e|]] w'] eqn:Hc;
      simpl in H, Hl; try discriminate H.
    + exists (snd (sleep interval w)), [Sleep interval]. split; [reflexivity|].
      exact Hc.
    + destruct (IH w' H) as (w1 & pre & Hpre & Hrun).
      exists w1, ((Sleep interval :: l) ++ pre). split; [|exact Hrun].
      rewrite Hpre, Hl. simpl. now rewrite <- !app_assoc.
Qed.

Lemma PollUntilContextTimeout_converged (interval timeout : nat)
    (cond : Client (bool * option error)) :
  extending cond ->
  forall w,
    fst (PollUntilContextTimeout interval timeout true cond w) = None ->
    exists w1 pre,
      log w1 = log w ++ pre
      /\ cond w1
         = ((true, None), snd (PollUntilContextTimeout interval timeout true cond w)).
Proof.
  intros Hext w H. unfold PollUntilContextTimeout, bind in H |- *.
  destruct (Hext w) as (l & Hl).
  destruct (cond w) as [[[|] [e|]] w'] eqn:Hc; simpl in H, Hl; try discriminate H.
  - exists w, []. rewrite app_nil_r. split; [reflexivity|exact Hc].
  - destruct (pollLoop_converged _ _ _ _ Hext w' H) as (w1 & pre & Hpre & Hrun).
    exists w1, (l ++ pre). split; [|exact Hrun].
    now rewrite Hpre, Hl, app_assoc.
Qed.

(** A condition that never answers true and never returns an error runs the
    poll into its deadline. *)
Lemma pollLoop_times_out (k interval rest : nat)
    (cond : Client (bool * option error)) :
  (forall w, fst (cond w) = (false, None)) ->
  forall w, fst (pollLoop k interval rest cond w) = Some context_DeadlineExceeded.
Proof.
  intros Hnever. induction k as [|k IH]; intros w.
  - reflexivity.
  - rewrite pollLoop_S. specialize (Hnever (snd (sleep interval w))).
    destruct (cond (snd (sleep interval w))) as [[b e] w']. simpl in Hnever.
    injection Hnever as -> ->. apply IH.
Qed.

Lemma PollUntilContextTimeout_times_out (interval timeout : nat)
    (cond : Client (bool * option error)) :
  (forall w, fst (cond w) = (false, None)) ->
  forall w,
    fst (PollUntilContextTimeout interval timeout true cond w)
    = Some context_DeadlineExceeded.
Proof.
  intros Hnever w. unfold PollUntilContextTimeout, bind.
  pose proof (Hnever w) as H0.
  destruct (cond w) as [[b e] w']. simpl in H0. injection H0 as -> ->.
  now apply pollLoop_times_out.
Qed.

Lemma pollLoop_no_error (k interval rest : nat)
    (cond : Client (bool * option error)) :
  (forall w, snd (fst (cond w)) = None) ->
  forall w,
    fst (pollLoop k interval rest cond w) = None
    \/ fst (pollLoop k interval rest cond w) = Some context_DeadlineExceeded.
Proof.
  intros Hne. induction k as [|k IH]; intros w.
  - right; reflexivity.
  - rewrite pollLoop_S. specialize (Hne (snd (sleep interval w))).
    destruct (cond (snd (sleep interval w))) as [[[|] [e|]] w'];
      simpl in Hne; try discriminate Hne; auto.
Qed.

Lemma PollUntilContextTimeout_no_error (interval timeout : nat)
    (cond : Client (bool * option error)) :
  (forall w, snd (fst (cond w)) = None) ->
  forall w,
    fst (PollUntilContextTimeout interval timeout true cond w) = None
    \/ fst (PollUntilContextTimeout interval timeout true cond w)
       = Some context_DeadlineExceeded.
Proof.
  intros Hne w. unfold PollUntilContextTimeout, bind.
  pose proof (Hne w) as H0.
  destruct (cond w) as [[[|] [e|]] w']; simpl in H0; try discriminate H0; auto.
  now apply pollLoop_no_error.
Qed.

Lemma pollLoop_now_le (k interval rest : nat)
    (cond : Client (bool * option error)) :
  instant cond ->
  forall w, now w <= now (snd (pollLoop k interval rest cond w)).
Proof.
  intros Hi. induction k as [|k IH]; intros w.
  - simpl. lia.
  - rewrite pollLoop_S. pose proof (Hi (snd (sleep interval w))) as Hn.
    destruct (cond (snd (sleep interval w))) as [[[|] [e|]] w'];
      simpl in Hn |- *; try lia.
    specialize (IH w'). lia.
Qed.

Lemma PollUntilContextTimeout_now_le (interval timeout : nat)
    (cond : Client (bool * option error)) :
  instant cond ->
  forall w, now w <= now (snd (PollUntilContextTimeout interval timeout true cond w)).
Proof.
  intros Hi w. unfold PollUntilContextTimeout, bind.
  pose proof (Hi w) as Hn.
  destruct (cond w) as [[[|] [e|]] w']; simpl in Hn |- *; try lia.
  pose proof (pollLoop_now_le ((timeout - 1) / interval) interval
                (timeout - (timeout - 1) / interval * interval) cond Hi w').
  lia.
Qed.

Lemma pollLoop_now_deadline (k interval rest : nat)
    (cond : Client (bool * option error)) :
  instant cond ->
  forall w,
    fst (pollLoop k interval rest cond w) = Some context_DeadlineExceeded ->
    (forall w', snd (fst (cond w')) = None) ->
    now (snd (pollLoop k interval rest cond w)) = now w + k * interval + rest.
Proof.
  intros Hi. induction k as [|k IH]; intros w Hd Hne.
  - simpl. lia.
  - rewrite pollLoop_S in Hd |- *.
    pose proof (Hi (snd (sleep interval w))) as Hn.
    pose proof (Hne (snd (sleep interval w))) as He.
    destruct (cond (snd (sleep interval w))) as [[[|] [e|]] w'];
      simpl in Hn, He, Hd; try discriminate.
    rewrite (IH w' Hd Hne), Hn. simpl. lia.
Qed.

(** A poll that runs into its deadline has lasted exactly the timeout. *)
Lemma PollUntilContextTimeout_now_deadline (interval timeout : nat)
    (cond : Client (bool * option error)) :
  instant cond ->
  forall w,
    fst (PollUntilContextTimeout interval timeout true cond w)
    = Some context_DeadlineExceeded ->
    (forall w', snd (fst (cond w')) = None) ->
    now (snd (PollUntilContextTimeout interval timeout true cond w))
    = now w + timeout.
Proof.
  intros Hi w Hd Hne. unfold PollUntilContextTimeout, bind in Hd |- *.
  pose proof (Hi w) as Hn. pose proof (Hne w) as He.
  destruct (cond w) as [[[|] [e|]] w']; simpl in Hn, He, Hd; try discriminate.
  rewrite (pollLoop_now_deadline _ _ _ _ Hi w' Hd Hne), Hn.
  pose proof (Nat.Div0.mul_div_le (timeout - 1) interval). lia.
Qed.

(** ** FleetConvergenceChecker *)

#[local] Arguments IsNotFound : simpl never.
#[local] Arguments isConnResetErr : simpl never.
#[local] Arguments IsConflict : simpl never.

(** Unfolds a probe down to the oracles and takes every answer apart. *)
Ltac run_probe :=
  unfold machineConfigRolloutProbe, daemonSetRunningProbe, daemonSetAbsentProbe,
    isIPsecDaemonSetRunning, getIPsecDaemonSet, DaemonSets_Get,
    areMachineConfigPoolsReadyWithIPsec, areClusterOperatorsReady, fatal, bind, ret;
  repeat first
    [ progress simpl
    | match goal with
      | |- context [daemonSetsGetResp ?e ?n] =>
          destruct (daemonSetsGetResp e n) as [[?|] [?|]]
      | |- context [clusterOperatorsReadyResp ?e ?n] =>
          destruct (clusterOperatorsReadyResp e n) as [[|] [?|]]
      | |- context [machineConfigPoolsReadyWithIPsecResp ?e ?n] =>
          destruct (machineConfigPoolsReadyWithIPsecResp e n) as [[|] [?|]]
      | |- context [IsNotFound ?e] => destruct (IsNotFound e) eqn:?
      | |- context [isConnResetErr ?e] => destruct (isConnResetErr e) eqn:?
      | |- context [Z.eqb ?a ?b] => destruct (Z.eqb a b) eqn:?
      end ].

Ltac appended :=
  rewrite <- ?app_assoc; simpl; eexists; reflexivity.

Lemma machineConfigRolloutProbe_extending (env : Env) :
  extending (machineConfigRolloutProbe env).
Proof. intros w. run_probe; appended. Qed.

Lemma machineConfigRolloutProbe_instant (env : Env) :
  instant (machineConfigRolloutProbe env).
Proof. intros w. run_probe; reflexivity. Qed.

Lemma daemonSetRunningProbe_extending (env : Env) :
  extending (daemonSetRunningProbe env).
Proof. intros w. run_probe; appended. Qed.

Lemma daemonSetRunningProbe_instant (env : Env) :
  instant (daemonSetRunningProbe env).
Proof. intros w. run_probe; reflexivity. Qed.

Lemma daemonSetAbsentProbe_extending (env : Env) :
  extending (daemonSetAbsentProbe env).
Proof. intros w. run_probe; appended. Qed.

Lemma daemonSetAbsentProbe_instant (env : Env) :
  instant (daemonSetAbsentProbe env).
Proof. intros w. run_probe; reflexivity. Qed.

(** The rollout probe answers true only on pools that report the rollout
    complete followed by operators that report ready. *)
Lemma machineConfigRolloutProbe_true (env : Env) (w w' : World) :
  machineConfigRolloutProbe env w = ((true, None), w') ->
  exists e1 e2,
    log w' = log w ++ [MachineConfigPoolsReadyWithIPsec true e1;
                       ClusterOperatorsReady true e2].
Proof.
  run_probe; intros H; try discriminate H; injection H as <-; simpl;
    rewrite <- app_assoc; do 2 eexists; reflexivity.
Qed.

(** The absence probe answers true only on a lookup that found no daemonset,
    by a not-found error or by a nil object without error, followed by
    operators that report ready; it asks nothing of the machine config
    pools. *)
Lemma daemonSetAbsentProbe_true (env : Env) (w w' : World) :
  daemonSetAbsentProbe env w = ((true, None), w') ->
  exists ds e1 e2,
    log w' = log w ++ [DaemonSetsGet ds e1; ClusterOperatorsReady true e2]
    /\ (match e1 with Some e => IsNotFound e = true | None => ds = None end).
Proof.
  run_probe; intros H; try discriminate H; injection H as <-; simpl;
    rewrite <- app_assoc; do 3 eexists; (split; [reflexivity|]); simpl; trivial.
Qed.

(** The running probe answers true only on a lookup that handed back a
    daemonset whose ready count equals the desired one, followed by operators
    that report ready. *)
Lemma daemonSetRunningProbe_true (env : Env) (w w' : World) :
  daemonSetRunningProbe env w = ((true, None), w') ->
  exists ds e1 e2,
    log w' = log w ++ [DaemonSetsGet (Some ds) e1; ClusterOperatorsReady true e2]
    /\ DesiredNumberScheduled ds = NumberReady ds.
Proof.
  run_probe; intros H; try discriminate H; injection H as <-; simpl;
    rewrite <- app_assoc; do 3 eexists; (split; [reflexivity|]);
    now apply Z.eqb_eq.
Qed.

Lemma never_converges (cond : Client (bool * option error)) :
  (forall w, snd (fst (cond w)) = None) ->
  (forall w, fst (fst (cond w)) = false) ->
  forall w, fst (cond w) = (false, None).
Proof.
  intros He Hb w. specialize (He w). specialize (Hb w).
  destruct (cond w) as [[b e] w']. simpl in *. now subst.
Qed.




Lemma pollLoop_adding (P : Event -> bool) (k interval rest : nat)
    (cond : Client (bool * option error)) :
  adding P cond -> P (Sleep interval) = true -> P (Sleep rest) = true ->
  adding P (pollLoop k interval rest cond).
Proof.
  intros Hc Hi Hr. induction k as [|k IH]; intros w.
  - exists [Sleep rest]. simpl. rewrite Hr. split; reflexivity.
  - rewrite pollLoop_S.
    destruct (Hc (snd (sleep interval w))) as (l & Hl & HP).
    destruct (cond (snd (sleep interval w))) as [[[|] [e|]] w'];
      simpl in Hl |- *;
      try (exists (Sleep interval :: l); rewrite Hl, <- app_assoc; simpl;
           rewrite Hi, HP; split; reflexivity).
    destruct (IH w') as (l' & Hl' & HP').
    exists ((Sleep interval :: l) ++ l'). rewrite Hl', Hl, <- !app_assoc. simpl.
    rewrite forallb_app, Hi, HP, HP'. split; reflexivity.
Qed.

Lemma PollUntilContextTimeout_adding (P : Event -> bool) (interval timeout : nat)
    (cond : Client (bool * option error)) :
  adding P cond -> (forall d, P (Sleep d) = true) ->
  adding P (PollUntilContextTimeout interval timeout true cond).
Proof.
  intros Hc Hs w. unfold PollUntilContextTimeout, bind.
  destruct (Hc w) as (l & Hl & HP).
  destruct (cond w) as [[[|] [e|]] w']; simpl in Hl |- *;
    try (exists l; split; assumption).
  destruct (pollLoop_adding P ((timeout - 1) / interval) interval
              (timeout - (timeout - 1) / interval * interval) cond Hc
              (Hs _) (Hs _) w') as (l' & Hl' & HP').
  exists (l ++ l'). rewrite Hl', Hl, app_assoc, forallb_app, HP, HP'.
  split; reflexivity.
Qed.

Lemma daemonSetAbsentProbe_asks_no_pool (env : Env) :
  adding notMachineConfigCheck (daemonSetAbsentProbe env).
Proof.
  intros w. run_probe; rewrite <- ?app_assoc; simpl; eexists;
    (split; [reflexivity|reflexivity]).
Qed.

Lemma andThen_run {A B : Type} (c : Client A) (k : A -> Node B) (w : World) :
  andThen (run c) k w = k (fst (c w)) (snd (c w)).
Proof. unfold andThen, run. destruct (c w); reflexivity. Qed.

Lemma ExpectNoError_run_passed (c : Client (option error)) (w : World) :
  fst ((err <~ run c ;; ExpectNoError err) w) = Passed tt ->
  fst (c w) = None /\ snd ((err <~ run c ;; ExpectNoError err) w) = snd (c w).
Proof.
  rewrite andThen_run. destruct (c w) as [[e|] w']; simpl; [discriminate|].
  intros _. split; reflexivity.
Qed.

(** The wait passes only when the ensure function of the mode returned nil,
    and then leaves the world that function left. *)
Lemma waitForIPsecConfigToComplete_passed (env : Env) (w : World) :
  (fst (waitForIPsecConfigToComplete env IPsecModeDisabled w) = Passed tt ->
     fst (ensureIPsecDisabled env w) = None
     /\ snd (waitForIPsecConfigToComplete env IPsecModeDisabled w)
        = snd (ensureIPsecDisabled env w))
  /\ (fst (waitForIPsecConfigToComplete env IPsecModeExternal w) = Passed tt ->
     fst (ensureIPsecMachineConfigRolloutComplete env w) = None
     /\ snd (waitForIPsecConfigToComplete env IPsecModeExternal w)
        = snd (ensureIPsecMachineConfigRolloutComplete env w))
  /\ (fst (waitForIPsecConfigToComplete env IPsecModeFull w) = Passed tt ->
     fst (ensureIPsecEnabled env w) = None
     /\ snd (waitForIPsecConfigToComplete env IPsecModeFull w)
        = snd (ensureIPsecEnabled env w)).
Proof.
  repeat split; revert H; apply ExpectNoError_run_passed.
Qed.

(** C1, as the code has it: the wait for External and the wait for Full poll
    the machine-config probe and succeed only after the pools report the
    IPsec rollout complete and the operators report ready (for Full, the
    daemonset is then polled until its ready count equals the desired one and
    the operators report ready again); the wait for Disabled polls the
    daemonset's absence and the operators only, and never asks the machine
    config pools. *)
Theorem waitForIPsecConfigToComplete_structural_probe (env : Env) (w : World) :
  (fst (waitForIPsecConfigToComplete env IPsecModeExternal w) = Passed tt ->
     exists pre e1 e2,
       log (snd (waitForIPsecConfigToComplete env IPsecModeExternal w))
       = log w ++ pre ++ [MachineConfigPoolsReadyWithIPsec true e1;
                          ClusterOperatorsReady true e2])
  /\ (fst (waitForIPsecConfigToComplete env IPsecModeFull w) = Passed tt ->
     exists pre e1 e2 mid ds e3 e4,
       log (snd (waitForIPsecConfigToComplete env IPsecModeFull w))
       = log w ++ pre ++ [MachineConfigPoolsReadyWithIPsec true e1;
                          ClusterOperatorsReady true e2]
               ++ mid ++ [DaemonSetsGet (Some ds) e3; ClusterOperatorsReady true e4]
       /\ DesiredNumberScheduled ds = NumberReady ds)
  /\ (fst (waitForIPsecConfigToComplete env IPsecModeDisabled w) = Passed tt ->
     exists pre ds e1 e2,
       log (snd (waitForIPsecConfigToComplete env IPsecModeDisabled w))
       = log w ++ pre ++ [DaemonSetsGet ds e1; ClusterOperatorsReady true e2]
       /\ match e1 with Some e => IsNotFound e = true | None => ds = None end
       /\ forallb notMachineConfigCheck
            (pre ++ [DaemonSetsGet ds e1; ClusterOperatorsReady true e2]) = true).
Proof.
  destruct (waitForIPsecConfigToComplete_passed env w) as (HD & HE & HF).
  split; [|split].
  - intros Hp. destruct (HE Hp) as (Hr & ->).
    unfold ensureIPsecMachineConfigRolloutComplete in Hr |- *.
    destruct (PollUntilContextTimeout_converged _ _ _
                (machineConfigRolloutProbe_extending env) w Hr)
      as (w1 & pre & Hpre & Hrun).
    destruct (machineConfigRolloutProbe_true _ _ _ Hrun) as (e1 & e2 & Hlog).
    exists pre, e1, e2. now rewrite Hlog, Hpre, <- app_assoc.
  - intros Hp. destruct (HF Hp) as (Hr & ->).
    unfold ensureIPsecEnabled, bind in Hr |- *.
    destruct (ensureIPsecMachineConfigRolloutComplete env w) as [[e|] wm] eqn:Hmc;
      [discriminate Hr|].
    assert (Hr1 : fst (ensureIPsecMachineConfigRolloutComplete env w) = None)
      by now rewrite Hmc.
    unfold ensureIPsecMachineConfigRolloutComplete in Hr1, Hmc.
    destruct (PollUntilContextTimeout_converged _ _ _
                (machineConfigRolloutProbe_extending env) w Hr1)
      as (w1 & pre & Hpre & Hrun).
    rewrite Hmc in Hrun. simpl in Hrun.
    destruct (machineConfigRolloutProbe_true _ _ _ Hrun) as (e1 & e2 & Hlog).
    destruct (PollUntilContextTimeout_converged _ _ _
                (daemonSetRunningProbe_extending env) wm Hr)
      as (w2 & mid & Hmid & Hrun2).
    destruct (daemonSetRunningProbe_true _ _ _ Hrun2) as (ds & e3 & e4 & Hlog2 & Heq).
    exists pre, e1, e2, mid, ds, e3, e4. split; [|exact Heq].
    rewrite Hlog2, Hmid, Hlog, Hpre, <- !app_assoc. reflexivity.
  - intros Hp. destruct (HD Hp) as (Hr & ->).
    unfold ensureIPsecDisabled in Hr |- *.
    destruct (PollUntilContextTimeout_converged _ _ _
                (daemonSetAbsentProbe_extending env) w Hr)
      as (w1 & pre & Hpre & Hrun).
    destruct (daemonSetAbsentProbe_true _ _ _ Hrun) as (ds & e1 & e2 & Hlog & Habs).
    destruct (PollUntilContextTimeout_adding notMachineConfigCheck
                ipsecRolloutWaitInterval ipsecRolloutWaitDuration _
                (daemonSetAbsentProbe_asks_no_pool env) (fun _ => eq_refl) w)
      as (l & Hl & HP).
    exists pre, ds, e1, e2.
    assert (Hall : log (snd (PollUntilContextTimeout ipsecRolloutWaitInterval
                               ipsecRolloutWaitDuration true
                               (daemonSetAbsentProbe env) w))
                   = log w ++ pre ++ [DaemonSetsGet ds e1; ClusterOperatorsReady true e2])
      by now rewrite Hlog, Hpre, <- app_assoc.
    repeat split; trivial.
    rewrite Hall in Hl. apply app_inv_head in Hl. now rewrite Hl.
Qed.

Lemma waitForIPsecConfigToComplete_structural_probe_witness :
  (exists pre e1 e2,
     log (snd (waitForIPsecConfigToComplete settled IPsecModeExternal
                 (world fullRecord)))
     = pre ++ [MachineConfigPoolsReadyWithIPsec true e1;
               ClusterOperatorsReady true e2])
  /\ (exists pre e1 e2 mid ds e3 e4,
       log (snd (waitForIPsecConfigToComplete settled IPsecModeFull
                   (world fullRecord)))
       = pre ++ [MachineConfigPoolsReadyWithIPsec true e1;
                 ClusterOperatorsReady true e2]
             ++ mid ++ [DaemonSetsGet (Some ds) e3; ClusterOperatorsReady true e4]
       /\ DesiredNumberScheduled ds = NumberReady ds)
  /\ (exists pre ds e1 e2,
       log (snd (waitForIPsecConfigToComplete calm IPsecModeDisabled
                   (world fullRecord)))
       = pre ++ [DaemonSetsGet ds e1; ClusterOperatorsReady true e2]
       /\ match e1 with Some e => IsNotFound e = true | None => ds = None end
       /\ forallb notMachineConfigCheck
            (pre ++ [DaemonSetsGet ds e1; ClusterOperatorsReady true e2]) = true).
Proof.
  split; [|split].
  - exact (proj1 (waitForIPsecConfigToComplete_structural_probe settled
                    (world fullRecord)) eq_refl).
  - exact (proj1 (proj2 (waitForIPsecConfigToComplete_structural_probe settled
                           (world fullRecord))) eq_refl).
  - exact (proj2 (proj2 (waitForIPsecConfigToComplete_structural_probe calm
                           (world fullRecord))) eq_refl).
Defined.

(** C1 as stated fails for Disabled: with the daemonset gone and the operators
    ready, the wait succeeds at its first poll without having asked the
    machine config pools, which still report the rollout incomplete. *)
Lemma waitForIPsecConfigToComplete_Disabled_skips_pools :
  let r := waitForIPsecConfigToComplete calm IPsecModeDisabled (world fullRecord) in
  fst r = Passed tt
  /\ log (snd r)
     = [DaemonSetsGet (Some {| DesiredNumberScheduled := 0%Z; NumberReady := 0%Z |})
          (Some errNotFound);
        ClusterOperatorsReady true None]
  /\ existsb isMachineConfigCheck (log (snd r)) = false
  /\ fst (areMachineConfigPoolsReadyWithIPsec calm (snd r)) = (false, None).
Proof. cbv zeta. repeat split. Qed.



(** An error that a helper check returns to one of the three conditions is
    handed on by the condition, with false, when it is outside the
    connection-reset class, and is not handed on when it is inside. *)
Lemma conditions_handle_check_errors (env : Env) (cw : ConvergenceWait)
    (p : Client (bool * option error)) (w : World) :
  In p (probesOf env cw) ->
  exists added,
    log (snd (p w)) = log w ++ added
    /\ forall ev e, In ev added -> checkError ev = Some e ->
         if isConnResetErr e then snd (fst (p w)) <> Some e
         else fst (p w) = (false, Some e).
Proof.
  assert (Hneq : forall e e' : error,
             isConnResetErr e = true -> isConnResetErr e' = false ->
             Some e' <> Some e).
  { intros e e' H1 H2 H. injection H as ->. congruence. }
  intros Hin.
  destruct cw; simpl in Hin;
    repeat match goal with
           | H : _ \/ _ |- _ => destruct H as [<-|H]
           | H : False |- _ => destruct H
           end.
  all: run_probe; rewrite <- ?app_assoc; eexists; (split; [reflexivity|]);
    intros ev e' Hev Hc; simpl in Hev;
    repeat match goal with
           | H : _ \/ _ |- _ => destruct H as [<-|H]
           | H : False |- _ => destruct H
           end;
    simpl in Hc; try discriminate Hc; injection Hc as <-;
    repeat match goal with
           | H : isConnResetErr ?x = _ |- context [isConnResetErr ?x] => rewrite H
           end;
    simpl; try reflexivity; try discriminate; eauto.
Qed.

(** C7 fails on the code: a daemonset lookup that fails with an error outside
    the connection-reset class, while the typed client hands back its
    zero-valued object, is dropped by isIPsecDaemonSetRunning, which reports
    the daemonset as running (zero desired, zero ready); ensureIPsecEnabled
    then returns nil and the error reaches nobody.  A connection reset in the
    same place is dropped the same way, and the poll cycle counts as ready,
    not as not yet ready.  ensureIPsecDisabled, on the same answers, aborts
    with the first error and polls on after the second. *)
Theorem ensureIPsecEnabled_drops_lookup_error :
  (fatal (Some errForbidden) = true
   /\ fst (getIPsecDaemonSet lookupFails (world fullRecord))
      = (Some {| DesiredNumberScheduled := 0%Z; NumberReady := 0%Z |}, Some errForbidden)
   /\ fst (isIPsecDaemonSetRunning lookupFails (world fullRecord)) = (true, None)
   /\ fst (ensureIPsecEnabled lookupFails (world fullRecord)) = None
   /\ log (snd (ensureIPsecEnabled lookupFails (world fullRecord)))
      = [MachineConfigPoolsReadyWithIPsec true None;
         ClusterOperatorsReady true None;
         DaemonSetsGet (Some {| DesiredNumberScheduled := 0%Z; NumberReady := 0%Z |})
           (Some errForbidden);
         ClusterOperatorsReady true None]
   /\ fst (ensureIPsecDisabled lookupFails (world fullRecord)) = Some errForbidden)
  /\ (isConnResetErr errConnReset = true
      /\ fst (daemonSetRunningProbe lookupResets (world fullRecord)) = (true, None)
      /\ fst (ensureIPsecEnabled lookupResets (world fullRecord)) = None
      /\ fst (daemonSetAbsentProbe lookupResets (world fullRecord)) = (false, None)).
Proof. repeat split. Qed.

(** ** TrafficOracle *)

(** Runs a trial symbolically: every finishing order, every answer of the
    three commands. *)
Ltac run_trial :=
  unfold pingAndCheckNodeTraffic, schedule, bind, emit, ret;
  match goal with
  | |- context [completion ?e ?n] => destruct (completion e n)
  end;
  simpl; unfold complete; simpl;
  repeat match goal with
         | |- context [execResp ?e ?n ?c] =>
             let r := fresh "raw" in
             destruct (execResp e n c) as [r|]; simpl
         end.

(** What a trial leaves in the log and how its result is put together: [a],
    [b] and [c] are what the source capture, the destination capture and the
    ping returned, [tcp] is what Wait on the capture group returned. *)
Lemma pingAndCheckNodeTraffic_structure (env : Env) (src dst : testNodeConfig)
    (ipsecTraffic : bool) (w : World) :
  let r := pingAndCheckNodeTraffic env src dst ipsecTraffic w in
  exists added a b c tcp,
    log (snd r) = log w ++ added
    /\ firstn 3 added
       = [Go CaptureSrc (taskCommand src dst ipsecTraffic CaptureSrc);
          Go CaptureDst (taskCommand src dst ipsecTraffic CaptureDst);
          Go Ping (taskCommand src dst ipsecTraffic Ping)]
    /\ last added (Sleep 0) = TrialResult ipsecTraffic (fst r)
    /\ doneOf CaptureSrc (removelast added) = [a]
    /\ doneOf CaptureDst (removelast added) = [b]
    /\ doneOf Ping (removelast added) = [c]
    /\ trials added = [(ipsecTraffic, fst r)]
    /\ (a = None
        \/ exists e, a = Some (Errorf ("error capturing traffic on the source node: "
                                       ++ Error e)%string))
    /\ (b = None
        \/ exists e, b = Some (Errorf ("error capturing traffic on the dst node: "
                                       ++ Error e)%string))
    /\ (tcp = a \/ tcp = b)
    /\ (tcp = None -> a = None /\ b = None)
    /\ fst r = match tcp, c with
               | None, None => None
               | _, _ => Some (Errorf (trialFailed ++ fmtV tcp ++ ", ping err: "
                                       ++ fmtV c)%string)
               end.
Proof.
  cbv zeta. run_trial.
  all: rewrite <- ?app_assoc; simpl.
  all: eexists; do 4 eexists; (split; [reflexivity|]); simpl.
  all: repeat (split; [reflexivity|]).
  all: split; [first [left; reflexivity | right; eexists; reflexivity]|].
  all: split; [first [left; reflexivity | right; eexists; reflexivity]|].
  all: first
         [ instantiate (1 := None); split; [left; reflexivity|];
           split; [intros _; split; reflexivity|]; reflexivity
         | split; [left; reflexivity|];
           split; [intros H; discriminate H|]; reflexivity
         | split; [right; reflexivity|];
           split; [intros H; discriminate H|]; reflexivity ].
Qed.

Lemma prefix_app (p s : string) : String.prefix p (p ++ s) = true.
Proof.
  induction p as [|a p IH]; simpl.
  - destruct s; reflexivity.
  - destruct (Ascii.ascii_dec a a) as [_|Hn]; [exact IH|now elim Hn].
Qed.

(** C4: a trial returns after all three tasks have finished, each exactly
    once; it returns nil exactly when the two captures and the ping all
    succeeded; and the text of a non-nil result starts by blaming the source
    capture only if that capture failed, the destination capture only if that
    one failed, and neither capture only if both succeeded and the ping
    failed; it always starts in one of these three ways. *)
Theorem pingAndCheckNodeTraffic_joins_and_blames (env : Env)
    (src dst : testNodeConfig) (ipsecTraffic : bool) (w : World) :
  let r := pingAndCheckNodeTraffic env src dst ipsecTraffic w in
  exists added a b c,
    log (snd r) = log w ++ added
    /\ firstn 3 added
       = [Go CaptureSrc (taskCommand src dst ipsecTraffic CaptureSrc);
          Go CaptureDst (taskCommand src dst ipsecTraffic CaptureDst);
          Go Ping (taskCommand src dst ipsecTraffic Ping)]
    /\ last added (Sleep 0) = TrialResult ipsecTraffic (fst r)
    /\ doneOf CaptureSrc (removelast added) = [a]
    /\ doneOf CaptureDst (removelast added) = [b]
    /\ doneOf Ping (removelast added) = [c]
    /\ (fst r = None <-> a = None /\ b = None /\ c = None)
    /\ (forall e, fst r = Some e ->
          (String.prefix blamesSource (Error e) = true -> a <> None)
          /\ (String.prefix blamesDst (Error e) = true -> b <> None)
          /\ (String.prefix blamesNoCapture (Error e) = true ->
                a = None /\ b = None /\ c <> None)
          /\ (String.prefix blamesSource (Error e)
              || String.prefix blamesDst (Error e)
              || String.prefix blamesNoCapture (Error e) = true)
          /\ exists tcp,
               (tcp = a \/ tcp = b)
               /\ Error e
                  = (trialFailed ++ fmtV tcp ++ ", ping err: " ++ fmtV c)%string).
Proof.
  cbv zeta.
  destruct (pingAndCheckNodeTraffic_structure env src dst ipsecTraffic w)
    as (added & a & b & c & tcp & Hlog & Hgo & Hlast & Ha & Hb & Hc & _
        & Hsa & Hsb & Htcp & Hnil & Hres).
  exists added, a, b, c. repeat (split; [assumption|]).
  split.
  - rewrite Hres. split.
    + destruct tcp, c; try discriminate. destruct (Hnil eq_refl); auto.
    + intros (-> & -> & ->). destruct Htcp; subst; reflexivity.
  - intros e He. rewrite Hres in He.
    assert (Hmsg : Error e
                   = (trialFailed ++ fmtV tcp ++ ", ping err: " ++ fmtV c)%string
                   /\ (tcp = None -> c <> None)).
    { destruct tcp, c; try discriminate He; injection He as <-;
        (split; [reflexivity|]); intros H; discriminate. }
    clear He. destruct Hmsg as (Hmsg & Hping).
    assert (Hcases :
              (exists x, tcp = a /\ tcp = Some (Errorf
                 ("error capturing traffic on the source node: " ++ Error x)%string))
              \/ (exists x, tcp = b /\ tcp = Some (Errorf
                 ("error capturing traffic on the dst node: " ++ Error x)%string))
              \/ (tcp = None /\ a = None /\ b = None /\ c <> None)).
    { destruct tcp as [t|].
      - destruct Htcp as [Ht|Ht].
        + left. destruct Hsa as [Hs|(x & Hs)]; rewrite Hs in Ht;
            [discriminate Ht|]. exists x. split; [now rewrite Hs|exact Ht].
        + right; left. destruct Hsb as [Hs|(x & Hs)]; rewrite Hs in Ht;
            [discriminate Ht|]. exists x. split; [now rewrite Hs|exact Ht].
      - right; right. destruct (Hnil eq_refl). auto. }
    rewrite Hmsg.
    destruct Hcases as [(x & Hta & ->)|[(x & Htb & ->)|(-> & -> & -> & Hcn)]].
    + split; [intros _; rewrite <- Hta; discriminate|].
      split; [vm_compute; intros H; discriminate H|].
      split; [vm_compute; intros H; discriminate H|].
      split.
      { match goal with
        | |- context [String.prefix blamesSource ?m] =>
            assert (Hp : String.prefix blamesSource m = true)
              by exact (prefix_app blamesSource
                          (Error x ++ ", ping err: " ++ fmtV c));
            rewrite Hp
        end. reflexivity. }
      exists a. split; [now left|]. now rewrite <- Hta.
    + split; [vm_compute; intros H; discriminate H|].
      split; [intros _; rewrite <- Htb; discriminate|].
      split; [vm_compute; intros H; discriminate H|].
      split.
      { match goal with
        | |- context [String.prefix blamesDst ?m] =>
            assert (Hp : String.prefix blamesDst m = true)
              by exact (prefix_app blamesDst
                          (Error x ++ ", ping err: " ++ fmtV c));
            rewrite Hp
        end. now rewrite orb_true_r. }
      exists b. split; [now right|]. now rewrite <- Htb.
    + split; [vm_compute; intros H; discriminate H|].
      split; [vm_compute; intros H; discriminate H|].
      split; [intros _; auto|].
      split.
      { match goal with
        | |- context [String.prefix blamesNoCapture ?m] =>
            assert (Hp : String.prefix blamesNoCapture m = true)
              by exact (prefix_app blamesNoCapture (fmtV c));
            rewrite Hp
        end. apply orb_true_r. }
      exists None. split; [now left|reflexivity].
Qed.

Lemma pingAndCheckNodeTraffic_joins_and_blames_witness :
  let r := pingAndCheckNodeTraffic (onWire geneveWire DstPingSrc)
             (node "a" "1") (node "b" "2") true (world fullRecord) in
  exists a b c,
    doneOf CaptureSrc (removelast (log (snd r))) = [a]
    /\ doneOf CaptureDst (removelast (log (snd r))) = [b]
    /\ doneOf Ping (removelast (log (snd r))) = [c]
    /\ fst r <> None /\ b <> None.
Proof.
  cbv zeta.
  destruct (pingAndCheckNodeTraffic_joins_and_blames (onWire geneveWire DstPingSrc)
              (node "a" "1") (node "b" "2") true (world fullRecord))
    as (added & a & b & c & Hlog & _ & _ & Ha & Hb & Hc & _ & Hblame).
  rewrite Hlog. change (log (world fullRecord) ++ added) with added.
  exists a, b, c. repeat (split; [assumption|]).
  split; [discriminate|].
  apply (proj1 (proj2 (Hblame _ eq_refl))). vm_compute. reflexivity.
Defined.

Lemma trials_app (l l' : list Event) : trials (l ++ l') = trials l ++ trials l'.
Proof. unfold trials. apply flat_map_app. Qed.

Lemma pingAndCheckNodeTraffic_one_trial (env : Env) (src dst : testNodeConfig)
    (ipsecTraffic : bool) (w : World) :
  exists added,
    log (snd (pingAndCheckNodeTraffic env src dst ipsecTraffic w)) = log w ++ added
    /\ trials added
       = [(ipsecTraffic, fst (pingAndCheckNodeTraffic env src dst ipsecTraffic w))].
Proof.
  destruct (pingAndCheckNodeTraffic_structure env src dst ipsecTraffic w)
    as (added & a & b & c & tcp & Hlog & _ & _ & _ & _ & _ & Ht & _).
  exists added. split; assumption.
Qed.

(** The two trials of a check, as they show in the log, with the verdict and
    the value [err] is left with. *)
Lemma trialPair_trials (env : Env) (config : testConfig) (first : bool) (w : World) :
  exists added,
    log (snd (trialPair env config first w)) = log w ++ added
    /\ ((exists e, trials added = [(first, Some e)]
                   /\ fst (trialPair env config first w)
                      = (Failed (UnexpectedError e), Some e))
        \/ (trials added = [(first, None); (negb first, None)]
            /\ fst (trialPair env config first w) = (Failed ExpectedAnError, None))
        \/ (exists e, trials added = [(first, None); (negb first, Some e)]
                      /\ fst (trialPair env config first w) = (Passed tt, Some e))).
Proof.
  unfold trialPair.
  destruct (pingAndCheckNodeTraffic_one_trial env (srcNodeConfig config)
              (dstNodeConfig config) first w) as (l1 & Hl1 & Ht1).
  destruct (pingAndCheckNodeTraffic env (srcNodeConfig config)
              (dstNodeConfig config) first w) as [[e|] w1]; simpl in Hl1, Ht1.
  - exists l1. split; [exact Hl1|]. left. exists e. split; [exact Ht1|reflexivity].
  - destruct (pingAndCheckNodeTraffic_one_trial env (srcNodeConfig config)
                (dstNodeConfig config) (negb first) w1) as (l2 & Hl2 & Ht2).
    destruct (pingAndCheckNodeTraffic env (srcNodeConfig config)
                (dstNodeConfig config) (negb first) w1) as [[e|] w2];
      simpl in Hl2, Ht2 |- *; exists (l1 ++ l2);
      (split; [now rewrite Hl2, Hl1, app_assoc|]); rewrite trials_app, Ht1, Ht2.
    + right; right. exists e. split; reflexivity.
    + right; left. split; reflexivity.
Qed.

Lemma deferredCleanup_no_trial (env : Env) (config : testConfig)
    (err : option error) (w : World) :
  exists added,
    log (snd (deferredCleanup env config err w)) = log w ++ added
    /\ trials added = [].
Proof.
  unfold deferredCleanup, cleanupTestPods, ExpectNoError, pass, failNode.
  destruct err; [destruct (negb (DeleteNamespaceOnFailure env))|];
    try (exists []; simpl; rewrite app_nil_r; split; reflexivity);
    destruct (cleanupTestPodsResp env (seq w)); simpl;
    eexists; split; reflexivity.
Qed.

Lemma withDeferred_trials (env : Env) (config : testConfig) (first : bool)
    (w : World) :
  let r := withDeferred (deferredCleanup env config) (trialPair env config first) w in
  exists added,
    log (snd r) = log w ++ added
    /\ ((exists e, trials added = [(first, Some e)]
                   /\ fst r = Failed (UnexpectedError e))
        \/ (trials added = [(first, None); (negb first, None)]
            /\ fst r = Failed ExpectedAnError)
        \/ (exists e, trials added = [(first, None); (negb first, Some e)])).
Proof.
  cbv zeta. unfold withDeferred.
  destruct (trialPair_trials env config first w) as (l1 & Hl1 & Hcases).
  destruct (trialPair env config first w) as [[v err] w1]. simpl in Hl1, Hcases.
  destruct (deferredCleanup_no_trial env config err w1) as (l2 & Hl2 & Ht2).
  destruct (deferredCleanup env config err w1) as [vd w2]. simpl in Hl2.
  exists (l1 ++ l2). rewrite trials_app, Ht2, app_nil_r.
  split.
  - destruct v; simpl; now rewrite Hl2, Hl1, app_assoc.
  - destruct Hcases as [(e & Ht & Hv)|[(Ht & Hv)|(e & Ht & Hv)]];
      injection Hv as -> ->.
    + left. exists e. split; [exact Ht|reflexivity].
    + right; left. split; [exact Ht|reflexivity].
    + right; right. exists e. exact Ht.
Qed.

Lemma checkTraffic_unfold (env : Env) (config : testConfig) (mode : IPsecMode)
    (w : World) :
  checkTraffic env config mode w
  = match setupTestPodsResp env (seq w) with
    | Passed None =>
        withDeferred (deferredCleanup env config)
          (trialPair env config (String.eqb mode IPsecModeFull))
          (logEvent (SetupTestPods (Passed None)) w)
    | Passed (Some e) =>
        (Failed (UnexpectedError e), logEvent (SetupTestPods (Passed (Some e))) w)
    | Failed f => (Failed f, logEvent (SetupTestPods (Failed f)) w)
    end.
Proof.
  unfold checkTraffic, checkForESPOnlyTraffic, checkForGeneveOnlyTraffic, andThen,
    setupTestPods.
  destruct (String.eqb mode IPsecModeFull);
    destruct (setupTestPodsResp env (seq w)) as [[e|]|f]; reflexivity.
Qed.

(** C2, as the code has it: a verification that passes has run exactly two
    trials, first the positive one for the signature of the mode (ESP for
    Full, Geneve for every other mode), which returned nil, then the
    negative control for the other signature, which returned an error.  A
    failing positive trial ends the verification, and a negative control that
    returns nil fails it. *)
Theorem checkTraffic_trials (env : Env) (config : testConfig) (mode : IPsecMode)
    (w : World) :
  let r := checkTraffic env config mode w in
  let esp := String.eqb mode IPsecModeFull in
  exists added,
    log (snd r) = log w ++ added
    /\ (fst r = Passed tt ->
        exists e, trials added = [(esp, None); (negb esp, Some e)])
    /\ (trials added = []
        \/ (exists e, trials added = [(esp, Some e)]
                      /\ fst r = Failed (UnexpectedError e))
        \/ (trials added = [(esp, None); (negb esp, None)]
            /\ fst r = Failed ExpectedAnError)
        \/ (exists e, trials added = [(esp, None); (negb esp, Some e)])).
Proof.
  cbv zeta. rewrite checkTraffic_unfold.
  destruct (setupTestPodsResp env (seq w)) as [[e|]|f].
  - eexists. split; [reflexivity|]. split; [discriminate|left; reflexivity].
  - set (w1 := logEvent (SetupTestPods (Passed None)) w).
    destruct (withDeferred_trials env config (String.eqb mode IPsecModeFull) w1)
      as (l & Hl & Hcases).
    exists (SetupTestPods (Passed None) :: l). split.
    + rewrite Hl. unfold w1; simpl. now rewrite <- app_assoc.
    + change (trials (SetupTestPods (Passed None) :: l)) with (trials l).
      split.
      * intros Hp.
        destruct Hcases as [(e & Ht & Hv)|[(Ht & Hv)|(e & Ht)]];
          try (rewrite Hv in Hp; discriminate Hp).
        exists e. exact Ht.
      * right. exact Hcases.
  - eexists. split; [reflexivity|]. split; [discriminate|left; reflexivity].
Qed.

Lemma checkTraffic_trials_witness :
  exists e,
    trials (log (snd (checkTraffic (onWire geneveWire PingSrcDst)
                        (pair IPsecModeExternal) IPsecModeExternal
                        (world fullRecord))))
    = [(false, None); (true, Some e)].
Proof.
  destruct (checkTraffic_trials (onWire geneveWire PingSrcDst)
              (pair IPsecModeExternal) IPsecModeExternal (world fullRecord))
    as (added & Hlog & Hpass & _).
  rewrite Hlog. change (log (world fullRecord) ++ added) with added.
  exact (Hpass eq_refl).
Defined.

(** C2 as stated fails for Full: a verification of Full mode that passes has
    run two trials, the positive one for ESP and a negative control for
    Geneve; and when the Geneve capture also finds its packet the
    verification fails. *)
Lemma checkTraffic_Full_runs_negative_control :
  (let r := checkTraffic (onWire espWire SrcPingDst) (pair IPsecModeFull)
              IPsecModeFull (world fullRecord) in
   fst r = Passed tt
   /\ map fst (trials (log (snd r))) = [true; false]
   /\ map fst (trials (log (snd r))) <> [true])
  /\ (let r := checkTraffic (onWire anyWire SrcPingDst) (pair IPsecModeFull)
                 IPsecModeFull (world fullRecord) in
      fst r = Failed ExpectedAnError
      /\ trials (log (snd r)) = [(true, None); (false, None)]).
Proof.
  cbv zeta.
  assert (H1 : map fst (trials (log (snd (checkTraffic (onWire espWire SrcPingDst)
                 (pair IPsecModeFull) IPsecModeFull (world fullRecord)))))
               = [true; false]) by (vm_compute; reflexivity).
  split; [split; [vm_compute; reflexivity|split; [exact H1|]]|].
  - rewrite H1. discriminate.
  - split; vm_compute; reflexivity.
Qed.

(** ** RolloutCoordinator: the teardown *)

Lemma keepsStore_bind {A B : Type} (c : Client A) (k : A -> Client B) :
  keepsStore c -> (forall a, keepsStore (k a)) -> keepsStore (bind c k).
Proof.
  intros Hc Hk w. unfold bind. specialize (Hc w).
  destruct (c w) as [a w1]. simpl in Hc. now rewrite Hk.
Qed.

Lemma keepsStore_andThen {A B : Type} (n : Node A) (k : A -> Node B) :
  keepsStore n -> (forall a, keepsStore (k a)) -> keepsStore (andThen n k).
Proof.
  intros Hn Hk w. unfold andThen. specialize (Hn w).
  destruct (n w) as [[a|f] w1]; simpl in Hn |- *; [now rewrite Hk|exact Hn].
Qed.

Lemma keepsStore_run {A : Type} (c : Client A) : keepsStore c -> keepsStore (run c).
Proof. intros Hc w. unfold run. specialize (Hc w). now destruct (c w). Qed.

Lemma keepsStore_ExpectNoError (err : option error) : keepsStore (ExpectNoError err).
Proof. intros w. now destruct err. Qed.

Lemma keepsStore_pollLoop (k interval rest : nat)
    (cond : Client (bool * option error)) :
  keepsStore cond -> keepsStore (pollLoop k interval rest cond).
Proof.
  intros Hc. induction k as [|k IH]; intros w; [reflexivity|].
  rewrite pollLoop_S. specialize (Hc (snd (sleep interval w))).
  destruct (cond (snd (sleep interval w))) as [[[|] [e|]] w'];
    simpl in Hc |- *; trivial.
  now rewrite IH.
Qed.

Lemma keepsStore_PollUntilContextTimeout (interval timeout : nat)
    (cond : Client (bool * option error)) :
  keepsStore cond -> keepsStore (PollUntilContextTimeout interval timeout true cond).
Proof.
  intros Hc w. unfold PollUntilContextTimeout, bind. pose proof (Hc w) as H.
  destruct (cond w) as [[[|] [e|]] w']; simpl in H |- *; trivial.
  now rewrite keepsStore_pollLoop.
Qed.

Lemma keepsStore_machineConfigRolloutProbe (env : Env) :
  keepsStore (machineConfigRolloutProbe env).
Proof. intros w. run_probe; reflexivity. Qed.

Lemma keepsStore_daemonSetRunningProbe (env : Env) :
  keepsStore (daemonSetRunningProbe env).
Proof. intros w. run_probe; reflexivity. Qed.

Lemma keepsStore_daemonSetAbsentProbe (env : Env) :
  keepsStore (daemonSetAbsentProbe env).
Proof. intros w. run_probe; reflexivity. Qed.

Create HintDb store.

#[local] Hint Resolve keepsStore_bind keepsStore_andThen keepsStore_run
  keepsStore_ExpectNoError keepsStore_PollUntilContextTimeout
  keepsStore_machineConfigRolloutProbe keepsStore_daemonSetRunningProbe
  keepsStore_daemonSetAbsentProbe : store.

Lemma keepsStore_waitForIPsecConfigToComplete (env : Env) (mode : IPsecMode) :
  keepsStore (waitForIPsecConfigToComplete env mode).
Proof.
  unfold waitForIPsecConfigToComplete, ensureIPsecDisabled, ensureIPsecEnabled,
    ensureIPsecMachineConfigRolloutComplete.
  repeat match goal with |- context [String.eqb ?a ?b] => destruct (String.eqb a b) end;
    try (intros w; reflexivity).
  - auto with store.
  - auto with store.
  - apply keepsStore_andThen; [|auto with store].
    apply keepsStore_run, keepsStore_bind; [auto with store|].
    intros [e|]; [intros w; reflexivity|auto with store].
Qed.

Lemma eventuallyLoop_S (k interval : nat) (f : Node bool) (w : World) :
  eventuallyLoop (S k) interval f w
  = match f (snd (sleep interval w)) with
    | (Passed true, w') => (Passed tt, w')
    | (Passed false, w') => eventuallyLoop k interval f w'
    | (Failed x, w') => (Failed x, w')
    end.
Proof.
  simpl. unfold andThen, run. simpl.
  destruct (f _) as [[[|]|x] w']; reflexivity.
Qed.

Lemma keepsStore_eventuallyLoop (k interval : nat) (f : Node bool) :
  keepsStore f -> keepsStore (eventuallyLoop k interval f).
Proof.
  intros Hf. induction k as [|k IH]; intros w; [reflexivity|].
  rewrite eventuallyLoop_S.
  specialize (Hf (snd (sleep interval w))).
  destruct (f (snd (sleep interval w))) as [[[|]|x] w']; simpl in Hf |- *; trivial.
  now rewrite IH.
Qed.

Lemma keepsStore_Eventually (f : Node bool) (timeout interval : nat) :
  keepsStore f -> keepsStore (Eventually f timeout interval).
Proof.
  intros Hf w. unfold Eventually, andThen. pose proof (Hf w) as H.
  destruct (f w) as [[[|]|x] w']; simpl in H |- *; trivial.
  now rewrite keepsStore_eventuallyLoop.
Qed.

Lemma keepsStore_workerPoolsSettled (env : Env) : keepsStore (workerPoolsSettled env).
Proof.
  intros w. unfold workerPoolsSettled, andThen, run, areWorkerMachineConfigPoolsReady.
  destruct (workerMachineConfigPoolsReadyResp env (seq w)) as [b [e|]]; reflexivity.
Qed.

Lemma keepsStore_ocDelete (env : Env) (file : string) : keepsStore (ocDelete env file).
Proof. intros w. reflexivity. Qed.

Lemma keepsStore_undeployNmstateHandler (env : Env) :
  keepsStore (undeployNmstateHandler env).
Proof. intros w. reflexivity. Qed.

Lemma keepsStore_deleteNSCertMachineConfig (env : Env) :
  keepsStore (deleteNSCertMachineConfig env).
Proof. intros w. reflexivity. Qed.

#[local] Hint Resolve keepsStore_ocDelete keepsStore_undeployNmstateHandler
  keepsStore_deleteNSCertMachineConfig keepsStore_waitForIPsecConfigToComplete
  keepsStore_Eventually keepsStore_workerPoolsSettled : store.

(** Whatever state the scenario left the store in, once the first step of
    the teardown has run on a store nobody else touches, the store holds the
    captured mode, and nothing later in the teardown changes it. *)
Lemma AfterEach_stored (env : Env) (config : testConfig) (w : World) :
  quietStore env ->
  holdsMode (stored (snd (AfterEach env config w))) (ipsecMode config) = true.
Proof.
  intros Hq. unfold AfterEach. rewrite andThen_run.
  rewrite (configureIPsecMode_quiet _ _ _ Hq).
  match goal with
  | |- context [andThen (ExpectNoError _) ?k] =>
      assert (Hk : keepsStore (andThen (ExpectNoError None) k))
        by (repeat first [ solve [auto with store]
                         | apply keepsStore_andThen
                         | match goal with |- forall _, _ => intro end ])
  end.
  destruct (holdsMode (stored w) (ipsecMode config)) eqn:Hh; simpl fst; simpl snd;
    rewrite Hk; simpl; [exact Hh|apply String.eqb_refl].
Qed.

Lemma extending_PollUntilContextTimeout (interval timeout : nat)
    (cond : Client (bool * option error)) :
  extending cond -> extending (PollUntilContextTimeout interval timeout true cond).
Proof.
  intros Hc w.
  assert (Ha : adding (fun _ => true) cond).
  { intros w'. destruct (Hc w') as (l & Hl). exists l. split; [exact Hl|].
    now apply forallb_forall. }
  destruct (PollUntilContextTimeout_adding (fun _ => true) interval timeout cond Ha
              (fun _ => eq_refl) w) as (l & Hl & _).
  now exists l.
Qed.

Lemma extending_ensure (env : Env) (cw : ConvergenceWait) : extending (ensure env cw).
Proof.
  destruct cw; simpl.
  - unfold ensureIPsecEnabled. apply extending_bind.
    + apply extending_PollUntilContextTimeout, machineConfigRolloutProbe_extending.
    + intros [e|]; [apply extending_ret|].
      apply extending_PollUntilContextTimeout, daemonSetRunningProbe_extending.
  - apply extending_PollUntilContextTimeout, machineConfigRolloutProbe_extending.
  - apply extending_PollUntilContextTimeout, daemonSetAbsentProbe_extending.
Qed.

Lemma extendingNode_waitForIPsecConfigToComplete (env : Env) (mode : IPsecMode) :
  extendingNode (waitForIPsecConfigToComplete env mode).
Proof.
  intros w. unfold waitForIPsecConfigToComplete, andThen, run.
  repeat match goal with |- context [String.eqb ?a ?b] => destruct (String.eqb a b) end.
  - destruct (extending_ensure env DisabledWait w) as (l & Hl). simpl in Hl.
    destruct (ensureIPsecDisabled env w) as [[e|] w']; now exists l.
  - destruct (extending_ensure env RolloutWait w) as (l & Hl). simpl in Hl.
    destruct (ensureIPsecMachineConfigRolloutComplete env w) as [[e|] w']; now exists l.
  - destruct (extending_ensure env EnabledWait w) as (l & Hl). simpl in Hl.
    destruct (ensureIPsecEnabled env w) as [[e|] w']; now exists l.
  - exists []. simpl. now rewrite app_nil_r.
Qed.

Lemma workerPoolsSettled_extending (env : Env) : extendingNode (workerPoolsSettled env).
Proof.
  intros w. unfold workerPoolsSettled, andThen, run, areWorkerMachineConfigPoolsReady.
  destruct (workerMachineConfigPoolsReadyResp env (seq w)) as [b [e|]];
    eexists; reflexivity.
Qed.

Lemma workerPoolsSettled_true (env : Env) (w w' : World) :
  workerPoolsSettled env w = (Passed true, w') ->
  log w' = log w ++ [WorkerMachineConfigPoolsReady nsCertMachineConfigName false
                       true None].
Proof.
  unfold workerPoolsSettled, andThen, run, areWorkerMachineConfigPoolsReady.
  destruct (workerMachineConfigPoolsReadyResp env (seq w)) as [b [e|]]; simpl;
    [discriminate|].
  intros H. injection H as -> <-. reflexivity.
Qed.

Lemma eventuallyLoop_passed (k interval : nat) (f : Node bool) :
  extendingNode f ->
  forall w,
    fst (eventuallyLoop k interval f w) = Passed tt ->
    exists w1 pre,
      log w1 = log w ++ pre
      /\ f w1 = (Passed true, snd (eventuallyLoop k interval f w)).
Proof.
  intros Hext. induction k as [|k IH]; intros w H; [discriminate H|].
  rewrite eventuallyLoop_S in H |- *.
  destruct (Hext (snd (sleep interval w))) as (l & Hl).
  destruct (f (snd (sleep interval w))) as [[[|]|x] w'] eqn:Hf; simpl in H, Hl;
    try discriminate H.
  - exists (snd (sleep interval w)), [Sleep interval]. split; [reflexivity|exact Hf].
  - destruct (IH w' H) as (w1 & pre & Hpre & Hrun).
    exists w1, ((Sleep interval :: l) ++ pre). split; [|exact Hrun].
    rewrite Hpre, Hl. simpl. now rewrite <- !app_assoc.
Qed.

(** An Eventually that passes returns from a run of its function that
    answered true. *)
Lemma Eventually_passed (f : Node bool) (timeout interval : nat) :
  extendingNode f ->
  forall w,
    fst (Eventually f timeout interval w) = Passed tt ->
    exists w1 pre,
      log w1 = log w ++ pre
      /\ f w1 = (Passed true, snd (Eventually f timeout interval w)).
Proof.
  intros Hext w H. unfold Eventually, andThen in H |- *.
  destruct (Hext w) as (l & Hl).
  destruct (f w) as [[[|]|x] w'] eqn:Hf; simpl in H, Hl; try discriminate H.
  - exists w, []. rewrite app_nil_r. split; [reflexivity|exact Hf].
  - destruct (eventuallyLoop_passed _ _ _ Hext w' H) as (w1 & pre & Hpre & Hrun).
    exists w1, (l ++ pre). split; [|exact Hrun]. now rewrite Hpre, Hl, app_assoc.
Qed.

Lemma AfterEach_unfold (env : Env) (config : testConfig) (w : World) :
  AfterEach env config w
  = let (e1, w1) := configureIPsecMode env (ipsecMode config) w in
    match e1 with
    | Some e => (Failed (UnexpectedError e), w1)
    | None =>
    match waitForIPsecConfigToComplete env (ipsecMode config) w1 with
    | (Failed f, w2) => (Failed f, w2)
    | (Passed _, w2) =>
    let e3 := ocDeleteResp env (seq w2) rightNodeIPsecConfigYaml in
    let w3 := logEvent (OcDelete rightNodeIPsecConfigYaml e3) w2 in
    match e3 with
    | Some e => (Failed (UnexpectedError e), w3)
    | None =>
    let e4 := ocDeleteResp env (seq w3) leftNodeIPsecConfigYaml in
    let w4 := logEvent (OcDelete leftNodeIPsecConfigYaml e4) w3 in
    match e4 with
    | Some e => (Failed (UnexpectedError e), w4)
    | None =>
    let e5 := undeployNmstateHandlerResp env (seq w4) in
    let w5 := logEvent (UndeployNmstateHandler e5) w4 in
    match e5 with
    | Some e => (Failed (UnexpectedError e), w5)
    | None =>
    let e6 := deleteNSCertMachineConfigResp env (seq w5) in
    let w6 := logEvent (DeleteNSCertMachineConfig e6) w5 in
    match e6 with
    | Some e => (Failed (UnexpectedError e), w6)
    | None =>
        Eventually (workerPoolsSettled env) ipsecRolloutWaitDuration
          ipsecRolloutWaitInterval w6
    end end end end end end.
Proof.
  unfold AfterEach. rewrite andThen_run.
  destruct (configureIPsecMode env (ipsecMode config) w) as [[e|] w1];
    [reflexivity|].
  simpl fst; simpl snd. cbv zeta.
  change (andThen (ExpectNoError None) ?k w1) with (k tt w1). cbv beta.
  unfold andThen at 1.
  destruct (waitForIPsecConfigToComplete env (ipsecMode config) w1) as [[[]|f] w2];
    [|reflexivity].
  rewrite andThen_run. unfold ocDelete at 1. simpl fst; simpl snd.
  destruct (ocDeleteResp env (seq w2) rightNodeIPsecConfigYaml); [reflexivity|].
  change (andThen (ExpectNoError None) ?k ?w) with (k tt w). cbv beta.
  rewrite andThen_run. unfold ocDelete at 1. simpl fst; simpl snd.
  destruct (ocDeleteResp env _ leftNodeIPsecConfigYaml); [reflexivity|].
  change (andThen (ExpectNoError None) ?k ?w) with (k tt w). cbv beta.
  rewrite andThen_run. unfold undeployNmstateHandler at 1. simpl fst; simpl snd.
  destruct (undeployNmstateHandlerResp env _); [reflexivity|].
  change (andThen (ExpectNoError None) ?k ?w) with (k tt w). cbv beta.
  rewrite andThen_run. unfold deleteNSCertMachineConfig at 1. simpl fst; simpl snd.
  destruct (deleteNSCertMachineConfigResp env _); reflexivity.
Qed.

(** A teardown that passes has, in this order: written or found in place the
    captured mode, waited for the cluster to converge on it, removed the right
    and the left node policy, the handler and the certificate machine config,
    each without error, and polled the worker pools until they reported the
    certificate machine config gone. *)
Lemma AfterEach_passed (env : Env) (config : testConfig) (w : World) :
  fst (AfterEach env config w) = Passed tt ->
  exists restore wait post,
    log (snd (AfterEach env config w))
    = log w ++ restore ++ wait ++ removals ++ post
        ++ [WorkerMachineConfigPoolsReady nsCertMachineConfigName false true None]
    /\ Rounds (ipsecMode config) (Steps DefaultRetry) restore None
    /\ log (snd (waitForIPsecConfigToComplete env (ipsecMode config)
                   (snd (configureIPsecMode env (ipsecMode config) w))))
       = (log w ++ restore) ++ wait
    /\ fst (waitForIPsecConfigToComplete env (ipsecMode config)
              (snd (configureIPsecMode env (ipsecMode config) w))) = Passed tt.
Proof.
  rewrite AfterEach_unfold.
  destruct (configureIPsecMode_rounds env (ipsecMode config) w) as (l1 & Hl1 & Hr1).
  destruct (configureIPsecMode env (ipsecMode config) w) as [[e|] w1];
    [discriminate|].
  cbn [fst snd] in *.
  destruct (extendingNode_waitForIPsecConfigToComplete env (ipsecMode config) w1)
    as (l2 & Hl2).
  destruct (waitForIPsecConfigToComplete env (ipsecMode config) w1) as [[[]|f] w2];
    [|discriminate].
  change (log w2 = log w1 ++ l2) in Hl2. change (log w1 = log w ++ l1) in Hl1.
  cbv zeta.
  destruct (ocDeleteResp env (seq w2) rightNodeIPsecConfigYaml); [discriminate|].
  destruct (ocDeleteResp env _ leftNodeIPsecConfigYaml); [discriminate|].
  destruct (undeployNmstateHandlerResp env _); [discriminate|].
  destruct (deleteNSCertMachineConfigResp env _); [discriminate|].
  intros Hp.
  destruct (Eventually_passed _ ipsecRolloutWaitDuration ipsecRolloutWaitInterval
              (workerPoolsSettled_extending env) _ Hp) as (w7 & post & Hpost & Hrun).
  apply workerPoolsSettled_true in Hrun.
  exists l1, l2, post. split; [|split; [exact Hr1|split; [|reflexivity]]].
  - rewrite Hrun, Hpost. unfold removals, logEvent. cbn [log].
    rewrite Hl2, Hl1, <- !app_assoc. reflexivity.
  - cbn [snd]. now rewrite Hl2, Hl1.
Qed.

Lemma getIPsecMode_nonempty (env : Env) (w : World) (m : IPsecMode) :
  fst (getIPsecMode env w) = (m, None) -> m <> "".
Proof.
  unfold getIPsecMode, bind, Networks_Get.
  destruct (networksGetErr env (seq (commitRival env w))); simpl; [discriminate|].
  destruct (ipsecConfig (stored (commitRival env w))) as [c|]; simpl.
  - destruct (String.eqb (Mode c) "") eqn:E; simpl; intros H; injection H as <-.
    + discriminate.
    + now apply String.eqb_neq.
  - intros H; injection H as <-. discriminate.
Qed.

Lemma getIPsecMode_holds (env : Env) (w : World) (m : IPsecMode) :
  quietStore env -> holdsMode (stored w) m = true -> m <> "" ->
  fst (getIPsecMode env w) = (m, None).
Proof.
  intros Hq Hh Hm. destruct (Hq (seq w)) as (Hg & _ & Hr).
  unfold getIPsecMode, bind. rewrite (Networks_Get_ok _ _ Hg).
  unfold served. rewrite (commitRival_quiet _ _ Hr). simpl.
  unfold holdsMode in Hh. destruct (ipsecConfig (stored w)) as [c|]; [|discriminate].
  apply String.eqb_eq in Hh. rewrite Hh.
  apply String.eqb_neq in Hm. rewrite Hm. reflexivity.
Qed.

Lemma runSpec_teardown (setup body teardown : Node unit) (w : World) :
  snd (runSpec setup body teardown w) = snd (teardown (snd ((setup >>> body) w))).
Proof.
  unfold runSpec. destruct ((setup >>> body) w) as [v w1]. simpl.
  destruct (teardown w1) as [vt w2]. now destruct v.
Qed.

(** C8: whatever the setup and the body of a scenario did, and whether they
    failed, the teardown runs after them, and on a store nobody else touches
    getIPsecMode then reports the mode BeforeAll captured; and a teardown that
    passes has restored that mode and waited for convergence on it, then
    removed the right and left node policies, the handler and the certificate
    machine config, and has returned only from a poll in which the worker
    pools reported that removal rolled out. *)
Theorem AfterEach_restores_and_removes (env : Env) (setup body : Node unit)
    (captured config : testConfig) (w0 w : World) :
  (quietStore env ->
   fst (BeforeAll env w0) = Passed captured ->
   ipsecMode config = ipsecMode captured ->
   fst (getIPsecMode env w0) = (ipsecMode captured, None)
   /\ fst (getIPsecMode env (snd (runSpec setup body (AfterEach env config) w)))
      = (ipsecMode captured, None))
  /\ (fst (AfterEach env config w) = Passed tt ->
      exists restore wait post,
        log (snd (AfterEach env config w))
        = log w ++ restore ++ wait ++ removals ++ post
            ++ [WorkerMachineConfigPoolsReady nsCertMachineConfigName false true None]
        /\ Rounds (ipsecMode config) (Steps DefaultRetry) restore None
        /\ log (snd (waitForIPsecConfigToComplete env (ipsecMode config)
                       (snd (configureIPsecMode env (ipsecMode config) w))))
           = (log w ++ restore) ++ wait
        /\ fst (waitForIPsecConfigToComplete env (ipsecMode config)
                  (snd (configureIPsecMode env (ipsecMode config) w))) = Passed tt).
Proof.
  split; [|apply AfterEach_passed].
  intros Hq Hb Hm.
  assert (Hcap : fst (getIPsecMode env w0) = (ipsecMode captured, None)).
  { unfold BeforeAll in Hb. rewrite andThen_run in Hb.
    destruct (getIPsecMode env w0) as [[m [e|]] w']; simpl in Hb |- *;
      [discriminate Hb|].
    injection Hb as <-. reflexivity. }
  split; [exact Hcap|].
  apply getIPsecMode_holds; trivial.
  - rewrite runSpec_teardown, <- Hm. now apply AfterEach_stored.
  - exact (getIPsecMode_nonempty _ _ _ Hcap).
Qed.

Lemma AfterEach_restores_and_removes_witness :
  let env := onWire espWire SrcDstPing in
  let w0 := world legacyRecord in
  let w1 := snd (BeforeAll env w0) in
  let body := checkTrafficEntry env (pair IPsecModeFull) IPsecModeExternal in
  let w2 := snd ((pass tt >>> body) w1) in
  fst (getIPsecMode env w0) = (IPsecModeFull, None)
  /\ fst (getIPsecMode env w2) = (IPsecModeExternal, None)
  /\ (exists e, fst (runSpec (pass tt) body (AfterEach env (pair IPsecModeFull)) w1)
                = Failed (UnexpectedError e))
  /\ fst (getIPsecMode env
            (snd (runSpec (pass tt) body (AfterEach env (pair IPsecModeFull)) w1)))
     = (IPsecModeFull, None)
  /\ exists restore wait post,
       log (snd (AfterEach env (pair IPsecModeFull) w2))
       = log w2 ++ restore ++ wait ++ removals ++ post
           ++ [WorkerMachineConfigPoolsReady nsCertMachineConfigName false true None].
Proof.
  cbv zeta.
  set (env := onWire espWire SrcDstPing).
  assert (Hq : quietStore env) by (intros n; repeat split).
  set (captured := {| ipsecMode := IPsecModeFull; srcNodeConfig := emptyNode;
                      dstNodeConfig := emptyNode |}).
  set (w1 := snd (BeforeAll env (world legacyRecord))).
  set (body := checkTrafficEntry env (pair IPsecModeFull) IPsecModeExternal).
  set (w2 := snd ((pass tt >>> body) w1)).
  destruct (proj1 (AfterEach_restores_and_removes env (pass tt) body captured
                     (pair IPsecModeFull) (world legacyRecord) w1)
              Hq eq_refl eq_refl) as (H0 & H1).
  split; [exact H0|]. split; [vm_compute; reflexivity|].
  split; [eexists; vm_compute; reflexivity|]. split; [exact H1|].
  assert (Hp : fst (AfterEach env (pair IPsecModeFull) w2) = Passed tt)
    by (vm_compute; reflexivity).
  destruct (proj2 (AfterEach_restores_and_removes env (pass tt) body captured
                     (pair IPsecModeFull) (world legacyRecord) w2) Hp)
    as (restore & wait & post & Hlog & _).
  exists restore, wait, post. exact Hlog.
Defined.

(* ================================================================== *)
(** * Further properties of the code *)

(** ** ModeStore *)

Lemma count_app (P : Event -> bool) (l l' : list Event) :
  count P (l ++ l') = count P l + count P l'.
Proof. unfold count. now rewrite filter_app, length_app. Qed.

(** X1: writing a mode and reading it back.  On a store nobody else touches,
    configureIPsecMode returns nil and getIPsecMode then returns the mode
    written, except for the empty mode, which reads back as Full. *)
Theorem configureIPsecMode_then_getIPsecMode (env : Env) (m : IPsecMode) (w : World) :
  quietStore env ->
  fst (configureIPsecMode env m w) = None
  /\ fst (getIPsecMode env (snd (configureIPsecMode env m w)))
     = (if String.eqb m "" then IPsecModeFull else m, None).
Proof.
  intros Hq.
  assert (H : fst (configureIPsecMode env m w) = None
              /\ holdsMode (stored (snd (configureIPsecMode env m w))) m = true).
  { rewrite (configureIPsecMode_quiet _ _ _ Hq).
    destruct (holdsMode (stored w) m) eqn:Hh; simpl; split; trivial.
    apply String.eqb_refl. }
  destruct H as (Hr & Hh). split; [exact Hr|].
  set (w1 := snd (configureIPsecMode env m w)) in *.
  destruct (Hq (seq w1)) as (Hg & _ & Hrv).
  rewrite (getIPsecMode_ok _ _ Hg). unfold served.
  rewrite (commitRival_quiet _ _ Hrv).
  unfold holdsMode in Hh. destruct (ipsecConfig (stored w1)) as [c|]; [|discriminate].
  apply String.eqb_eq in Hh. now rewrite Hh.
Qed.

Lemma configureIPsecMode_then_getIPsecMode_witness :
  fst (getIPsecMode calm
         (snd (configureIPsecMode calm IPsecModeExternal (world bareRecord))))
  = (IPsecModeExternal, None)
  /\ fst (getIPsecMode calm (snd (configureIPsecMode calm "" (world fullRecord))))
     = (IPsecModeFull, None).
Proof.
  assert (Hq : quietStore calm) by (intros n; repeat split).
  split.
  - exact (proj2 (configureIPsecMode_then_getIPsecMode calm IPsecModeExternal
                    (world bareRecord) Hq)).
  - exact (proj2 (configureIPsecMode_then_getIPsecMode calm "" (world fullRecord) Hq)).
Defined.

(** An attempt that returns nil leaves the store holding the mode. *)
Lemma configureIPsecModeAttempt_nil_holds (env : Env) (m : IPsecMode) (w : World) :
  fst (configureIPsecModeAttempt env m w) = None ->
  holdsMode (stored (snd (configureIPsecModeAttempt env m w))) m = true.
Proof.
  destruct (networksGetErr env (seq w)) as [e|] eqn:Hget.
  - unfold configureIPsecModeAttempt, bind.
    rewrite (Networks_Get_err _ _ _ Hget). discriminate.
  - rewrite (configureIPsecModeAttempt_ok _ _ _ Hget).
    destruct (holdsMode (served env w) m) eqn:Hh; [intros _; exact Hh|].
    unfold Networks_Update.
    destruct (networksUpdateErr env _); [discriminate|].
    destruct (Nat.eqb _ _); [|discriminate].
    intros _. simpl. apply String.eqb_refl.
Qed.

Lemma retryLoop_nil_holds (env : Env) (m : IPsecMode) (k : nat) :
  forall (last : option error) (w : World),
    fst (retryLoop (S k) last (configureIPsecModeAttempt env m) w) = None ->
    holdsMode (stored (snd (retryLoop (S k) last (configureIPsecModeAttempt env m) w))) m
    = true.
Proof.
  induction k as [|k IH]; intros last w; rewrite retryLoop_S;
    pose proof (configureIPsecModeAttempt_nil_holds env m w) as Ha;
    destruct (configureIPsecModeAttempt env m w) as [[e|] w1]; simpl in Ha;
    try (intros _; now apply Ha).
  - destruct (IsConflict e); discriminate.
  - destruct (IsConflict e); [apply IH|discriminate].
Qed.

Lemma configureIPsecMode_nil_holds (env : Env) (m : IPsecMode) (w : World) :
  fst (configureIPsecMode env m w) = None ->
  holdsMode (stored (snd (configureIPsecMode env m w))) m = true.
Proof. exact (retryLoop_nil_holds env m 4 None w). Qed.

Lemma Round_counts (m : IPsecMode) (l : list Event) (r : option error) :
  Round m l r -> count isRead l = 1 /\ updates l <= 1.
Proof. intros []; split; unfold count, updates; simpl; lia. Qed.

Lemma Rounds_counts (m : IPsecMode) (k : nat) (l : list Event) (r : option error) :
  Rounds m k l r ->
  1 <= count isRead l <= k
  /\ updates l <= count isRead l
  /\ (forall e, r = Some e -> IsConflict e = true -> count isRead l = k).
Proof.
  induction 1 as [k l r Hr Hc|l e Hr Hc|k l l' e r Hr Hc Hrs IH].
  - destruct (Round_counts _ _ _ Hr) as (H1 & H2). repeat split; try lia.
    intros e -> He. congruence.
  - destruct (Round_counts _ _ _ Hr) as (H1 & H2). repeat split; try lia.
  - destruct (Round_counts _ _ _ Hr) as (H1 & H2).
    destruct IH as (H3 & H4 & H5).
    rewrite count_app, updates_app. repeat split; try lia.
    intros e' He' Hc'. specialize (H5 e' He' Hc'). lia.
Qed.

(** X2: whatever faults and concurrent writers the store has, one call of
    configureIPsecMode reads the record at least once and at most five times
    and writes no more often than it reads; when it returns nil the store
    holds the requested mode at that moment; and when it returns a conflict it
    has used up all five attempts. *)
Theorem configureIPsecMode_outcome (env : Env) (m : IPsecMode) (w : World) :
  exists added,
    log (snd (configureIPsecMode env m w)) = log w ++ added
    /\ 1 <= count isRead added <= 5
    /\ updates added <= count isRead added
    /\ (fst (configureIPsecMode env m w) = None ->
        holdsMode (stored (snd (configureIPsecMode env m w))) m = true)
    /\ (forall e, fst (configureIPsecMode env m w) = Some e ->
        IsConflict e = true -> count isRead added = 5).
Proof.
  destruct (configureIPsecMode_rounds env m w) as (l & Hl & Hr).
  destruct (Rounds_counts _ _ _ _ Hr) as (H1 & H2 & H3).
  exists l. repeat split; trivial; try apply H1.
  apply configureIPsecMode_nil_holds.
Qed.

Lemma configureIPsecMode_outcome_witness :
  (exists e, fst (configureIPsecMode contended IPsecModeFull (world bareRecord)) = Some e
             /\ IsConflict e = true)
  /\ count isRead (log (snd (configureIPsecMode contended IPsecModeFull
                                (world bareRecord)))) = 5
  /\ holdsMode (stored (snd (configureIPsecMode calm IPsecModeFull (world bareRecord))))
       IPsecModeFull = true.
Proof.
  destruct (configureIPsecMode_outcome contended IPsecModeFull (world bareRecord))
    as (added & Hlog & _ & _ & _ & Hc).
  destruct (configureIPsecMode_outcome calm IPsecModeFull (world bareRecord))
    as (_ & _ & _ & _ & Hn & _).
  split; [exists errConflict; split; reflexivity|].
  split; [|exact (Hn eq_refl)].
  rewrite Hlog. exact (Hc errConflict eq_refl eq_refl).
Defined.

(** X3: getIPsecMode issues one Get and nothing else, leaves the record as it
    was served, and a mode it returns without error is never the empty
    string. *)
Theorem getIPsecMode_single_read (env : Env) (w : World) :
  log (snd (getIPsecMode env w)) = log w ++ [NetworksGet (snd (fst (getIPsecMode env w)))]
  /\ stored (snd (getIPsecMode env w)) = served env w
  /\ (forall m, fst (getIPsecMode env w) = (m, None) -> m <> "").
Proof.
  split; [|split].
  - unfold getIPsecMode, bind, Networks_Get.
    destruct (networksGetErr env (seq (commitRival env w))); simpl;
      now rewrite log_commitRival.
  - unfold getIPsecMode, bind, Networks_Get, served.
    destruct (networksGetErr env (seq (commitRival env w))); reflexivity.
  - intros m. apply getIPsecMode_nonempty.
Qed.

Lemma getIPsecMode_single_read_witness :
  fst (fst (getIPsecMode calm (world legacyRecord))) <> "".
Proof.
  exact (proj2 (proj2 (getIPsecMode_single_read calm (world legacyRecord)))
           IPsecModeFull eq_refl).
Defined.

(** ** FleetConvergenceChecker *)

(** Whatever holds of the stretch of log one run of the condition adds, and
    of a sleep, and is kept by putting stretches one after the other, holds of
    what a poll adds. *)
Lemma pollLoop_segments (Q : list Event -> Prop) (k interval rest : nat)
    (cond : Client (bool * option error)) :
  (forall l l', Q l -> Q l' -> Q (l ++ l')) ->
  (forall d, Q [Sleep d]) ->
  (forall w, exists l, log (snd (cond w)) = log w ++ l /\ Q l) ->
  forall w, exists l,
    log (snd (pollLoop k interval rest cond w)) = log w ++ l /\ Q l.
Proof.
  intros Happ Hs Hc. induction k as [|k IH]; intros w.
  - exists [Sleep rest]. split; [reflexivity|apply Hs].
  - rewrite pollLoop_S.
    destruct (Hc (snd (sleep interval w))) as (l & Hl & HQ).
    assert (HQ1 : Q ([Sleep interval] ++ l)) by (apply Happ; [apply Hs|exact HQ]).
    destruct (cond (snd (sleep interval w))) as [[[|] [e|]] w'];
      simpl in Hl |- *;
      try (exists ([Sleep interval] ++ l); split; [|exact HQ1];
           rewrite Hl, <- app_assoc; reflexivity).
    destruct (IH w') as (l' & Hl' & HQ').
    exists (([Sleep interval] ++ l) ++ l'). split; [|now apply Happ].
    rewrite Hl', Hl, <- !app_assoc. reflexivity.
Qed.

Lemma PollUntilContextTimeout_segments (Q : list Event -> Prop)
    (interval timeout : nat) (cond : Client (bool * option error)) :
  (forall l l', Q l -> Q l' -> Q (l ++ l')) ->
  (forall d, Q [Sleep d]) ->
  (forall w, exists l, log (snd (cond w)) = log w ++ l /\ Q l) ->
  forall w, exists l,
    log (snd (PollUntilContextTimeout interval timeout true cond w)) = log w ++ l
    /\ Q l.
Proof.
  intros Happ Hs Hc w. unfold PollUntilContextTimeout, bind.
  destruct (Hc w) as (l & Hl & HQ).
  destruct (cond w) as [[[|] [e|]] w']; simpl in Hl |- *;
    try (exists l; split; assumption).
  destruct (pollLoop_segments Q ((timeout - 1) / interval) interval
              (timeout - (timeout - 1) / interval * interval) cond Happ Hs Hc w')
    as (l' & Hl' & HQ').
  exists (l ++ l'). split; [|now apply Happ].
  now rewrite Hl', Hl, app_assoc.
Qed.

Lemma guarded_weaken (ok : Event -> bool) (p : option Event) (l : list Event) :
  guarded ok None l = true -> guarded ok p l = true.
Proof.
  destruct l as [|ev l]; [reflexivity|]. simpl.
  destruct (isOperatorCheck ev); [discriminate|]. trivial.
Qed.

Lemma guarded_app (ok : Event -> bool) (l l' : list Event) :
  forall p, guarded ok p l = true -> guarded ok None l' = true ->
            guarded ok p (l ++ l') = true.
Proof.
  induction l as [|ev l IH]; intros p H H'.
  - now apply guarded_weaken.
  - simpl in H |- *. apply andb_true_iff in H as (H1 & H2).
    rewrite H1. simpl. now apply IH.
Qed.

Lemma probes_guarded (env : Env) (cw : ConvergenceWait)
    (p : Client (bool * option error)) (w : World) :
  In p (probesOf env cw) ->
  exists l, log (snd (p w)) = log w ++ l /\ guarded (readyFor cw) None l = true.
Proof.
  intros Hin.
  destruct cw; simpl in Hin;
    repeat match goal with
           | H : _ \/ _ |- _ => destruct H as [<-|H]
           | H : False |- _ => destruct H
           end.
  all: run_probe; rewrite <- ?app_assoc; eexists; (split; [reflexivity|]);
    simpl;
    repeat match goal with
           | H : ?x = _ |- context [?x] => rewrite H
           end;
    reflexivity.
Qed.

(** X4: in every convergence wait the operators are asked only right after
    the structural check of that wait reported ready in the same run of the
    condition: pools rolled out, the daemonset handed back with as many pods
    ready as desired, or the daemonset absent.  No operator check comes first,
    follows a sleep, or follows another operator check. *)
Theorem ensure_asks_operators_after_structure (env : Env) (cw : ConvergenceWait)
    (w : World) :
  exists added,
    log (snd (ensure env cw w)) = log w ++ added
    /\ guarded (readyFor cw) None added = true.
Proof.
  set (Q := fun l => guarded (readyFor cw) None l = true).
  assert (Happ : forall l l', Q l -> Q l' -> Q (l ++ l'))
    by (intros l l' H H'; now apply guarded_app).
  assert (Hs : forall d, Q [Sleep d]) by reflexivity.
  assert (Hp : forall p, In p (probesOf env cw) ->
                 forall w', exists l, log (snd (p w')) = log w' ++ l /\ Q l)
    by (intros p Hin w'; now apply (probes_guarded env cw)).
  destruct cw; simpl in Hp |- *.
  - unfold ensureIPsecEnabled, bind.
    destruct (PollUntilContextTimeout_segments Q ipsecRolloutWaitInterval
                ipsecRolloutWaitDuration _ Happ Hs
                (Hp _ (or_introl eq_refl)) w) as (l1 & Hl1 & HQ1).
    fold (ensureIPsecMachineConfigRolloutComplete env) in Hl1.
    destruct (ensureIPsecMachineConfigRolloutComplete env w) as [[e|] w1];
      cbn [snd] in Hl1; cbv beta iota zeta; [exists l1; split; assumption|].
    destruct (PollUntilContextTimeout_segments Q ipsecRolloutWaitInterval
                ipsecRolloutWaitDuration _ Happ Hs
                (Hp _ (or_intror (or_introl eq_refl))) w1) as (l2 & Hl2 & HQ2).
    exists (l1 ++ l2). split; [now rewrite Hl2, Hl1, app_assoc|now apply Happ].
  - apply (PollUntilContextTimeout_segments Q); auto.
  - apply (PollUntilContextTimeout_segments Q); auto.
Qed.

Lemma pollLoop_count (P : Event -> bool) (c k interval rest : nat)
    (cond : Client (bool * option error)) :
  (forall d, P (Sleep d) = false) ->
  (forall w, exists l, log (snd (cond w)) = log w ++ l /\ count P l <= c) ->
  forall w, exists l,
    log (snd (pollLoop k interval rest cond w)) = log w ++ l /\ count P l <= k * c.
Proof.
  intros Hs Hc. induction k as [|k IH]; intros w.
  - exists [Sleep rest]. split; [reflexivity|]. unfold count; simpl. now rewrite Hs.
  - rewrite pollLoop_S.
    destruct (Hc (snd (sleep interval w))) as (l & Hl & Hn).
    assert (Hn1 : count P ([Sleep interval] ++ l) <= c).
    { rewrite count_app. unfold count at 1; simpl. rewrite Hs. simpl. exact Hn. }
    destruct (cond (snd (sleep interval w))) as [[[|] [e|]] w'];
      simpl in Hl |- *;
      try (exists ([Sleep interval] ++ l); split; [|lia];
           rewrite Hl, <- app_assoc; reflexivity).
    destruct (IH w') as (l' & Hl' & Hn').
    exists (([Sleep interval] ++ l) ++ l'). split.
    + rewrite Hl', Hl, <- !app_assoc. reflexivity.
    + rewrite count_app. lia.
Qed.

Lemma PollUntilContextTimeout_count (P : Event -> bool) (c interval timeout : nat)
    (cond : Client (bool * option error)) :
  (forall d, P (Sleep d) = false) ->
  (forall w, exists l, log (snd (cond w)) = log w ++ l /\ count P l <= c) ->
  forall w, exists l,
    log (snd (PollUntilContextTimeout interval timeout true cond w)) = log w ++ l
    /\ count P l <= S ((timeout - 1) / interval) * c.
Proof.
  intros Hs Hc w. unfold PollUntilContextTimeout, bind.
  destruct (Hc w) as (l & Hl & Hn).
  destruct (cond w) as [[[|] [e|]] w']; simpl in Hl |- *;
    try (exists l; split; [assumption|lia]).
  destruct (pollLoop_count P c ((timeout - 1) / interval) interval
              (timeout - (timeout - 1) / interval * interval) cond Hs Hc w')
    as (l' & Hl' & Hn').
  exists (l ++ l'). split; [now rewrite Hl', Hl, app_assoc|].
  rewrite count_app. lia.
Qed.

Lemma pollLoop_now_ub (k interval rest : nat) (cond : Client (bool * option error)) :
  instant cond ->
  forall w, now (snd (pollLoop k interval rest cond w)) <= now w + k * interval + rest.
Proof.
  intros Hi. induction k as [|k IH]; intros w.
  - simpl. lia.
  - rewrite pollLoop_S. pose proof (Hi (snd (sleep interval w))) as Hn.
    destruct (cond (snd (sleep interval w))) as [[[|] [e|]] w'];
      simpl in Hn |- *; try lia.
    specialize (IH w'). lia.
Qed.

Lemma PollUntilContextTimeout_now_ub (interval timeout : nat)
    (cond : Client (bool * option error)) :
  instant cond ->
  forall w,
    now (snd (PollUntilContextTimeout interval timeout true cond w)) <= now w + timeout.
Proof.
  intros Hi w. unfold PollUntilContextTimeout, bind.
  pose proof (Hi w) as Hn.
  destruct (cond w) as [[[|] [e|]] w']; simpl in Hn |- *; try lia.
  pose proof (pollLoop_now_ub ((timeout - 1) / interval) interval
                (timeout - (timeout - 1) / interval * interval) cond Hi w').
  pose proof (Nat.Div0.mul_div_le (timeout - 1) interval). lia.
Qed.

Lemma machineConfigRolloutProbe_counts (env : Env) (w : World) :
  exists l, log (snd (machineConfigRolloutProbe env w)) = log w ++ l
            /\ count isMachineConfigCheck l <= 1 /\ count isDaemonSetLookup l <= 0.
Proof.
  run_probe; rewrite <- ?app_assoc; eexists; (split; [reflexivity|]);
    unfold count; simpl; lia.
Qed.

Lemma daemonSetRunningProbe_counts (env : Env) (w : World) :
  exists l, log (snd (daemonSetRunningProbe env w)) = log w ++ l
            /\ count isMachineConfigCheck l <= 0 /\ count isDaemonSetLookup l <= 1.
Proof.
  run_probe; rewrite <- ?app_assoc; eexists; (split; [reflexivity|]);
    unfold count; simpl; lia.
Qed.

Lemma daemonSetAbsentProbe_counts (env : Env) (w : World) :
  exists l, log (snd (daemonSetAbsentProbe env w)) = log w ++ l
            /\ count isMachineConfigCheck l <= 0 /\ count isDaemonSetLookup l <= 1.
Proof.
  run_probe; rewrite <- ?app_assoc; eexists; (split; [reflexivity|]);
    unfold count; simpl; lia.
Qed.

(** The same stretch of log, named twice. *)
Lemma same_added (w w' : World) (l l' : list Event) :
  log w' = log w ++ l -> log w' = log w ++ l' -> l = l'.
Proof. intros H H'. rewrite H in H'. now apply app_inv_head in H'. Qed.

(** One poll of a condition that asks the pools at most [a] times and looks
    the daemonset up at most [b] times per run. *)
Lemma poll_bounded (cond : Client (bool * option error)) (a b : nat) :
  (forall w, exists l, log (snd (cond w)) = log w ++ l
                       /\ count isMachineConfigCheck l <= a
                       /\ count isDaemonSetLookup l <= b) ->
  instant cond -> keepsStore cond ->
  forall w, exists l,
    let w' := snd (PollUntilContextTimeout ipsecRolloutWaitInterval
                     ipsecRolloutWaitDuration true cond w) in
    log w' = log w ++ l
    /\ count isMachineConfigCheck l <= 20 * a
    /\ count isDaemonSetLookup l <= 20 * b
    /\ now w <= now w' <= now w + ipsecRolloutWaitDuration
    /\ stored w' = stored w.
Proof.
  intros Hc Hi Hk w.
  destruct (PollUntilContextTimeout_count isMachineConfigCheck a
              ipsecRolloutWaitInterval ipsecRolloutWaitDuration cond
              (fun _ => eq_refl)) with (w := w) as (l & Hl & Hn).
  { intros w0. destruct (Hc w0) as (l & Hl & H1 & _). now exists l. }
  destruct (PollUntilContextTimeout_count isDaemonSetLookup b
              ipsecRolloutWaitInterval ipsecRolloutWaitDuration cond
              (fun _ => eq_refl)) with (w := w) as (l' & Hl' & Hn').
  { intros w0. destruct (Hc w0) as (l0 & Hl0 & _ & H2). now exists l0. }
  rewrite (same_added _ _ _ _ Hl' Hl) in Hn'.
  exists l. cbv zeta. split; [exact Hl|].
  split; [exact Hn|]. split; [exact Hn'|]. split; [split|].
  - now apply PollUntilContextTimeout_now_le.
  - now apply PollUntilContextTimeout_now_ub.
  - now apply keepsStore_PollUntilContextTimeout.
Qed.


(** X6: the enabled wait looks at the daemonset only once the rollout poll has
    returned nil.  Whatever the cluster answers, what the wait logs splits into
    a rollout stretch without any daemonset lookup followed by a stretch
    without any pool check; an error of the rollout poll is returned as it is
    with nothing after it, and a daemonset stretch that is not empty follows a
    rollout stretch ending in pools rolled out and operators ready. *)
Theorem ensureIPsecEnabled_rollout_first (env : Env) (w : World) :
  exists rollout lookups,
    log (snd (ensureIPsecEnabled env w)) = log w ++ rollout ++ lookups
    /\ log (snd (ensureIPsecMachineConfigRolloutComplete env w)) = log w ++ rollout
    /\ count isDaemonSetLookup rollout = 0
    /\ count isMachineConfigCheck lookups = 0
    /\ (forall e, fst (ensureIPsecMachineConfigRolloutComplete env w) = Some e ->
          lookups = [] /\ fst (ensureIPsecEnabled env w) = Some e)
    /\ (lookups <> [] ->
          exists pre e1 e2,
            rollout = pre ++ [MachineConfigPoolsReadyWithIPsec true e1;
                              ClusterOperatorsReady true e2]).
Proof.
  pose proof (poll_bounded (machineConfigRolloutProbe env) 1 0
                (machineConfigRolloutProbe_counts env)
                (machineConfigRolloutProbe_instant env)
                (keepsStore_machineConfigRolloutProbe env) w) as (l & Hl & _ & H2 & _).
  pose proof (PollUntilContextTimeout_converged ipsecRolloutWaitInterval
                ipsecRolloutWaitDuration (machineConfigRolloutProbe env)
                (machineConfigRolloutProbe_extending env) w) as Hconv.
  cbv zeta in Hl.
  unfold ensureIPsecEnabled, ensureIPsecMachineConfigRolloutComplete, bind.
  destruct (PollUntilContextTimeout ipsecRolloutWaitInterval
              ipsecRolloutWaitDuration true (machineConfigRolloutProbe env) w)
    as [[e|] w1]; cbn [fst snd] in *.
  - exists l, []. unfold ret; cbn [fst snd]. rewrite app_nil_r.
    split; [exact Hl|]. split; [exact Hl|]. split; [lia|].
    split; [reflexivity|]. split; [|congruence].
    intros e' [= <-]. split; reflexivity.
  - pose proof (poll_bounded (daemonSetRunningProbe env) 0 1
                  (daemonSetRunningProbe_counts env)
                  (daemonSetRunningProbe_instant env)
                  (keepsStore_daemonSetRunningProbe env) w1) as (l' & Hl' & H1' & _).
    cbv zeta in Hl'.
    exists l, l'. split; [now rewrite Hl', Hl, app_assoc|].
    split; [exact Hl|]. split; [lia|]. split; [lia|].
    split; [intros e' H; discriminate H|]. intros _.
    destruct (Hconv eq_refl) as (w0 & pre & Hpre & Hrun).
    destruct (machineConfigRolloutProbe_true env w0 w1 Hrun) as (e1 & e2 & Hlast).
    exists pre, e1, e2. rewrite Hpre, Hl, <- app_assoc in Hlast.
    now apply app_inv_head in Hlast.
Qed.

Lemma pingAndCheckNodeTraffic_no_cleanup (env : Env) (src dst : testNodeConfig)
    (ipsecTraffic : bool) (w : World) :
  exists added,
    log (snd (pingAndCheckNodeTraffic env src dst ipsecTraffic w)) = log w ++ added
    /\ trials added
       = [(ipsecTraffic, fst (pingAndCheckNodeTraffic env src dst ipsecTraffic w))]
    /\ count isCleanup added = 0.
Proof.
  run_trial.
  all: rewrite <- ?app_assoc; simpl.
  all: eexists; (split; [reflexivity|]); split; reflexivity.
Qed.

(** The two trials of a check delete nothing, at least one of them returns,
    and [err] is left nil exactly when both returned nil. *)
Lemma trialPair_err (env : Env) (config : testConfig) (first : bool) (w : World) :
  let r := trialPair env config first w in
  exists added,
    log (snd r) = log w ++ added
    /\ count isCleanup added = 0
    /\ trials added <> []
    /\ (snd (fst r) = None <-> trialErrors added = [None; None])
    /\ (fst (fst r) = Passed tt -> snd (fst r) <> None).
Proof.
  cbv zeta. unfold trialPair, trialErrors.
  destruct (pingAndCheckNodeTraffic_no_cleanup env (srcNodeConfig config)
              (dstNodeConfig config) first w) as (l1 & Hl1 & Ht1 & Hc1).
  destruct (pingAndCheckNodeTraffic env (srcNodeConfig config)
              (dstNodeConfig config) first w) as [[e|] w1]; cbn [fst snd] in *.
  - exists l1. rewrite Ht1. split; [exact Hl1|]. split; [exact Hc1|].
    split; [discriminate|]. split; [split; discriminate|discriminate].
  - destruct (pingAndCheckNodeTraffic_no_cleanup env (srcNodeConfig config)
                (dstNodeConfig config) (negb first) w1) as (l2 & Hl2 & Ht2 & Hc2).
    destruct (pingAndCheckNodeTraffic env (srcNodeConfig config)
                (dstNodeConfig config) (negb first) w1) as [[e|] w2];
      cbn [fst snd] in *; exists (l1 ++ l2);
      rewrite trials_app, count_app, Ht1, Ht2, Hc1, Hc2;
      (split; [now rewrite Hl2, Hl1, app_assoc|]); (split; [reflexivity|]);
      (split; [discriminate|]).
    + split; [split; discriminate|discriminate].
    + split; [split; reflexivity|discriminate].
Qed.

(** X7: when a traffic check deletes its pods.  The four test pods are deleted
    at most once, as the last thing the check does, and exactly when the
    trials were reached (the pods were set up without error) and either
    DeleteNamespaceOnFailure is set or both trials returned nil, the negative
    control included.  So with DeleteNamespaceOnFailure unset a check that
    passes leaves its pods in place, as does one whose positive trial
    failed. *)
Theorem checkTraffic_cleanup (env : Env) (config : testConfig) (mode : IPsecMode)
    (w : World) :
  let r := checkTraffic env config mode w in
  exists added,
    log (snd r) = log w ++ added
    /\ count isCleanup added <= 1
    /\ (count isCleanup added = 1 <->
          trials added <> []
          /\ (DeleteNamespaceOnFailure env = true
              \/ trialErrors added = [None; None]))
    /\ (count isCleanup added = 1 ->
          exists body err, added = body ++ [CleanupTestPods err])
    /\ (fst r = Passed tt -> DeleteNamespaceOnFailure env = false ->
          count isCleanup added = 0).
Proof.
  cbv zeta. rewrite checkTraffic_unfold.
  destruct (setupTestPodsResp env (seq w)) as [[e|]|f].
  - exists [SetupTestPods (Passed (Some e))]. unfold count; simpl.
    split; [reflexivity|]. split; [lia|].
    split; [split; [discriminate|intros [H _]; now destruct H]|].
    split; [discriminate|reflexivity].
  - set (w1 := logEvent (SetupTestPods (Passed None)) w).
    unfold withDeferred.
    destruct (trialPair_err env config (String.eqb mode IPsecModeFull) w1)
      as (l & Hl & Hc & Hne & Herr & Hpass).
    destruct (trialPair env config (String.eqb mode IPsecModeFull) w1)
      as [[v err] w2]; cbn [fst snd] in *.
    assert (Hw1 : log w1 = log w ++ [SetupTestPods (Passed None)]) by reflexivity.
    assert (Hbody : log w2 = log w ++ (SetupTestPods (Passed None) :: l)).
    { rewrite Hl, Hw1, <- app_assoc. reflexivity. }
    assert (Htr : trials (SetupTestPods (Passed None) :: l) = trials l) by reflexivity.
    assert (Hcnt : count isCleanup (SetupTestPods (Passed None) :: l) = 0)
      by (unfold count in Hc |- *; simpl; exact Hc).
    unfold deferredCleanup, cleanupTestPods.
    destruct err as [e|]; [destruct (DeleteNamespaceOnFailure env) eqn:Hflag|];
      cbn [negb].
    + (* err set, pods deleted on failure *)
      set (ce := cleanupTestPodsResp env (seq w2)).
      exists ((SetupTestPods (Passed None) :: l) ++ [CleanupTestPods ce]).
      unfold trialErrors in *. rewrite trials_app, count_app, Htr, Hcnt.
      change (trials [CleanupTestPods ce]) with (@nil (bool * option error)).
      rewrite app_nil_r.
      split.
      { destruct v, ce; unfold ExpectNoError, pass, failNode; cbn [fst snd logEvent log];
          rewrite Hbody, <- app_assoc; reflexivity. }
      split; [unfold count; simpl; lia|].
      split; [split; [intros _; split; [exact Hne|left; reflexivity]|reflexivity]|].
      split; [intros _; do 2 eexists; reflexivity|discriminate].
    + (* err set, pods kept *)
      exists (SetupTestPods (Passed None) :: l).
      unfold trialErrors in *. rewrite Htr, Hcnt.
      split; [destruct v; unfold pass; cbn [fst snd]; exact Hbody|].
      split; [lia|].
      split.
      { split; [discriminate|]. intros [_ [H|H]]; [discriminate H|].
        apply Herr in H. discriminate H. }
      split; [discriminate|reflexivity].
    + (* err nil: both trials returned nil *)
      set (ce := cleanupTestPodsResp env (seq w2)).
      exists ((SetupTestPods (Passed None) :: l) ++ [CleanupTestPods ce]).
      unfold trialErrors in *. rewrite trials_app, count_app, Htr, Hcnt.
      change (trials [CleanupTestPods ce]) with (@nil (bool * option error)).
      rewrite app_nil_r.
      split.
      { destruct v, ce; unfold ExpectNoError, pass, failNode; cbn [fst snd logEvent log];
          rewrite Hbody, <- app_assoc; reflexivity. }
      split; [unfold count; simpl; lia|].
      split.
      { split; [|reflexivity]. intros _. split; [exact Hne|right].
        now apply Herr. }
      split; [intros _; do 2 eexists; reflexivity|].
      intros Hp. destruct v as [[]|f]; [|destruct ce; discriminate Hp].
      now destruct (Hpass eq_refl).
  - exists [SetupTestPods (Failed f)]. unfold count; simpl.
    split; [reflexivity|]. split; [lia|].
    split; [split; [discriminate|intros [H _]; now destruct H]|].
    split; [discriminate|reflexivity].
Qed.

(** ** RolloutCoordinator: one table entry *)

Lemma probes_wait_events (env : Env) (cw : ConvergenceWait)
    (p : Client (bool * option error)) :
  In p (probesOf env cw) -> adding isWaitEvent p.
Proof.
  intros Hin w.
  destruct cw; simpl in Hin;
    repeat match goal with
           | H : _ \/ _ |- _ => destruct H as [<-|H]
           | H : False |- _ => destruct H
           end.
  all: run_probe; rewrite <- ?app_assoc; eexists; split; reflexivity.
Qed.

Lemma ensure_wait_events (env : Env) (cw : ConvergenceWait) :
  adding isWaitEvent (ensure env cw).
Proof.
  pose proof (probes_wait_events env cw) as Hp.
  destruct cw; simpl in Hp |- *.
  - intros w. unfold ensureIPsecEnabled, ensureIPsecMachineConfigRolloutComplete, bind.
    destruct (PollUntilContextTimeout_adding isWaitEvent ipsecRolloutWaitInterval
                ipsecRolloutWaitDuration _ (Hp _ (or_introl eq_refl))
                (fun _ => eq_refl) w) as (l1 & Hl1 & H1).
    destruct (PollUntilContextTimeout ipsecRolloutWaitInterval
                ipsecRolloutWaitDuration true (machineConfigRolloutProbe env) w)
      as [[e|] w1]; cbn [snd] in Hl1; [exists l1; split; assumption|].
    destruct (PollUntilContextTimeout_adding isWaitEvent ipsecRolloutWaitInterval
                ipsecRolloutWaitDuration _ (Hp _ (or_intror (or_introl eq_refl)))
                (fun _ => eq_refl) w1) as (l2 & Hl2 & H2).
    exists (l1 ++ l2). rewrite Hl2, Hl1, app_assoc, forallb_app, H1, H2.
    split; reflexivity.
  - apply PollUntilContextTimeout_adding; auto.
  - apply PollUntilContextTimeout_adding; auto.
Qed.

Lemma waitForIPsecConfigToComplete_wait_events (env : Env) (mode : IPsecMode)
    (w : World) :
  exists l,
    log (snd (waitForIPsecConfigToComplete env mode w)) = log w ++ l
    /\ forallb isWaitEvent l = true.
Proof.
  unfold waitForIPsecConfigToComplete, andThen, run.
  repeat match goal with |- context [String.eqb ?a ?b] => destruct (String.eqb a b) end.
  - destruct (ensure_wait_events env DisabledWait w) as (l & Hl & H). simpl in Hl.
    destruct (ensureIPsecDisabled env w) as [[e|] w']; now exists l.
  - destruct (ensure_wait_events env RolloutWait w) as (l & Hl & H). simpl in Hl.
    destruct (ensureIPsecMachineConfigRolloutComplete env w) as [[e|] w']; now exists l.
  - destruct (ensure_wait_events env EnabledWait w) as (l & Hl & H). simpl in Hl.
    destruct (ensureIPsecEnabled env w) as [[e|] w']; now exists l.
  - exists []. simpl. now rewrite app_nil_r.
Qed.

Lemma wait_events_no_trial (l : list Event) :
  forallb isWaitEvent l = true -> trials l = [] /\ updates l = 0.
Proof.
  induction l as [|ev l IH]; [split; reflexivity|]. simpl.
  intros H. apply andb_true_iff in H as (H1 & H2). destruct (IH H2) as (Ht & Hu).
  destruct ev; try discriminate H1; split; assumption.
Qed.

Lemma Rounds_store_events (m : IPsecMode) (k : nat) (l : list Event)
    (r : option error) :
  Rounds m k l r -> forallb isStoreEvent l = true.
Proof.
  induction 1 as [k l r Hr Hc|l e Hr Hc|k l l' e r Hr Hc Hrs IH];
    try rewrite forallb_app, IH; destruct Hr; reflexivity.
Qed.

Lemma store_events_no_trial (l : list Event) :
  forallb isStoreEvent l = true -> trials l = [].
Proof.
  induction l as [|ev l IH]; [reflexivity|]. simpl.
  intros H. apply andb_true_iff in H as (H1 & H2).
  destruct ev; try discriminate H1; now apply IH.
Qed.

Lemma keepsStore_pingAndCheckNodeTraffic (env : Env) (src dst : testNodeConfig)
    (ipsecTraffic : bool) :
  keepsStore (pingAndCheckNodeTraffic env src dst ipsecTraffic).
Proof. intros w. run_trial; reflexivity. Qed.

Lemma keepsStore_deferredCleanup (env : Env) (config : testConfig)
    (err : option error) :
  keepsStore (deferredCleanup env config err).
Proof.
  intros w. unfold deferredCleanup, cleanupTestPods, ExpectNoError, pass, failNode.
  destruct err; [destruct (negb (DeleteNamespaceOnFailure env))|];
    try destruct (cleanupTestPodsResp env (seq w)); reflexivity.
Qed.

Lemma keepsStore_trialPair (env : Env) (config : testConfig) (first : bool) :
  keepsStore (trialPair env config first).
Proof.
  intros w. unfold trialPair.
  pose proof (keepsStore_pingAndCheckNodeTraffic env (srcNodeConfig config)
                (dstNodeConfig config) first w) as H1.
  destruct (pingAndCheckNodeTraffic env (srcNodeConfig config)
              (dstNodeConfig config) first w) as [[e|] w1]; cbn [snd] in H1.
  - exact H1.
  - pose proof (keepsStore_pingAndCheckNodeTraffic env (srcNodeConfig config)
                  (dstNodeConfig config) (negb first) w1) as H2.
    destruct (pingAndCheckNodeTraffic env (srcNodeConfig config)
                (dstNodeConfig config) (negb first) w1) as [[e|] w2];
      cbn [snd] in H2 |- *; congruence.
Qed.

Lemma keepsStore_checkTraffic (env : Env) (config : testConfig) (mode : IPsecMode) :
  keepsStore (checkTraffic env config mode).
Proof.
  intros w. rewrite checkTraffic_unfold.
  destruct (setupTestPodsResp env (seq w)) as [[e|]|f]; try reflexivity.
  unfold withDeferred.
  set (w1 := logEvent (SetupTestPods (Passed None)) w).
  pose proof (keepsStore_trialPair env config (String.eqb mode IPsecModeFull) w1) as H1.
  destruct (trialPair env config (String.eqb mode IPsecModeFull) w1) as [[v err] w2].
  pose proof (keepsStore_deferredCleanup env config err w2) as H2.
  destruct (deferredCleanup env config err w2) as [vd w3].
  cbn [snd] in H1, H2. destruct v; cbn [snd]; rewrite H2, H1; reflexivity.
Qed.

(** A check that passes has run the positive trial, which returned nil, and
    the negative control, which returned an error. *)
Lemma checkTraffic_passed (env : Env) (config : testConfig) (mode : IPsecMode)
    (w : World) :
  fst (checkTraffic env config mode w) = Passed tt ->
  exists added e,
    log (snd (checkTraffic env config mode w)) = log w ++ added
    /\ trials added = [(String.eqb mode IPsecModeFull, None);
                       (negb (String.eqb mode IPsecModeFull), Some e)].
Proof.
  rewrite checkTraffic_unfold.
  destruct (setupTestPodsResp env (seq w)) as [[e|]|f]; try discriminate.
  set (w1 := logEvent (SetupTestPods (Passed None)) w).
  destruct (withDeferred_trials env config (String.eqb mode IPsecModeFull) w1)
    as (l & Hl & Hcases).
  intros Hp.
  destruct Hcases as [(e & Ht & Hv)|[(Ht & Hv)|(e & Ht)]];
    try (rewrite Hv in Hp; discriminate Hp).
  exists (SetupTestPods (Passed None) :: l), e. split.
  - rewrite Hl. unfold w1; simpl. now rewrite <- app_assoc.
  - exact Ht.
Qed.



(** ** RolloutCoordinator: a teardown that fails *)

Lemma workerPoolsSettled_settle_events (env : Env) (w : World) :
  exists ev,
    log (snd (workerPoolsSettled env w)) = log w ++ [ev]
    /\ isWorkerPoolCheck ev = true.
Proof.
  unfold workerPoolsSettled, andThen, run, areWorkerMachineConfigPoolsReady.
  destruct (workerMachineConfigPoolsReadyResp env (seq w)) as [b [e|]];
    eexists; split; reflexivity.
Qed.

Lemma eventuallyLoop_settle_events (env : Env) (k interval : nat) (w : World) :
  exists l,
    log (snd (eventuallyLoop k interval (workerPoolsSettled env) w)) = log w ++ l
    /\ forallb isSettleEvent l = true.
Proof.
  revert w. induction k as [|k IH]; intros w.
  - exists []. simpl. now rewrite app_nil_r.
  - rewrite eventuallyLoop_S.
    destruct (workerPoolsSettled_settle_events env (snd (sleep interval w)))
      as (ev & Hl & Hev).
    assert (Hs : forallb isSettleEvent [Sleep interval; ev] = true)
      by (destruct ev; try discriminate Hev; reflexivity).
    destruct (workerPoolsSettled env (snd (sleep interval w))) as [[[|]|x] w'];
      cbn [snd] in Hl |- *;
      try (exists [Sleep interval; ev]; split; [|exact Hs];
           rewrite Hl; cbn [sleep snd log]; now rewrite <- app_assoc).
    destruct (IH w') as (l' & Hl' & H').
    exists ([Sleep interval; ev] ++ l'). rewrite forallb_app, Hs, H'.
    split; [|reflexivity].
    rewrite Hl', Hl. cbn [sleep snd log]. now rewrite <- !app_assoc.
Qed.

(** The final poll of the teardown asks the worker pools at once, and logs
    nothing but sleeps and such checks. *)
Lemma Eventually_settle_events (env : Env) (timeout interval : nat) (w : World) :
  exists ev l,
    log (snd (Eventually (workerPoolsSettled env) timeout interval w))
    = log w ++ ev :: l
    /\ isWorkerPoolCheck ev = true
    /\ forallb isSettleEvent l = true.
Proof.
  unfold Eventually, andThen.
  destruct (workerPoolsSettled_settle_events env w) as (ev & Hl & Hev).
  destruct (workerPoolsSettled env w) as [[[|]|x] w']; cbn [snd] in Hl |- *;
    try (exists ev, []; repeat split; assumption).
  destruct (eventuallyLoop_settle_events env ((timeout - 1) / interval) interval w')
    as (l' & Hl' & H').
  exists ev, l'. split; [|split; assumption].
  rewrite Hl', Hl, <- app_assoc. reflexivity.
Qed.

Lemma no_removal (P : Event -> bool) (l : list Event) :
  (forall ev, P ev = true -> isRemoval ev = false /\ isWorkerPoolCheck ev = false) ->
  forallb P l = true ->
  filter isRemoval l = [] /\ count isWorkerPoolCheck l = 0.
Proof.
  intros HP. induction l as [|ev l IH]; [split; reflexivity|]. simpl.
  intros H. apply andb_true_iff in H as (H1 & H2).
  destruct (HP ev H1) as (Hr & Hw). destruct (IH H2) as (IH1 & IH2).
  unfold count in *. simpl. rewrite Hr, Hw. split; assumption.
Qed.

Lemma store_events_no_removal (l : list Event) :
  forallb isStoreEvent l = true ->
  filter isRemoval l = [] /\ count isWorkerPoolCheck l = 0.
Proof.
  apply no_removal. intros ev H. destruct ev; try discriminate H; split; reflexivity.
Qed.

Lemma wait_events_no_removal (l : list Event) :
  forallb isWaitEvent l = true ->
  filter isRemoval l = [] /\ count isWorkerPoolCheck l = 0.
Proof.
  apply no_removal. intros ev H. destruct ev; try discriminate H; split; reflexivity.
Qed.

Lemma settle_events_no_removal (l : list Event) :
  forallb isSettleEvent l = true -> filter isRemoval l = [].
Proof.
  induction l as [|ev l IH]; [reflexivity|]. simpl.
  intros H. apply andb_true_iff in H as (H1 & H2).
  destruct ev; try discriminate H1; now apply IH.
Qed.

(** X9: a teardown stops at its first failure.  Either the restore or its
    convergence wait failed, and then nothing was removed; or the first [k]
    removals were answered without error and the next was answered with an
    error, which is the last thing logged and the failure reported; or all four
    removals were answered without error, in the order right policy, left
    policy, handler, certificate machine config, and only then were the worker
    pools asked.  The worker pools are never asked in the first two cases. *)
Theorem AfterEach_stops_at_first_failure (env : Env) (config : testConfig)
    (w : World) :
  let r := AfterEach env config w in
  exists pre,
    filter isRemoval pre = [] /\ count isWorkerPoolCheck pre = 0
    /\ ((exists f, fst r = Failed f /\ log (snd r) = log w ++ pre)
        \/ (exists k e,
              k < 4
              /\ log (snd r) = log w ++ pre ++ firstn k removals ++ [removal k (Some e)]
              /\ fst r = Failed (UnexpectedError e))
        \/ (exists ev post,
              log (snd r) = log w ++ pre ++ removals ++ ev :: post
              /\ isWorkerPoolCheck ev = true
              /\ filter isRemoval post = [])).
Proof.
  cbv zeta. rewrite AfterEach_unfold.
  destruct (configureIPsecMode_rounds env (ipsecMode config) w) as (l1 & Hl1 & Hr1).
  apply Rounds_store_events, store_events_no_removal in Hr1 as (Hr1 & Hp1).
  destruct (configureIPsecMode env (ipsecMode config) w) as [[e|] w1];
    cbn [fst snd] in *.
  { exists l1. split; [exact Hr1|]. split; [exact Hp1|]. left.
    eexists. split; [reflexivity|exact Hl1]. }
  destruct (waitForIPsecConfigToComplete_wait_events env (ipsecMode config) w1)
    as (l2 & Hl2 & Hw2).
  apply wait_events_no_removal in Hw2 as (Hr2 & Hp2).
  assert (Hpre : filter isRemoval (l1 ++ l2) = []
                 /\ count isWorkerPoolCheck (l1 ++ l2) = 0).
  { rewrite filter_app, count_app, Hr1, Hr2, Hp1, Hp2. split; reflexivity. }
  destruct (waitForIPsecConfigToComplete env (ipsecMode config) w1) as [[[]|f] w2];
    cbn [fst snd] in *.
  2:{ exists (l1 ++ l2). split; [apply Hpre|]. split; [apply Hpre|]. left.
      eexists. split; [reflexivity|]. now rewrite Hl2, Hl1, app_assoc. }
  assert (Hl : log w2 = log w ++ (l1 ++ l2)) by now rewrite Hl2, Hl1, app_assoc.
  exists (l1 ++ l2). split; [apply Hpre|]. split; [apply Hpre|]. right.
  cbv zeta.
  destruct (ocDeleteResp env (seq w2) rightNodeIPsecConfigYaml) as [e|].
  { left. exists 0, e. split; [lia|]. split; [|reflexivity].
    cbn [snd logEvent log firstn removal]. rewrite Hl, <- !app_assoc. reflexivity. }
  destruct (ocDeleteResp env _ leftNodeIPsecConfigYaml) as [e|].
  { left. exists 1, e. split; [lia|]. split; [|reflexivity].
    cbn [snd logEvent log firstn removal removals]. rewrite Hl, <- !app_assoc.
    reflexivity. }
  destruct (undeployNmstateHandlerResp env _) as [e|].
  { left. exists 2, e. split; [lia|]. split; [|reflexivity].
    cbn [snd logEvent log firstn removal removals]. rewrite Hl, <- !app_assoc.
    reflexivity. }
  destruct (deleteNSCertMachineConfigResp env _) as [e|].
  { left. exists 3, e. split; [lia|]. split; [|reflexivity].
    cbn [snd logEvent log firstn removal removals]. rewrite Hl, <- !app_assoc.
    reflexivity. }
  right.
  match goal with
  | |- context [Eventually _ _ _ ?w6] =>
      destruct (Eventually_settle_events env ipsecRolloutWaitDuration
                  ipsecRolloutWaitInterval w6) as (ev & post & Hpost & Hev & Hs)
  end.
  exists ev, post. split; [|split; [exact Hev|now apply settle_events_no_removal]].
  rewrite Hpost. cbn [logEvent log]. rewrite Hl, <- !app_assoc. reflexivity.
Qed.

(** ** RolloutCoordinator: choosing the two nodes *)

(** The loop over a node's addresses leaves the first internal address, or
    what was there before when the node lists none. *)
Lemma rangeAddresses_hd (n : K8sNode) (ip : string) :
  rangeAddresses (Addresses n) ip = hd ip (internalIPs n).
Proof.
  unfold internalIPs. induction (Addresses n) as [|a l IH]; [reflexivity|].
  simpl. destruct (String.eqb (Type_ a) NodeInternalIP); [reflexivity|exact IH].
Qed.

(** X10: what BeforeEach leaves in the config object when it passes.  Each of
    the two entries carries the name of the node chosen for it, the interface
    found under br-ex of that node, and a node address that is not empty: the
    first internal address the node lists or, when the node lists none, the
    address the entry held before, which may be that of a node chosen
    earlier.  The pods and the captured mode are as they were. *)
Theorem BeforeEach_passed (lk : Lookups) (config : testConfig) :
  fst (BeforeEach lk (Some config)) = None ->
  exists node1 node2 config',
    findAppropriateNodes lk = inl (node1, node2)
    /\ snd (BeforeEach lk (Some config)) = Some config'
    /\ ipsecMode config' = ipsecMode config
    /\ srcNodeConfig config'
       = {| pingPod := pingPod (srcNodeConfig config);
            tcpdumpPod := tcpdumpPod (srcNodeConfig config);
            hostInf := fst (findBridgePhysicalInterface lk (Name node1) "br-ex");
            nodeName := Name node1;
            nodeIP := hd (nodeIP (srcNodeConfig config)) (internalIPs node1) |}
    /\ dstNodeConfig config'
       = {| pingPod := pingPod (dstNodeConfig config);
            tcpdumpPod := tcpdumpPod (dstNodeConfig config);
            hostInf := fst (findBridgePhysicalInterface lk (Name node2) "br-ex");
            nodeName := Name node2;
            nodeIP := hd (nodeIP (dstNodeConfig config)) (internalIPs node2) |}
    /\ nodeIP (srcNodeConfig config') <> ""
    /\ nodeIP (dstNodeConfig config') <> "".
Proof.
  unfold BeforeEach.
  destruct (findAppropriateNodes lk) as [[node1 node2]|e]; [|discriminate].
  destruct (findBridgePhysicalInterface lk (Name node1) "br-ex") as [inf1 [e|]]
    eqn:Hf1; [discriminate|].
  cbn [srcNodeConfig dstNodeConfig withSrc withDst withNodeName withHostInf
       withNodeIP nodeIP fst snd].
  rewrite (rangeAddresses_hd node1).
  destruct (String.eqb (hd (nodeIP (srcNodeConfig config)) (internalIPs node1)) "")
    eqn:H1; [discriminate|].
  destruct (findBridgePhysicalInterface lk (Name node2) "br-ex") as [inf2 [e|]]
    eqn:Hf2; [discriminate|].
  cbn [srcNodeConfig dstNodeConfig withSrc withDst withNodeName withHostInf
       withNodeIP nodeIP fst snd].
  rewrite (rangeAddresses_hd node2).
  destruct (String.eqb (hd (nodeIP (dstNodeConfig config)) (internalIPs node2)) "")
    eqn:H2; [discriminate|].
  intros _. exists node1, node2. eexists. split; [reflexivity|].
  split; [reflexivity|]. rewrite Hf1, Hf2.
  cbn [ipsecMode srcNodeConfig dstNodeConfig nodeIP].
  apply String.eqb_neq in H1, H2.
  split; [reflexivity|]. split; [reflexivity|]. split; [reflexivity|].
  split; assumption.
Qed.

Lemma BeforeEach_passed_witness :
  let lk := twoNodes (worker "b" [{| Type_ := "Hostname"; Address := "b" |}])
              (worker "c" [{| Type_ := "ExternalIP"; Address := "1.2.3.4" |};
                           {| Type_ := "InternalIP"; Address := "192.168.0.3" |};
                           {| Type_ := "InternalIP"; Address := "192.168.0.4" |}]) in
  exists config',
    snd (BeforeEach lk (Some (pair IPsecModeFull))) = Some config'
    /\ nodeName (srcNodeConfig config') = "b"
    /\ nodeIP (srcNodeConfig config') = nodeIP (node "a" "1")
    /\ nodeIP (dstNodeConfig config') = "192.168.0.3".
Proof.
  cbv zeta.
  destruct (BeforeEach_passed
              (twoNodes (worker "b" [{| Type_ := "Hostname"; Address := "b" |}])
                 (worker "c" [{| Type_ := "ExternalIP"; Address := "1.2.3.4" |};
                              {| Type_ := "InternalIP"; Address := "192.168.0.3" |};
                              {| Type_ := "InternalIP"; Address := "192.168.0.4" |}]))
              (pair IPsecModeFull))
    as (node1 & node2 & config' & Hn & Hc & _ & Hs & Hd & _);
    [vm_compute; reflexivity|].
  injection Hn as <- <-.
  exists config'. split; [exact Hc|]. rewrite Hs, Hd. repeat split.
Defined.

(** ** The command line: mirrorToFile *)

Lemma append_assoc (a b c : string) : ((a ++ b) ++ c = a ++ (b ++ c))%string.
Proof. induction a as [|x a IH]; simpl; [reflexivity|now rewrite IH]. Qed.

Lemma append_empty_r (a : string) : (a ++ "" = a)%string.
Proof. induction a as [|x a IH]; simpl; [reflexivity|now rewrite IH]. Qed.

(** A writer without the file handle changes the two streams only, and what
    it does to them does not depend on the file. *)
Lemma MultiWriter_Write_streams (w : Writer) (text : string) :
  ~ In OutFileHandle w ->
  forall c c0,
    stdout c = stdout c0 -> stderr c = stderr c0 ->
    stdout (MultiWriter_Write w text c) = stdout (MultiWriter_Write w text c0)
    /\ stderr (MultiWriter_Write w text c) = stderr (MultiWriter_Write w text c0)
    /\ outFile (MultiWriter_Write w text c) = outFile c
    /\ handleOpen (MultiWriter_Write w text c) = handleOpen c.
Proof.
  induction w as [|s w IH]; intros Hn c c0 Ho He; [repeat split; assumption|].
  assert (Hw : ~ In OutFileHandle w) by (intros H; apply Hn; now right).
  destruct s; [| |exfalso; apply Hn; now left]; cbn [MultiWriter_Write Sink_Write].
  - destruct (IH Hw
      {| stdout := (stdout c ++ text)%string; stderr := stderr c;
         outFile := outFile c; handleOpen := handleOpen c |}
      {| stdout := (stdout c0 ++ text)%string; stderr := stderr c0;
         outFile := outFile c0; handleOpen := handleOpen c0 |})
      as (H1 & H2 & H3 & H4); cbn [stdout stderr]; try congruence.
    repeat split; assumption.
  - destruct (IH Hw
      {| stdout := stdout c; stderr := (stderr c ++ text)%string;
         outFile := outFile c; handleOpen := handleOpen c |}
      {| stdout := stdout c0; stderr := (stderr c0 ++ text)%string;
         outFile := outFile c0; handleOpen := handleOpen c0 |})
      as (H1 & H2 & H3 & H4); cbn [stdout stderr]; try congruence.
    repeat split; assumption.
Qed.

(** The same writer with the open file handle behind it does the same to the
    streams and appends the text to the file. *)
Lemma MultiWriter_Write_mirrored (w : Writer) (text : string) (c : Console) :
  ~ In OutFileHandle w -> handleOpen c = true ->
  let c' := MultiWriter_Write (MultiWriter w [OutFileHandle]) text c in
  stdout c' = stdout (MultiWriter_Write w text c)
  /\ stderr c' = stderr (MultiWriter_Write w text c)
  /\ outFile c' = Some (fileContent c ++ text)%string
  /\ handleOpen c' = true.
Proof.
  unfold MultiWriter. revert c.
  induction w as [|s w IH]; intros c Hn Hopen; cbv zeta.
  - cbn [app MultiWriter_Write Sink_Write]. rewrite Hopen. unfold fileContent.
    destruct (outFile c); repeat split; reflexivity.
  - assert (Hw : ~ In OutFileHandle w) by (intros H; apply Hn; now right).
    destruct s; [| |exfalso; apply Hn; now left];
      cbn [app MultiWriter_Write Sink_Write];
      match goal with
      | |- context [MultiWriter_Write (w ++ _) text ?c1] =>
          destruct (IH c1 Hw Hopen) as (H1 & H2 & H3 & H4)
      end; repeat split; assumption.
Qed.

(** Once the handle is closed the file takes nothing more. *)
Lemma MultiWriter_Write_closed (w : Writer) (text : string) (c : Console) :
  ~ In OutFileHandle w -> handleOpen c = false ->
  MultiWriter_Write (MultiWriter w [OutFileHandle]) text c = MultiWriter_Write w text c.
Proof.
  unfold MultiWriter. revert c.
  induction w as [|s w IH]; intros c Hn Hclosed.
  - cbn [app MultiWriter_Write Sink_Write]. now rewrite Hclosed.
  - assert (Hw : ~ In OutFileHandle w) by (intros H; apply Hn; now right).
    destruct s; [| |exfalso; apply Hn; now left];
      cbn [app MultiWriter_Write Sink_Write]; apply IH; assumption.
Qed.

(** Printing a script with and without the file behind the writers. *)
Lemma scripted_mirrored (mirrored plain : Options) (wo we : Writer)
    (script : list Piece) :
  ~ In OutFileHandle wo -> ~ In OutFileHandle we ->
  Out plain = Some wo -> ErrOut plain = Some we ->
  Out mirrored = Some (MultiWriter wo [OutFileHandle]) ->
  ErrOut mirrored = Some (MultiWriter we [OutFileHandle]) ->
  forall c c0 s,
    stdout c = stdout c0 -> stderr c = stderr c0 ->
    handleOpen c = true -> outFile c = Some s ->
    let c' := fold_left (fun c p => put mirrored p c) script c in
    let c0' := fold_left (fun c p => put plain p c) script c0 in
    stdout c' = stdout c0' /\ stderr c' = stderr c0'
    /\ outFile c' = Some (s ++ throughOptions script)%string
    /\ handleOpen c' = true
    /\ outFile c0' = outFile c0 /\ handleOpen c0' = handleOpen c0.
Proof.
  intros Hwo Hwe Hpo Hpe Hmo Hme. cbv zeta.
  induction script as [|p script IH]; intros c c0 s Ho He Hopen Hs.
  - cbn [fold_left throughOptions]. rewrite append_empty_r.
    repeat split; assumption.
  - cbn [fold_left].
    assert (Hfc : fileContent c = s) by (unfold fileContent; now rewrite Hs).
    destruct p as [text|text|text|text]; cbn [put throughOptions];
      rewrite ?Hpo, ?Hpe, ?Hmo, ?Hme; cbn [writerOr].
    + destruct (MultiWriter_Write_mirrored wo text c Hwo Hopen) as (A1 & A2 & A3 & A4).
      destruct (MultiWriter_Write_streams wo text Hwo c c0 Ho He) as (B1 & B2 & _).
      destruct (MultiWriter_Write_streams wo text Hwo c0 c0 eq_refl eq_refl)
        as (_ & _ & C3 & C4).
      rewrite Hfc in A3.
      destruct (IH _ (MultiWriter_Write wo text c0) _
                  (eq_trans A1 B1) (eq_trans A2 B2) A4 A3)
        as (D1 & D2 & D3 & D4 & D5 & D6).
      rewrite append_assoc in D3. repeat split; congruence.
    + destruct (MultiWriter_Write_mirrored we text c Hwe Hopen) as (A1 & A2 & A3 & A4).
      destruct (MultiWriter_Write_streams we text Hwe c c0 Ho He) as (B1 & B2 & _).
      destruct (MultiWriter_Write_streams we text Hwe c0 c0 eq_refl eq_refl)
        as (_ & _ & C3 & C4).
      rewrite Hfc in A3.
      destruct (IH _ (MultiWriter_Write we text c0) _
                  (eq_trans A1 B1) (eq_trans A2 B2) A4 A3)
        as (D1 & D2 & D3 & D4 & D5 & D6).
      rewrite append_assoc in D3. repeat split; congruence.
    + destruct (IH (MultiWriter_Write [Stdout] text c)
                  (MultiWriter_Write [Stdout] text c0) s)
        as (D1 & D2 & D3 & D4 & D5 & D6);
        cbn [MultiWriter_Write Sink_Write stdout stderr handleOpen outFile] in *;
        try congruence.
      repeat split; assumption.
    + destruct (IH (MultiWriter_Write [Stderr] text c)
                  (MultiWriter_Write [Stderr] text c0) s)
        as (D1 & D2 & D3 & D4 & D5 & D6);
        cbn [MultiWriter_Write Sink_Write stdout stderr handleOpen outFile] in *;
        try congruence.
      repeat split; assumption.
Qed.

(** X11: mirrorToFile mirrors.  With an output file that opens, the file
    keeps what it held and gains, in the order it was printed, everything the
    function printed through opt.Out and opt.ErrOut, followed by the line
    [error: ...] when the function returned an error; what the function
    printed on the streams of the process directly is not in the file.  The
    two streams show exactly what they show without an output file, plus a
    note on opt.ErrOut when the file could not be closed, and the result is
    the one of the function in either case. *)
Theorem mirrorToFile_mirrors (os : OS) (opt : Options) (script : list Piece)
    (err : option error) (c : Console) :
  OutFile opt <> "" -> OpenFile_err os = None -> handleOpen c = false ->
  noHandle (Out opt) -> noHandle (ErrOut opt) ->
  let r := mirrorToFile os opt (scripted script err) c in
  let r0 := mirrorToFile os (withOutFile opt "") (scripted script err) c in
  let shown :=
    match Close_err os with
    | Some _ =>
        MultiWriter_Write (writerOr (ErrOut opt) [Stderr])
          ("error: Unable to close output file" ++ newline)%string (snd r0)
    | None => snd r0
    end in
  fst (fst r) = err /\ fst (fst r0) = err
  /\ outFile (snd r)
     = Some (fileContent c ++ throughOptions script ++ errorLine err)%string
  /\ outFile (snd r0) = outFile c
  /\ stdout (snd r) = stdout shown /\ stderr (snd r) = stderr shown.
Proof.
  intros Hname Hopen Hclosed Hno Hne. cbv zeta.
  set (wo := writerOr (Out opt) [Stdout]).
  set (we := writerOr (ErrOut opt) [Stderr]).
  assert (Hwo : ~ In OutFileHandle wo).
  { unfold wo. destruct (Out opt); [exact Hno|].
    intros [H|[]]; discriminate H. }
  assert (Hwe : ~ In OutFileHandle we).
  { unfold we. destruct (ErrOut opt); [exact Hne|].
    intros [H|[]]; discriminate H. }
  assert (Hlen : Nat.eqb (String.length (OutFile opt)) 0 = false).
  { destruct (OutFile opt); [now destruct Hname|reflexivity]. }
  set (plain := withErrOut (withOut (withOutFile opt "") wo) we).
  set (mirrored := withErrOut (withOut opt (MultiWriter wo [OutFileHandle]))
                     (MultiWriter we [OutFileHandle])).
  assert (Hr0 : mirrorToFile os (withOutFile opt "") (scripted script err) c
                = ((err, match Out opt, ErrOut opt with
                         | Some _, Some _ => withOutFile opt ""
                         | Some _, None => withErrOut (withOutFile opt "") [Stderr]
                         | None, Some _ => withOut (withOutFile opt "") [Stdout]
                         | None, None =>
                             withErrOut (withOut (withOutFile opt "") [Stdout]) [Stderr]
                         end),
                   fold_left (fun c p => put plain p c) script c)).
  { unfold mirrorToFile, scripted, plain, wo, we.
    destruct opt as [name [o|] [e|]]; reflexivity. }
  assert (Hr : exists opt',
             mirrorToFile os opt (scripted script err) c
             = ((err, opt'),
                let c1 := fold_left (fun c p => put mirrored p c) script (OpenFile c) in
                let c2 := match err with
                          | Some e => MultiWriter_Write [OutFileHandle]
                                        ("error: " ++ Error e)%string c1
                          | None => c1
                          end in
                match Close_err os with
                | Some _ =>
                    MultiWriter_Write (MultiWriter we [OutFileHandle])
                      ("error: Unable to close output file" ++ newline)%string (Close c2)
                | None => Close c2
                end)).
  { unfold mirrorToFile, scripted, mirrored, wo, we.
    destruct opt as [name [o|] [e|]]; cbn [Out ErrOut OutFile withOut withErrOut] in *;
      rewrite Hlen, Hopen; cbn [writerOr Out ErrOut withOut withErrOut];
      eexists; reflexivity. }
  destruct Hr as (opt' & Hr). rewrite Hr, Hr0. cbn [fst snd]. cbv zeta.
  destruct (scripted_mirrored mirrored plain wo we script Hwo Hwe
              eq_refl eq_refl eq_refl eq_refl (OpenFile c) c (fileContent c)
              eq_refl eq_refl eq_refl eq_refl)
    as (D1 & D2 & D3 & D4 & D5 & D6).
  set (c1 := fold_left (fun c p => put mirrored p c) script (OpenFile c)) in *.
  set (c0 := fold_left (fun c p => put plain p c) script c) in *.
  split; [reflexivity|]. split; [reflexivity|].
  assert (E : let c2 := match err with
                        | Some e => MultiWriter_Write [OutFileHandle]
                                      ("error: " ++ Error e)%string c1
                        | None => c1
                        end in
              stdout c2 = stdout c0 /\ stderr c2 = stderr c0
              /\ outFile c2
                 = Some (fileContent c ++ throughOptions script ++ errorLine err)%string).
  { destruct err as [e|]; cbv zeta; cbn [errorLine MultiWriter_Write Sink_Write].
    - rewrite D4. cbn [stdout stderr outFile]. rewrite D3, append_assoc.
      repeat split; assumption.
    - rewrite append_empty_r. repeat split; assumption. }
  cbv zeta in E. destruct E as (E1 & E2 & E3).
  set (c2 := match err with
             | Some e => MultiWriter_Write [OutFileHandle]
                           ("error: " ++ Error e)%string c1
             | None => c1
             end) in *.
  destruct (Close_err os) as [ce|].
  - set (msg := ("error: Unable to close output file" ++ newline)%string).
    rewrite (MultiWriter_Write_closed we msg (Close c2) Hwe eq_refl).
    destruct (MultiWriter_Write_streams we msg Hwe (Close c2) c0 E1 E2)
      as (F1 & F2 & F3 & _).
    rewrite F3. cbn [Close outFile]. repeat split; assumption.
  - cbn [Close outFile stdout stderr]. repeat split; assumption.
Qed.

Lemma mirrorToFile_mirrors_witness :
  let os := {| OpenFile_err := None; Close_err := Some errExit |} in
  let opt := {| OutFile := "e2e.log"; Out := None; ErrOut := None |} in
  let script := [ToStderr "openshift-tests version: v4"; ToOut "started: a";
                 ToErrOut "failed: a"; ToStdout "direct"] in
  let r := mirrorToFile os opt (scripted script (Some errForbidden)) terminal in
  outFile (snd r)
  = Some (fileContent terminal ++ "started: afailed: aerror: forbidden")%string
  /\ stdout (snd r) = "started: adirect".
Proof.
  cbv zeta.
  destruct (mirrorToFile_mirrors
              {| OpenFile_err := None; Close_err := Some errExit |}
              {| OutFile := "e2e.log"; Out := None; ErrOut := None |}
              [ToStderr "openshift-tests version: v4"; ToOut "started: a";
               ToErrOut "failed: a"; ToStdout "direct"]
              (Some errForbidden) terminal)
    as (_ & _ & Hfile & _ & Hout & _);
    [discriminate|reflexivity|reflexivity|exact I|exact I|].
  split; [exact Hfile|]. rewrite Hout. reflexivity.
Defined.

(** ** The command line: images *)

Lemma substring_all (s : string) : String.substring 0 (String.length s) s = s.
Proof. induction s as [|b s IH]; [reflexivity|]. simpl. now rewrite IH. Qed.

(** What TrimPrefix cuts off is the prefix. *)
Lemma TrimPrefix_HasPrefix (s prefix : string) :
  HasPrefix s prefix = true -> (prefix ++ TrimPrefix s prefix)%string = s.
Proof.
  unfold TrimPrefix. intros H. rewrite H. unfold HasPrefix in H.
  revert s H. induction prefix as [|a p IH]; intros s H.
  - simpl. rewrite Nat.sub_0_r. apply substring_all.
  - destruct s as [|b s]; [discriminate H|]. simpl in H.
    destruct (Ascii.ascii_dec a b) as [<-|]; [|discriminate H].
    simpl. now rewrite (IH s H).
Qed.

(** The loop over the valid prefixes cuts off the first of them the
    repository starts with, and nothing when it starts with none. *)
Lemma rangeValidPrefixes_split (validPrefixes : list string) (repository : string) :
  let r := rangeValidPrefixes validPrefixes repository "" in
  (snd r ++ fst r)%string = repository
  /\ (In (snd r) validPrefixes /\ HasPrefix repository (snd r) = true
      \/ snd r = "" /\ forallb (fun p => negb (HasPrefix repository p)) validPrefixes
                       = true).
Proof.
  cbv zeta. induction validPrefixes as [|p l IH]; [split; [reflexivity|now right]|].
  cbn [rangeValidPrefixes]. destruct (HasPrefix repository p) eqn:Hp.
  - cbn [fst snd]. split; [now apply TrimPrefix_HasPrefix|].
    left. split; [now left|exact Hp].
  - destruct IH as (IH1 & [(IH2 & IH3)|(IH2 & IH3)]); (split; [exact IH1|]).
    + left. split; [now right|exact IH3].
    + right. split; [exact IH2|]. cbn [forallb]. now rewrite Hp, IH3.
Qed.

Lemma printLines_printed (lines : list string) :
  forall c,
    stdout (printLines lines c) = (stdout c ++ printed lines)%string
    /\ stderr (printLines lines c) = stderr c
    /\ outFile (printLines lines c) = outFile c
    /\ handleOpen (printLines lines c) = handleOpen c.
Proof.
  unfold printLines. induction lines as [|line lines IH]; intros c.
  - cbn [fold_left printed]. rewrite append_empty_r. repeat split; reflexivity.
  - cbn [fold_left printed].
    destruct (IH (MultiWriter_Write [Stdout] (line ++ newline)%string c))
      as (H1 & H2 & H3 & H4).
    rewrite H1, H2, H3, H4. cbn [MultiWriter_Write Sink_Write stdout stderr outFile
                                  handleOpen].
    rewrite !append_assoc. repeat split; reflexivity.
Qed.

(** X12: the images command prints the whole mirror list or nothing.  When it
    returns an error nothing has been printed.  When it returns nil without
    --verify, the repository given was split into one of the prefixes
    [file://], [s3://] or none and a rest that parsed as a reference without
    tag and digest, the image mappings verified, and standard output gained
    exactly the lines rendered for that prefix and reference, one per line;
    the prefix cut off is [file://] when the repository starts with it, else
    [s3://] when it starts with that, and only one prefix is cut off.  With
    --verify the result is the one of the verification and nothing is
    printed. *)
Theorem imagesRunE_output (tools : ImageTools) (opt : imagesOptions) (c : Console) :
  let r := imagesRunE tools opt c in
  (fst r <> None -> snd r = c)
  /\ (Verify opt = true -> r = (verifyImages tools, c))
  /\ (Verify opt = false -> fst r = None ->
      exists prefix rest ref lines,
        (prefix ++ rest)%string = Repository opt
        /\ prefix = (if HasPrefix (Repository opt) "file://" then "file://"
                     else if HasPrefix (Repository opt) "s3://" then "s3://"
                     else "")
        /\ reference_Parse tools rest = inl ref
        /\ Tag ref = "" /\ ID ref = ""
        /\ verifyImages tools = None
        /\ createImageMirrorForInternalImages tools prefix ref (negb (Upstream opt))
           = inl lines
        /\ stdout (snd r) = (stdout c ++ printed lines)%string
        /\ stderr (snd r) = stderr c
        /\ outFile (snd r) = outFile c).
Proof.
  cbv zeta. unfold imagesRunE.
  destruct (Verify opt).
  { split; [reflexivity|]. split; [reflexivity|discriminate]. }
  pose proof (rangeValidPrefixes_split ["file://"; "s3://"] (Repository opt)) as Hsplit.
  cbv zeta in Hsplit.
  assert (Hpre : snd (rangeValidPrefixes ["file://"; "s3://"] (Repository opt) "")
                 = (if HasPrefix (Repository opt) "file://" then "file://"
                    else if HasPrefix (Repository opt) "s3://" then "s3://"
                    else "")).
  { cbn [rangeValidPrefixes].
    destruct (HasPrefix (Repository opt) "file://"); [reflexivity|].
    destruct (HasPrefix (Repository opt) "s3://"); reflexivity. }
  destruct (rangeValidPrefixes ["file://"; "s3://"] (Repository opt) "")
    as [repository prefix]. cbn [fst snd] in Hsplit, Hpre.
  destruct Hsplit as (Hcat & _).
  destruct (reference_Parse tools repository) as [ref|e] eqn:Hparse.
  2:{ split; [reflexivity|]. split; [discriminate|]. intros _ H; discriminate H. }
  destruct (Tag ref) as [|t ts] eqn:Htag; cbn [String.length Nat.ltb Nat.leb orb].
  2:{ split; [reflexivity|]. split; [discriminate|]. intros _ H; discriminate H. }
  destruct (ID ref) as [|i0 i1] eqn:Hid; cbn [String.length Nat.ltb Nat.leb orb].
  2:{ split; [reflexivity|]. split; [discriminate|]. intros _ H; discriminate H. }
  destruct (verifyImages tools) as [e|] eqn:Hver.
  { split; [reflexivity|]. split; [discriminate|]. intros _ H; discriminate H. }
  destruct (createImageMirrorForInternalImages tools prefix ref (negb (Upstream opt)))
    as [lines|e] eqn:Hmirror.
  2:{ split; [reflexivity|]. split; [discriminate|]. intros _ H; discriminate H. }
  cbn [fst snd]. split; [intros H; now destruct H|]. split; [discriminate|].
  intros _ _. exists prefix, repository, ref, lines.
  destruct (printLines_printed lines c) as (P1 & P2 & P3 & _).
  repeat split; assumption.
Qed.

Lemma imagesRunE_output_witness :
  exists rest ref,
    ("file://" ++ rest)%string = "file://s3://mirror"
    /\ reference_Parse mirrorTools rest = inl ref
    /\ Tag ref = "".
Proof.
  destruct (imagesRunE_output mirrorTools
              {| Repository := "file://s3://mirror"; Upstream := false;
                 Verify := false |} terminal)
    as (_ & _ & H).
  assert (Hr : fst (imagesRunE mirrorTools
                      {| Repository := "file://s3://mirror"; Upstream := false;
                         Verify := false |} terminal) = None)
    by (vm_compute; reflexivity).
  destruct (H eq_refl Hr)
    as (prefix & rest & ref & lines & Hcat & Hpre & Hparse & Htag & _).
  assert (Hp : prefix = "file://") by exact Hpre.
  rewrite Hp in Hcat.
  exists rest, ref. repeat split; assumption.
Defined.
